(** * QHYCCD SDK demo programs: call sequences, traces and their properties

    The four programs under [testapp/cmake_demo] ([base_test], [test_base],
    [test_live_opencv], [test_single_opencv]) are flat sequences of calls into
    the vendor SDK, the C library and OpenCV.  Each [main] is embedded as a
    tree of calls: a node is one call, its children are indexed by what the
    call hands back (return code and written out-parameters), and the leaves
    are the [return] statements of [main].  An execution is a path through
    that tree; its trace is the list of calls made together with what each
    one returned. *)

From Stdlib Require Import ZArith QArith List String Ascii Strings.Byte Bool Lia.
From Stdlib Require Import Sorting.Sorted.
Import ListNotations.

Open Scope string_scope.
Open Scope list_scope.
Open Scope Z_scope.

(** ** What the programs take from [qhyccd.h] *)

(** The header itself is not part of the repository: the constants the
    programs name are parameters of the development. *)
Class Header : Type := {
  QHYCCD_SUCCESS : Z;
  QHYCCD_ERROR : Z;
  SINGLE_MODE : Z;
  LIVE_MODE : Z
}.

(** The values of the vendor's header, for running the programs on concrete
    SDK behaviours. *)
Definition qhyccd_h : Header := {|
  QHYCCD_SUCCESS := 0;
  QHYCCD_ERROR := 0xFFFFFFFF;
  SINGLE_MODE := 0;
  LIVE_MODE := 1
|}.

Inductive CONTROL_ID : Type :=
| CONTROL_EXPOSURE
| CONTROL_COOLER
| CONTROL_CURTEMP
| CONTROL_CURPWM
| CONTROL_TRANSFERBIT
| CAM_LIVEVIDEOMODE.

(** Pointers are addresses, [NULL] is 0.  A [double] is only ever passed
    through (printed, or handed to the SDK), never computed with. *)
Definition pointer : Type := Z.
Definition qhyccd_handle : Type := pointer.
Definition NULL : pointer := 0.
Definition double : Type := Q.

(** Out-parameters of [GetQHYCCDChipInfo], as they stand after the call. *)
Record chip_info : Type := {
  chipw : double; chiph : double;
  imagew : Z; imageh : Z;
  pixelw : double; pixelh : double;
  chip_bpp : Z
}.

(** Out-parameters of [GetQHYCCDLiveFrame] and [GetQHYCCDSingleFrame]. *)
Record frame_info : Type := {
  frame_w : Z; frame_h : Z; frame_bpp : Z; frame_channels : Z
}.

Inductive cv_type : Type := CV_8UC1.

Inductive window_flag : Type := WINDOW_NORMAL.

(** [cv::Mat(rows, cols, type, data)]: a header over caller-owned memory. *)
Record Mat : Type := {
  rows : Z; cols : Z; mat_type : cv_type; data : pointer
}.

(** Arguments of the printing calls.  [VFmt] is a string built by [sprintf]:
    its format and arguments, unformatted. *)
#[warnings="-register-all"]
Inductive value : Type :=
| VInt (z : Z)
| VDbl (d : double)
| VStr (s : string)
| VFmt (fmt : string) (args : list value).

(** ** Calls *)

(** Every call a program makes, indexed by the type of what it hands back.
    For an SDK function that is its return value, also where the program
    drops it; where the function writes through pointers, the values that
    stand there after the call are paired with it (so a local array zeroed
    before the call is not an event of its own: the answer says what the
    array holds afterwards).  The SDK hands back unsigned 32-bit values and
    the programs keep them in an [int].  For the comparison of a code with
    [QHYCCD_SUCCESS] or [QHYCCD_ERROR] that makes no difference (the
    conversion is a bijection on 32-bit patterns), so codes are compared as
    handed back; where a program tests the sign of such an [int], counts
    with it, prints it or passes it on as a size, the conversion is written
    out ([int32], [size_t]).  Calls outside the SDK hand back [unit] when no
    program reads their result. *)
Inductive call : Type -> Type :=
(* qhyccd.h *)
| GetQHYCCDSDKVersion : call (Z * Z * Z * Z)
| InitQHYCCDResource : call Z
| ReleaseQHYCCDResource : call Z
| EnableQHYCCDMessage (enable : bool) : call unit
| ScanQHYCCD : call Z
| GetQHYCCDId (index : Z) : call (Z * string)
| OpenQHYCCD (id : string) : call qhyccd_handle
| CloseQHYCCD (h : qhyccd_handle) : call Z
| GetQHYCCDFWVersion (h : qhyccd_handle) : call (Z * list byte)
| SetQHYCCDReadMode (h : qhyccd_handle) (mode : Z) : call Z
| SetQHYCCDStreamMode (h : qhyccd_handle) (mode : Z) : call Z
| InitQHYCCD (h : qhyccd_handle) : call Z
| IsQHYCCDControlAvailable (h : qhyccd_handle) (c : CONTROL_ID) : call Z
| SetQHYCCDBitsMode (h : qhyccd_handle) (bits : Z) : call Z
| GetQHYCCDChipInfo (h : qhyccd_handle) : call (Z * chip_info)
| SetQHYCCDResolution (h : qhyccd_handle) (x y xsize ysize : Z) : call Z
| GetQHYCCDMemLength (h : qhyccd_handle) : call Z
| SetQHYCCDParam (h : qhyccd_handle) (c : CONTROL_ID) (v : double) : call Z
| GetQHYCCDParam (h : qhyccd_handle) (c : CONTROL_ID) : call double
| BeginQHYCCDLive (h : qhyccd_handle) : call Z
| StopQHYCCDLive (h : qhyccd_handle) : call Z
| GetQHYCCDLiveFrame (h : qhyccd_handle) (buf : pointer) : call (Z * frame_info)
| ExpQHYCCDSingleFrame (h : qhyccd_handle) : call Z
| GetQHYCCDSingleFrame (h : qhyccd_handle) (buf : pointer) : call (Z * frame_info)
(* C and C++ standard library *)
| printf (fmt : string) (args : list value) : call unit
| fprintf_stderr (fmt : string) (args : list value) : call unit
| cout (items : list value) : call unit
| cin_char : call ascii
| getchar : call unit
| malloc (size : Z) : call pointer
| memset (p : pointer) (c : Z) (n : Z) : call unit
| time_NULL : call Z
| usleep (us : Z) : call unit
| sleep_for_milliseconds (ms : Z) : call unit
(* OpenCV *)
| namedWindow (name : string) (flags : window_flag) : call unit
| imshow (name : string) (img : Mat) : call unit
| waitKey (delay : Z) : call unit.

(** ** Programs *)

(** [Exit n] is [return n] in [main].  [Spin] stands for a [while(true)]
    loop that is still running when the iteration budget given to it is
    used up. *)
Inductive prog (A : Type) : Type :=
| Ret (a : A)
| Exit (status : Z)
| Spin
| Vis (T : Type) (c : call T) (k : T -> prog A).

Arguments Ret {A} a.
Arguments Exit {A} status.
Arguments Spin {A}.
Arguments Vis {A T} c k.

Fixpoint bind {A B : Type} (p : prog A) (f : A -> prog B) : prog B :=
  match p with
  | Ret a => f a
  | Exit n => Exit n
  | Spin => Spin
  | Vis c k => Vis c (fun r => bind (k r) f)
  end.

Definition do {T : Type} (c : call T) : prog T := Vis c Ret.

Declare Scope prog_scope.
Delimit Scope prog_scope with prog.
Bind Scope prog_scope with prog.

Notation "x <- p ;; q" := (bind p (fun x => q))
  (at level 61, p at next level, right associativity) : prog_scope.
Notation "' pat <- p ;; q" := (bind p (fun x => match x with pat => q end))
  (at level 61, pat pattern, p at next level, right associativity) : prog_scope.
Notation "p ;; q" := (bind p (fun _ => q))
  (at level 61, right associativity) : prog_scope.

Open Scope prog_scope.

(** [if (c) { body }] with no [else]. *)
Definition when (c : bool) (body : prog unit) : prog unit :=
  if c then body else Ret tt.

(** [while(true) { body }]: [body] hands back [inl s] to go round again with
    the loop variables [s], or [inr tt] on [break]. *)
Fixpoint while_true {V : Type} (budget : nat) (body : V -> prog (V + unit))
    (s : V) : prog unit :=
  match budget with
  | O => Spin
  | S n =>
      r <- body s ;;
      match r with
      | inl s' => while_true n body s'
      | inr _ => Ret tt
      end
  end.

(** [for (int i = lo; i < hi; i++) { body }]: [body] hands back the loop
    variables and whether it ended in [break]. *)
Fixpoint for_steps {V : Type} (n : nat) (i : Z) (body : Z -> V -> prog (V * bool))
    (s : V) : prog V :=
  match n with
  | O => Ret s
  | S m =>
      r <- body i s ;;
      if snd r then Ret (fst r) else for_steps m (i + 1) body (fst r)
  end.

Definition for_ {V : Type} (lo hi : Z) (body : Z -> V -> prog (V * bool))
    (s : V) : prog V :=
  for_steps (Z.to_nat (hi - lo)) lo body s.

(** A 32-bit [int] holding [z], two's complement. *)
Definition int32 (z : Z) : Z := (z + 2 ^ 31) mod 2 ^ 32 - 2 ^ 31.

(** An [int] converted to [size_t], which is 64 bits wide on the platform
    of this SDK build (Arm64): a negative [int] becomes a huge size. *)
Definition size_t (z : Z) : Z := z mod 2 ^ 64.

Arguments int32 : simpl never.
Arguments size_t : simpl never.

(** Element [i] of an [unsigned char] array, promoted to [int]. *)
Definition at_ (a : list byte) (i : nat) : Z := Z.of_N (Byte.to_N (nth i a x00)).

(** A value stored into a [uint8_t]. *)
Definition uint8 (z : Z) : Z := z mod 256.

(** ** The four programs *)

(** The locals that the acquisition loops of the two OpenCV demos carry from
    one iteration to the next.  ([w], [h], [bpp], [channels], [t_end] and
    [img] are written afresh before they are read.) *)
Record loop_vars : Type := {
  frame_count : Z;
  fps : Z;
  t_start : Z
}.

Section Programs.
Context {hdr : Header}.

(** *** test_base/main.cpp *)

(** The three bytes [fwv_version] that [test_base] computes from the
    firmware bytes and prints. *)
Definition fwv_version (fwv : list byte) : list Z :=
  [ uint8 (if Z.shiftr (at_ fwv 0) 4 <=? 9
           then Z.shiftr (at_ fwv 0) 4 + 0x10
           else Z.shiftr (at_ fwv 0) 4);
    uint8 (Z.land (at_ fwv 0) (Z.lnot 0xf0));
    uint8 (at_ fwv 1) ].

(** Lines 35-43 of [main]. *)
Definition test_base_firmware (camhandle : qhyccd_handle) : prog unit :=
  '(_, fwv) <- do (GetQHYCCDFWVersion camhandle) ;;
  do (printf "firmware version: %d_%d_%d\n" (map VInt (fwv_version fwv))).

Definition test_base_main : prog Empty_set :=
  '(y, m, d, s) <- do GetQHYCCDSDKVersion ;;
  do (printf "SDK Version: %d.%d.%d_%d\n" [VInt y; VInt m; VInt d; VInt s]) ;;
  do InitQHYCCDResource ;;
  do (EnableQHYCCDMessage true) ;;
  found_cameras <- do ScanQHYCCD ;;
  let num := int32 found_cameras in
  do (printf "Found %d cameras  \n" [VInt num]) ;;
  when (num =? 0)
    (do (printf "No camera found\n" []) ;;
     Exit 1) ;;
  '(_, id) <- do (GetQHYCCDId 0) ;;
  do (printf "connected to the first camera from the list,id is %s\n" [VStr id]) ;;
  camhandle <- do (OpenQHYCCD id) ;;
  test_base_firmware camhandle ;;
  do (SetQHYCCDReadMode camhandle 0) ;;
  do (SetQHYCCDStreamMode camhandle LIVE_MODE) ;;
  do (InitQHYCCD camhandle) ;;
  do (SetQHYCCDBitsMode camhandle 8) ;;
  '(_, ci) <- do (GetQHYCCDChipInfo camhandle) ;;
  do (printf "CCD/CMOS chip information:\n" []) ;;
  do (printf "Chip width %3f mm,Chip height %3f mm\n"
        [VDbl (chipw ci); VDbl (chiph ci)]) ;;
  do (printf "Chip pixel width %3f um,Chip pixel height %3f um\n"
        [VDbl (pixelw ci); VDbl (pixelh ci)]) ;;
  do (printf "Chip Max Resolution is %d x %d,depth is %d\n"
        [VInt (imagew ci); VInt (imageh ci); VInt (chip_bpp ci)]) ;;
  ret <- do (SetQHYCCDResolution camhandle 0 0 (imagew ci) (imageh ci)) ;;
  (if ret =? QHYCCD_SUCCESS
   then do (printf "SetQHYCCDResolution success!\n" [])
   else do (printf "SetQHYCCDResolution fail\n" []) ;;
        Exit 1) ;;
  needed <- do (GetQHYCCDMemLength camhandle) ;;
  let length := int32 needed in
  ImgData <- do (malloc (size_t length)) ;;
  do (memset ImgData 0 (size_t length)) ;;
  do (CloseQHYCCD camhandle) ;;
  do ReleaseQHYCCDResource ;;
  Exit 0.

(** *** test_live_opencv/main.cpp *)

(** The body of the [if(ret == QHYCCD_SUCCESS)] branch shared by the two
    acquisition loops (lines 90-101 of test_live_opencv, 91-102 of
    test_single_opencv, which are the same text). *)
Definition show_frame (ImgData : pointer) (fi : frame_info) (v : loop_vars)
    : prog loop_vars :=
  do (printf "iCnt = %d\n" [VInt (frame_count v)]) ;;
  let frame_count' := int32 (frame_count v + 1) in
  let img := {| rows := frame_h fi; cols := frame_w fi;
                mat_type := CV_8UC1; data := ImgData |} in
  do (imshow "show" img) ;;
  do (waitKey 30) ;;
  let fps' := int32 (fps v + 1) in
  t_end <- do time_NULL ;;
  v' <- (if int32 (int32 t_end - t_start v) >=? 5
         then do (fprintf_stderr "|QHYCCD|LIVE_DEMO|fps = %d\n"
                    [VInt (Z.quot fps' 5)]) ;;
              t <- do time_NULL ;;
              Ret {| frame_count := frame_count'; fps := 0; t_start := int32 t |}
         else Ret {| frame_count := frame_count'; fps := fps';
                     t_start := t_start v |}) ;;
  do (waitKey 100) ;;
  Ret v'.

Definition live_iteration (camhandle : qhyccd_handle) (ImgData : pointer)
    (v : loop_vars) : prog (loop_vars + unit) :=
  '(ret, fi) <- do (GetQHYCCDLiveFrame camhandle ImgData) ;;
  v' <- (if ret =? QHYCCD_SUCCESS
         then show_frame ImgData fi v
         else Ret v) ;;
  do (waitKey 10) ;;
  Ret (inl v').

Definition test_live_opencv_main (budget : nat) : prog Empty_set :=
  do InitQHYCCDResource ;;
  do (EnableQHYCCDMessage true) ;;
  found_cameras <- do ScanQHYCCD ;;
  let num := int32 found_cameras in
  do (printf "Found %d cameras  \n" [VInt num]) ;;
  when (num =? 0)
    (do (printf "No camera found\n" []) ;;
     Exit 1) ;;
  '(_, id) <- do (GetQHYCCDId 0) ;;
  do (printf "connected to the first camera from the list,id is %s\n" [VStr id]) ;;
  camhandle <- do (OpenQHYCCD id) ;;
  do (SetQHYCCDReadMode camhandle 0) ;;
  do (SetQHYCCDStreamMode camhandle LIVE_MODE) ;;
  do (InitQHYCCD camhandle) ;;
  do (SetQHYCCDBitsMode camhandle 8) ;;
  '(_, ci) <- do (GetQHYCCDChipInfo camhandle) ;;
  do (printf "CCD/CMOS chip information:\n" []) ;;
  do (printf "Chip width %3f mm,Chip height %3f mm\n"
        [VDbl (chipw ci); VDbl (chiph ci)]) ;;
  do (printf "Chip pixel width %3f um,Chip pixel height %3f um\n"
        [VDbl (pixelw ci); VDbl (pixelh ci)]) ;;
  do (printf "Chip Max Resolution is %d x %d,depth is %d\n"
        [VInt (imagew ci); VInt (imageh ci); VInt (chip_bpp ci)]) ;;
  ret <- do (SetQHYCCDResolution camhandle 0 0 (imagew ci) (imageh ci)) ;;
  (if ret =? QHYCCD_SUCCESS
   then do (printf "SetQHYCCDResolution success!\n" [])
   else do (printf "SetQHYCCDResolution fail\n" []) ;;
        Exit 1) ;;
  needed <- do (GetQHYCCDMemLength camhandle) ;;
  let length := int32 needed in
  ImgData <- do (malloc (size_t length)) ;;
  do (memset ImgData 0 (size_t length)) ;;
  t <- do time_NULL ;;
  do (SetQHYCCDParam camhandle CONTROL_EXPOSURE (100000 # 1)) ;;
  do (BeginQHYCCDLive camhandle) ;;
  do (namedWindow "show" WINDOW_NORMAL) ;;
  while_true budget (live_iteration camhandle ImgData)
    {| frame_count := 0; fps := 0; t_start := int32 t |} ;;
  do (StopQHYCCDLive camhandle) ;;
  do (CloseQHYCCD camhandle) ;;
  do ReleaseQHYCCDResource ;;
  Exit 0.

(** *** test_single_opencv/main.cpp *)

(** [cin_char] hands back the value of [input] after [std::cin >> input]. *)
Definition single_iteration (camhandle : qhyccd_handle) (ImgData : pointer)
    (v : loop_vars) : prog (loop_vars + unit) :=
  do (cout [VStr " 'q' = quit      any = continue "]) ;;
  input <- do cin_char ;;
  if (Ascii.eqb input "q" || Ascii.eqb input "Q")%bool
  then do (cout [VStr "quit \n"]) ;;
       Ret (inr tt)
  else
    do (ExpQHYCCDSingleFrame camhandle) ;;
    do (sleep_for_milliseconds 300) ;;
    '(ret, fi) <- do (GetQHYCCDSingleFrame camhandle ImgData) ;;
    v' <- (if ret =? QHYCCD_SUCCESS
           then show_frame ImgData fi v
           else Ret v) ;;
    do (waitKey 10) ;;
    Ret (inl v').

Definition test_single_opencv_main (budget : nat) : prog Empty_set :=
  do InitQHYCCDResource ;;
  do (EnableQHYCCDMessage true) ;;
  found_cameras <- do ScanQHYCCD ;;
  let num := int32 found_cameras in
  do (printf "Found %d cameras  \n" [VInt num]) ;;
  when (num =? 0)
    (do (printf "No camera found\n" []) ;;
     Exit 1) ;;
  '(_, id) <- do (GetQHYCCDId 0) ;;
  do (printf "connected to the first camera from the list,id is %s\n" [VStr id]) ;;
  camhandle <- do (OpenQHYCCD id) ;;
  do (SetQHYCCDReadMode camhandle 0) ;;
  do (SetQHYCCDStreamMode camhandle SINGLE_MODE) ;;
  do (InitQHYCCD camhandle) ;;
  do (SetQHYCCDBitsMode camhandle 8) ;;
  '(_, ci) <- do (GetQHYCCDChipInfo camhandle) ;;
  do (printf "CCD/CMOS chip information:\n" []) ;;
  do (printf "Chip width %3f mm,Chip height %3f mm\n"
        [VDbl (chipw ci); VDbl (chiph ci)]) ;;
  do (printf "Chip pixel width %3f um,Chip pixel height %3f um\n"
        [VDbl (pixelw ci); VDbl (pixelh ci)]) ;;
  do (printf "Chip Max Resolution is %d x %d,depth is %d\n"
        [VInt (imagew ci); VInt (imageh ci); VInt (chip_bpp ci)]) ;;
  ret <- do (SetQHYCCDResolution camhandle 0 0 (imagew ci) (imageh ci)) ;;
  (if ret =? QHYCCD_SUCCESS
   then do (printf "SetQHYCCDResolution success!\n" [])
   else do (printf "SetQHYCCDResolution fail\n" []) ;;
        Exit 1) ;;
  needed <- do (GetQHYCCDMemLength camhandle) ;;
  let length := int32 needed in
  ImgData <- do (malloc (size_t length)) ;;
  do (memset ImgData 0 (size_t length)) ;;
  t <- do time_NULL ;;
  do (SetQHYCCDParam camhandle CONTROL_EXPOSURE (100000 # 1)) ;;
  do (namedWindow "show" WINDOW_NORMAL) ;;
  while_true budget (single_iteration camhandle ImgData)
    {| frame_count := 0; fps := 0; t_start := int32 t |} ;;
  do (CloseQHYCCD camhandle) ;;
  do ReleaseQHYCCDResource ;;
  Exit 0.

(** *** base_test/main.cpp *)

Definition SDKVersion : prog unit :=
  '(y, m, d, s) <- do GetQHYCCDSDKVersion ;;
  let YMDS := [VInt y; VInt m; VInt d; VInt s] in
  let sVersion :=
    if ((m <? 10) && (d <? 10))%bool then VFmt "V20%d0%d0%d_%d\n" YMDS
    else if ((m <? 10) && (d >? 10))%bool then VFmt "V20%d0%d%d_%d\n" YMDS
    else if ((m >? 10) && (d <? 10))%bool then VFmt "V20%d%d0%d_%d\n" YMDS
    else VFmt "V20%d%d%d_%d\n" YMDS in
  do (fprintf_stderr "QHYCCD SDK Version: %s\n" [sVersion]).

(** The three numbers [FirmWareVersion] formats on success. *)
Definition FirmWareVersion_numbers (fwv : list byte) : list Z :=
  if Z.shiftr (at_ fwv 0) 4 <=? 9
  then [ Z.shiftr (at_ fwv 0) 4 + 0x10;
         Z.land (at_ fwv 0) (Z.lnot 0xf0);
         at_ fwv 1 ]
  else [ Z.shiftr (at_ fwv 0) 4;
         Z.land (at_ fwv 0) (Z.lnot 0xf0);
         at_ fwv 1 ].

Definition FirmWareVersion (h : qhyccd_handle) : prog unit :=
  '(ret, fwv) <- do (GetQHYCCDFWVersion h) ;;
  let FWInfo :=
    if ret =? QHYCCD_SUCCESS
    then VFmt "Firmware version:20%d_%d_%d\n" (map VInt (FirmWareVersion_numbers fwv))
    else VFmt "Firmware version:Not Found!\n" [] in
  do (fprintf_stderr "%s\n" [FWInfo]).

(** The [failure:] label at the end of [main]. *)
Definition failure {A : Type} : prog A :=
  do (printf "some fatal error happened\n" []) ;;
  Exit 1.

(** Lines 223-241: the loop variables are [id] and [found].  [id] starts
    out unset; it is read only once [found] is 1, after a call wrote it. *)
Definition find_camera (num : Z) : prog (string * Z) :=
  for_ 0 num
    (fun i '(_, found) =>
       '(ret, id) <- do (GetQHYCCDId i) ;;
       if ret =? QHYCCD_SUCCESS
       then do (printf "connected to the first camera from the list,id is %s\n"
                  [VStr id]) ;;
            Ret ((id, 1), true)
       else Ret ((id, found), false))
    ("", 0).

(** Lines 497-533. *)
Definition cooler_loop (camhandle : qhyccd_handle) : prog unit :=
  for_ 0 4
    (fun _ _ =>
       do (usleep 2000000) ;;
       do (cout [VStr "  +  "; VStr "\n"]) ;;
       do (SetQHYCCDParam camhandle CONTROL_COOLER (10 # 1)) ;;
       now_t <- do (GetQHYCCDParam camhandle CONTROL_CURTEMP) ;;
       do (cout [VDbl now_t; VStr "\n"]) ;;
       now_p <- do (GetQHYCCDParam camhandle CONTROL_CURPWM) ;;
       do (cout [VDbl now_p; VStr "\n"]) ;;
       Ret (tt, false))
    tt.

(** Lines 247-537, the [if(found == 1)] block; it leaves [camhandle]. *)
Definition base_test_camera (id : string) : prog qhyccd_handle :=
  camhandle <- do (OpenQHYCCD id) ;;
  (if negb (camhandle =? NULL)
   then do (printf "Open QHYCCD success!\n" [])
   else do (printf "Open QHYCCD failed \n" []) ;;
        failure) ;;
  do (SetQHYCCDReadMode camhandle 4) ;;
  FirmWareVersion camhandle ;;
  ret <- do (IsQHYCCDControlAvailable camhandle CAM_LIVEVIDEOMODE) ;;
  when (QHYCCD_ERROR =? ret)
    (do (printf "The detected camera is not support live frame.\n" []) ;;
     ret <- do ReleaseQHYCCDResource ;;
     (if QHYCCD_SUCCESS =? ret
      then do (printf "SDK resources released.\n" [])
      else do (printf "Cannot release SDK resources, error %d.\n"
                 [VInt (int32 ret)])) ;;
     Exit 1) ;;
  do (SetQHYCCDStreamMode camhandle 1) ;;
  ret <- do (InitQHYCCD camhandle) ;;
  (if ret =? QHYCCD_SUCCESS
   then do (printf "bit = 8.2\n" []) ;;
        do (printf "Init QHYCCD success -------------!\n" [])
   else do (printf "Init QHYCCD fail code:%d\n" [VInt (int32 ret)]) ;;
        failure) ;;
  ret <- do (IsQHYCCDControlAvailable camhandle CONTROL_TRANSFERBIT) ;;
  when (ret =? QHYCCD_SUCCESS)
    (ret <- do (SetQHYCCDBitsMode camhandle 8) ;;
     do (printf "bit = 8\n" []) ;;
     when (negb (ret =? QHYCCD_SUCCESS))
       (do (printf "SetQHYCCDParam CONTROL_GAIN failed\n" []) ;;
        do getchar ;;
        Exit 1)) ;;
  do (SetQHYCCDBitsMode camhandle 8) ;;
  do (printf "bit = 8.2\n" []) ;;
  '(ret, ci) <- do (GetQHYCCDChipInfo camhandle) ;;
  (if ret =? QHYCCD_SUCCESS
   then do (printf "GetQHYCCDChipInfo success!\n" []) ;;
        do (printf "CCD/CMOS chip information:\n" []) ;;
        do (printf "Chip width %3f mm,Chip height %3f mm\n"
              [VDbl (chipw ci); VDbl (chiph ci)]) ;;
        do (printf "Chip pixel width %3f um,Chip pixel height %3f um\n"
              [VDbl (pixelw ci); VDbl (pixelh ci)]) ;;
        do (printf "Chip Max Resolution is %d x %d,depth is %d\n"
              [VInt (imagew ci); VInt (imageh ci); VInt (chip_bpp ci)])
   else do (printf "GetQHYCCDChipInfo fail\n" []) ;;
        failure) ;;
  ret <- do (SetQHYCCDResolution camhandle 0 0 (imagew ci) (imageh ci)) ;;
  (if ret =? QHYCCD_SUCCESS
   then do (printf "SetQHYCCDResolution success!\n" [])
   else do (printf "SetQHYCCDResolution fail\n" []) ;;
        failure) ;;
  needed <- do (GetQHYCCDMemLength camhandle) ;;
  let length := int32 needed in
  (if length >? 0
   then ImgData <- do (malloc (size_t length)) ;;
        do (memset ImgData 0 (size_t length))
   else do (printf "Get the min memory space length failure \n" []) ;;
        failure) ;;
  do time_NULL ;;
  do (EnableQHYCCDMessage true) ;;
  cooler_loop camhandle ;;
  Ret camhandle.

Definition base_test_main : prog Empty_set :=
  SDKVersion ;;
  ret <- do InitQHYCCDResource ;;
  do (EnableQHYCCDMessage false) ;;
  (if ret =? QHYCCD_SUCCESS
   then do (printf "Init SDK success    ------!\n" [])
   else failure) ;;
  found_cameras <- do ScanQHYCCD ;;
  let num := int32 found_cameras in
  (if num >? 0
   then do (printf "Yes!Found QHYCCD,the num is %d \n" [VInt num])
   else do (printf "Not Found QHYCCD,please check the usblink or the power\n" []) ;;
        failure) ;;
  '(id, found) <- find_camera num ;;
  camhandle <- (if found =? 1
                then base_test_camera id
                else do (printf "The camera is not QHYCCD or other error \n" []) ;;
                     failure) ;;
  when (negb (camhandle =? NULL))
    (do (StopQHYCCDLive camhandle) ;;
     ret <- do (CloseQHYCCD camhandle) ;;
     if ret =? QHYCCD_SUCCESS
     then do (printf "Close QHYCCD success!\n" [])
     else failure) ;;
  ret <- do ReleaseQHYCCDResource ;;
  (if ret =? QHYCCD_SUCCESS
   then do (printf "Rlease SDK Resource  success!\n" [])
   else failure) ;;
  Exit 0.

End Programs.

(** The programs by name.  The budget bounds the iterations of the
    [while(true)] loop of the two OpenCV demos; the other two have none. *)
Inductive demo : Type :=
| base_test
| test_base
| test_live_opencv
| test_single_opencv.

Definition main_of {hdr : Header} (d : demo) (budget : nat) : prog Empty_set :=
  match d with
  | base_test => base_test_main
  | test_base => test_base_main
  | test_live_opencv => test_live_opencv_main budget
  | test_single_opencv => test_single_opencv_main budget
  end.

(** ** Executions *)

(** One call together with what it handed back. *)
Inductive event : Type :=
| Ev (T : Type) (c : call T) (r : T).

Arguments Ev {T} c r.

Definition trace : Type := list event.

Inductive outcome (A : Type) : Type :=
| Done (a : A)
| Exited (status : Z)
| Running.

Arguments Done {A} a.
Arguments Exited {A} status.
Arguments Running {A}.

(** [path p tr o]: the environment can answer the calls of [p] so that [p]
    makes exactly the calls of [tr], with those answers, and ends in [o]. *)
Inductive path {A : Type} : prog A -> trace -> outcome A -> Prop :=
| path_Ret a : path (Ret a) [] (Done a)
| path_Exit n : path (Exit n) [] (Exited n)
| path_Spin : path Spin [] Running
| path_Vis T (c : call T) k r tr o :
    path (k r) tr o -> path (Vis c k) (Ev c r :: tr) o.

(** A run need not get as far as a [return]: the process may be killed
    inside a call that never comes back (as in [memset] over memory that
    [malloc] did not give, which the programs do not test for).  Such a run
    has no outcome; the calls it made and that came back are [tr], the
    beginning of a path. *)
Inductive cut {A : Type} : prog A -> trace -> Prop :=
| cut_here p : cut p []
| cut_Vis T (c : call T) k r tr :
    cut (k r) tr -> cut (Vis c k) (Ev c r :: tr).

(** An environment decides what each call hands back, from the calls made
    so far (oldest first) and their answers. *)
Definition env : Type := trace -> forall T, call T -> T.

Fixpoint run_from {A : Type} (e : env) (past : trace) (p : prog A)
    : trace * outcome A :=
  match p with
  | Ret a => ([], Done a)
  | Exit s => ([], Exited s)
  | Spin => ([], Running)
  | Vis c k =>
      let r := e past _ c in
      let '(tr, o) := run_from e (past ++ [Ev c r]) (k r) in
      (Ev c r :: tr, o)
  end.

Definition run {A : Type} (e : env) (p : prog A) : trace * outcome A :=
  run_from e [] p.

(** ** Monitors *)

(** A property of traces given as a machine that reads the trace event by
    event and may refuse one. *)
Section Monitor.
Context {St : Type} (step : St -> event -> option St).

Fixpoint feed (s : St) (tr : trace) : option St :=
  match tr with
  | [] => Some s
  | ev :: tr' =>
      match step s ev with
      | Some s' => feed s' tr'
      | None => None
      end
  end.

(** Every path of [p] is accepted from state [s], and [Q] holds of the
    state and outcome it ends in. *)
Fixpoint safe {A : Type} (p : prog A) (s : St) (Q : St -> outcome A -> Prop) : Prop :=
  match p with
  | Ret a => Q s (Done a)
  | Exit n => Q s (Exited n)
  | Spin => Q s Running
  | Vis c k =>
      forall r, match step s (Ev c r) with
                | Some s' => safe (k r) s' Q
                | None => False
                end
  end.

(** What a [bind] leaves to prove for its continuation. *)
Definition after {A B : Type} (f : A -> prog B) (Q : St -> outcome B -> Prop)
    (s : St) (o : outcome A) : Prop :=
  match o with
  | Done a => safe (f a) s Q
  | Exited n => Q s (Exited n)
  | Running => Q s Running
  end.

End Monitor.

(** ** Reading events *)

(** The device handle a call is given, if it takes one. *)
Definition handle_of_call {T : Type} (c : call T) : option qhyccd_handle :=
  match c with
  | CloseQHYCCD h
  | GetQHYCCDFWVersion h
  | SetQHYCCDReadMode h _
  | SetQHYCCDStreamMode h _
  | InitQHYCCD h
  | IsQHYCCDControlAvailable h _
  | SetQHYCCDBitsMode h _
  | GetQHYCCDChipInfo h
  | SetQHYCCDResolution h _ _ _ _
  | GetQHYCCDMemLength h
  | SetQHYCCDParam h _ _
  | GetQHYCCDParam h _
  | BeginQHYCCDLive h
  | StopQHYCCDLive h
  | GetQHYCCDLiveFrame h _
  | ExpQHYCCDSingleFrame h
  | GetQHYCCDSingleFrame h _ => Some h
  | _ => None
  end.

Definition handle_of (ev : event) : option qhyccd_handle :=
  match ev with Ev c _ => handle_of_call c end.

(** The place of an SDK call in the order initialise (0), scan (1),
    identify (2), open (3), configure (4), acquire (5), close (6),
    release (7).  [GetQHYCCDSDKVersion] and [EnableQHYCCDMessage] have no
    place in it; calls outside the SDK have none either. *)
Definition stage_of_call {T : Type} (c : call T) : option nat :=
  match c with
  | InitQHYCCDResource => Some 0%nat
  | ScanQHYCCD => Some 1%nat
  | GetQHYCCDId _ => Some 2%nat
  | OpenQHYCCD _ => Some 3%nat
  | GetQHYCCDFWVersion _
  | SetQHYCCDReadMode _ _
  | SetQHYCCDStreamMode _ _
  | InitQHYCCD _
  | IsQHYCCDControlAvailable _ _
  | SetQHYCCDBitsMode _ _
  | GetQHYCCDChipInfo _
  | SetQHYCCDResolution _ _ _ _ _
  | GetQHYCCDMemLength _
  | SetQHYCCDParam _ _ _
  | GetQHYCCDParam _ _ => Some 4%nat
  | BeginQHYCCDLive _
  | StopQHYCCDLive _
  | GetQHYCCDLiveFrame _ _
  | ExpQHYCCDSingleFrame _
  | GetQHYCCDSingleFrame _ _ => Some 5%nat
  | CloseQHYCCD _ => Some 6%nat
  | ReleaseQHYCCDResource => Some 7%nat
  | _ => None
  end.

Definition stage (ev : event) : option nat :=
  match ev with Ev c _ => stage_of_call c end.

Definition is_sdk_call {T : Type} (c : call T) : bool :=
  match c with
  | GetQHYCCDSDKVersion | EnableQHYCCDMessage _ => true
  | c' => match stage_of_call c' with Some _ => true | None => false end
  end.

Definition is_sdk (ev : event) : bool :=
  match ev with Ev c _ => is_sdk_call c end.

(** The stages of the staged calls of a trace, in trace order. *)
Fixpoint stages (tr : trace) : list nat :=
  match tr with
  | [] => []
  | ev :: tr' =>
      match stage ev with
      | Some n => n :: stages tr'
      | None => stages tr'
      end
  end.

Definition is_close (ev : event) : bool :=
  match ev with Ev (CloseQHYCCD _) _ => true | _ => false end.

Definition is_release (ev : event) : bool :=
  match ev with Ev ReleaseQHYCCDResource _ => true | _ => false end.

Definition is_malloc (ev : event) : bool :=
  match ev with Ev (malloc _) _ => true | _ => false end.

Definition is_printf (ev : event) : bool :=
  match ev with Ev (printf _ _) _ => true | _ => false end.

Definition is_exposure (ev : event) : bool :=
  match ev with Ev (ExpQHYCCDSingleFrame _) _ => true | _ => false end.

(** The handle [OpenQHYCCD] handed back. *)
Definition opened (ev : event) : option qhyccd_handle :=
  match ev with
  | Ev c r =>
      match c in call T return T -> option qhyccd_handle with
      | OpenQHYCCD _ => fun h => Some h
      | _ => fun _ => None
      end r
  end.

(** A frame fetch: the buffer it fills and its return code. *)
Definition fetched (ev : event) : option (pointer * Z) :=
  match ev with
  | Ev c r =>
      match c in call T return T -> option (pointer * Z) with
      | GetQHYCCDLiveFrame _ buf
      | GetQHYCCDSingleFrame _ buf => fun r => Some (buf, fst r)
      | _ => fun _ => None
      end r
  end.

Definition is_fetch (ev : event) : bool :=
  match fetched ev with Some _ => true | None => false end.

(** A read of frame memory: the address read. *)
Definition reads (ev : event) : option pointer :=
  match ev with
  | Ev (imshow _ img) _ => Some (data img)
  | _ => None
  end.

(** [GetQHYCCDMemLength]: the handle asked about and the length returned. *)
Definition mem_length (ev : event) : option (qhyccd_handle * Z) :=
  match ev with
  | Ev c r =>
      match c in call T return T -> option (qhyccd_handle * Z) with
      | GetQHYCCDMemLength h => fun n => Some (h, n)
      | _ => fun _ => None
      end r
  end.

Definition malloc_size (ev : event) : option Z :=
  match ev with
  | Ev (malloc n) _ => Some n
  | _ => None
  end.

(** The return code of an SDK call that returns one. *)
Definition retcode (ev : event) : option Z :=
  match ev with
  | Ev c r =>
      match c in call T return T -> option Z with
      | InitQHYCCDResource
      | ReleaseQHYCCDResource
      | CloseQHYCCD _
      | SetQHYCCDReadMode _ _
      | SetQHYCCDStreamMode _ _
      | InitQHYCCD _
      | IsQHYCCDControlAvailable _ _
      | SetQHYCCDBitsMode _ _
      | SetQHYCCDResolution _ _ _ _ _
      | SetQHYCCDParam _ _ _
      | BeginQHYCCDLive _
      | StopQHYCCDLive _
      | ExpQHYCCDSingleFrame _ => fun r => Some r
      | GetQHYCCDId _ => fun r => Some (fst r)
      | GetQHYCCDFWVersion _ => fun r => Some (fst r)
      | GetQHYCCDChipInfo _ => fun r => Some (fst r)
      | GetQHYCCDLiveFrame _ _ => fun r => Some (fst r)
      | GetQHYCCDSingleFrame _ _ => fun r => Some (fst r)
      | _ => fun _ => None
      end r
  end.

Definition count (f : event -> bool) (tr : trace) : nat :=
  List.length (filter f tr).

Definition closed_handle (ev : event) : option qhyccd_handle :=
  match ev with
  | Ev (CloseQHYCCD h) _ => Some h
  | _ => None
  end.

Definition is_open (ev : event) : bool :=
  match ev with Ev (OpenQHYCCD _) _ => true | _ => false end.

Definition is_stop (ev : event) : bool :=
  match ev with Ev (StopQHYCCDLive _) _ => true | _ => false end.

Definition is_getchar (ev : event) : bool :=
  match ev with Ev getchar _ => true | _ => false end.

Definition is_message_switch (ev : event) : bool :=
  match ev with Ev (EnableQHYCCDMessage _) _ => true | _ => false end.

Definition is_init_resource (ev : event) : bool :=
  match ev with Ev InitQHYCCDResource _ => true | _ => false end.

Definition asks_live_video (ev : event) : bool :=
  match ev with
  | Ev (IsQHYCCDControlAvailable _ CAM_LIVEVIDEOMODE) _ => true
  | _ => false
  end.

(** [GetQHYCCDId]: the index asked for, the return code and the id
    written. *)
Definition id_answer (ev : event) : option (Z * Z * string) :=
  match ev with
  | Ev c r =>
      match c in call T return T -> option (Z * Z * string) with
      | GetQHYCCDId i => fun r => Some (i, fst r, snd r)
      | _ => fun _ => None
      end r
  end.

Definition is_id_query (ev : event) : bool :=
  match id_answer ev with Some _ => true | None => false end.

(** The last event of a trace ([d] when there is none). *)
Fixpoint last_from (d : option event) (tr : trace) : option event :=
  match tr with
  | [] => d
  | ev :: tr' => last_from (Some ev) tr'
  end.

Definition last_event (tr : trace) : option event := last_from None tr.

(** ** The monitors of the properties *)

(** *** The handle is released at most once, and it is the opened one *)

(** State: the handle [OpenQHYCCD] handed back, and the number of
    [CloseQHYCCD] calls so far.  A [CloseQHYCCD] is refused when one was made
    before or when its handle is not the opened one. *)
Definition close_step (s : option qhyccd_handle * nat) (ev : event)
    : option (option qhyccd_handle * nat) :=
  match opened ev with
  | Some h => Some (Some h, snd s)
  | None =>
      match closed_handle ev with
      | Some h =>
          match s with
          | (Some h', O) => if h =? h' then Some (Some h', 1%nat) else None
          | _ => None
          end
      | None => Some s
      end
  end.

(** *** The order of the SDK calls *)

Record order_state : Type := {
  rank : nat;
  closed : bool;
  released : bool
}.

(** A staged call is refused when its stage is below the one reached; any
    SDK call is refused once [ReleaseQHYCCDResource] was called. *)
Definition order_step (s : order_state) (ev : event) : option order_state :=
  if (released s && is_sdk ev)%bool then None
  else
    match stage ev with
    | Some n =>
        if (rank s <=? n)%nat
        then Some {| rank := n;
                     closed := closed s || is_close ev;
                     released := is_release ev |}
        else None
    | None => Some s
    end.

Definition at_rank (n : nat) : order_state :=
  {| rank := n; closed := false; released := false |}.

Definition order_start : order_state := at_rank 0.

(** *** The frame buffer is allocated once, with the length the SDK gave *)

Record alloc_state : Type := {
  cam : option qhyccd_handle;   (* the handle OpenQHYCCD handed back *)
  last_len : option Z;          (* the previous event was GetQHYCCDMemLength
                                   on [cam], with this result *)
  mallocs : nat;
  short : bool                  (* a guarded length was not positive *)
}.

(** [guarded] says whether the program tests [length > 0].  A [malloc] is
    refused unless it is the first, directly follows [GetQHYCCDMemLength] on
    the opened handle and asks for the length returned as the program holds
    it: kept in an [int] (a positive one, in a guarded program) and passed
    on as a [size_t]. *)
Definition alloc_step (guarded : bool) (s : alloc_state) (ev : event)
    : option alloc_state :=
  match opened ev with
  | Some h =>
      Some {| cam := Some h; last_len := None;
              mallocs := mallocs s; short := short s |}
  | None =>
      match mem_length ev with
      | Some (h, n) =>
          match mallocs s with
          | O =>
              Some {| cam := cam s;
                      last_len := match cam s with
                                  | Some h' => if h =? h' then Some n else None
                                  | None => None
                                  end;
                      mallocs := O;
                      short := short s || (guarded && negb (int32 n >? 0)) |}
          | S _ => None
          end
      | None =>
          match malloc_size ev with
          | Some n =>
              match last_len s, mallocs s with
              | Some n', O =>
                  if ((n =? size_t (int32 n')) && negb (short s)
                      && (negb guarded || (int32 n' >? 0)))%bool
                  then Some {| cam := cam s; last_len := None;
                               mallocs := 1; short := short s |}
                  else None
              | _, _ => None
              end
          | None =>
              Some {| cam := cam s; last_len := None;
                      mallocs := mallocs s; short := short s |}
          end
      end
  end.

Definition alloc_start : alloc_state :=
  {| cam := None; last_len := None; mallocs := 0; short := false |}.

Definition is_base_test (d : demo) : bool :=
  match d with base_test => true | _ => false end.

(** *** The buffer is read only after a successful fetch into it *)

Section Checks.
Context {hdr : Header}.

(** State: the buffer the latest fetch filled, if that fetch returned
    [QHYCCD_SUCCESS].  A read of any other memory is refused. *)
Definition fresh_step (s : option pointer) (ev : event) : option (option pointer) :=
  match fetched ev with
  | Some (buf, ret) => Some (if ret =? QHYCCD_SUCCESS then Some buf else None)
  | None =>
      match reads ev with
      | Some p =>
          match s with
          | Some q => if p =? q then Some s else None
          | None => None
          end
      | None => Some s
      end
  end.

(** *** Checks whose failure ends the run *)

(** [IsQHYCCDControlAvailable(_, CONTROL_TRANSFERBIT)] answered
    [QHYCCD_SUCCESS]: what guards the first [SetQHYCCDBitsMode] of
    base_test. *)
Definition transferbit_available (ev : event) : bool :=
  match ev with
  | Ev c r =>
      match c in call T return T -> bool with
      | IsQHYCCDControlAvailable _ CONTROL_TRANSFERBIT =>
          fun ret => ret =? QHYCCD_SUCCESS
      | _ => fun _ => false
      end r
  end.

Definition after_transferbit (prev : option event) : bool :=
  match prev with
  | Some ev => transferbit_available ev
  | None => false
  end.

(** [failed_check d prev ev]: in program [d], [ev] (coming right after
    [prev]) is a call whose result the program tests, the test fails, and
    the failure branch leaves [main].  The three small demos test the
    camera count and [SetQHYCCDResolution]; base_test tests more.  The
    count and the length are tested as the [int] they are kept in. *)
Definition failed_check (d : demo) (prev : option event) (ev : event) : bool :=
  match ev with
  | Ev c r =>
      match c in call T return T -> bool with
      | ScanQHYCCD =>
          fun num =>
            if is_base_test d then negb (int32 num >? 0) else int32 num =? 0
      | SetQHYCCDResolution _ _ _ _ _ =>
          fun ret => negb (ret =? QHYCCD_SUCCESS)
      | InitQHYCCDResource =>
          fun ret => is_base_test d && negb (ret =? QHYCCD_SUCCESS)
      | OpenQHYCCD _ =>
          fun h => is_base_test d && (h =? NULL)
      | IsQHYCCDControlAvailable _ CAM_LIVEVIDEOMODE =>
          fun ret => is_base_test d && (QHYCCD_ERROR =? ret)
      | InitQHYCCD _ =>
          fun ret => is_base_test d && negb (ret =? QHYCCD_SUCCESS)
      | SetQHYCCDBitsMode _ _ =>
          fun ret => is_base_test d && after_transferbit prev
                     && negb (ret =? QHYCCD_SUCCESS)
      | GetQHYCCDChipInfo _ =>
          fun r => is_base_test d && negb (fst r =? QHYCCD_SUCCESS)
      | GetQHYCCDMemLength _ =>
          fun n => is_base_test d && negb (int32 n >? 0)
      | CloseQHYCCD _ =>
          fun ret => is_base_test d && negb (ret =? QHYCCD_SUCCESS)
      | ReleaseQHYCCDResource =>
          fun ret => is_base_test d && negb (ret =? QHYCCD_SUCCESS)
      | _ => fun _ => false
      end r
  end.

(** What may follow a failed check [a]: lines of output and the
    [getchar] that waits for a key; [ReleaseQHYCCDResource] when [a] is
    the question about live video; and [EnableQHYCCDMessage] when [a] is
    [InitQHYCCDResource], whose code base_test tests only after that
    call. *)
Definition winding_down (a ev : event) : bool :=
  is_printf ev || is_getchar ev
  || (is_release ev && asks_live_video a)
  || (is_message_switch ev && is_init_resource a).

Record abort_state : Type := {
  culprit : option event;     (* the latest check that failed *)
  told : bool;                (* a printf came after it *)
  prev_event : option event
}.

(** Once a check has failed, a call that is no part of the wind-down is
    refused. *)
Definition abort_step (d : demo) (s : abort_state) (ev : event)
    : option abort_state :=
  let failed := failed_check d (prev_event s) ev in
  match culprit s with
  | Some a =>
      if winding_down a ev
      then Some {| culprit := if failed then Some ev else Some a;
                   told := if failed then false else (told s || is_printf ev);
                   prev_event := Some ev |}
      else None
  | None =>
      Some {| culprit := if failed then Some ev else None;
              told := false;
              prev_event := Some ev |}
  end.

Definition abort_start : abort_state :=
  {| culprit := None; told := false; prev_event := None |}.

(** A [GetQHYCCDId] call that returned [QHYCCD_SUCCESS]. *)
Definition id_read (ev : event) : bool :=
  match id_answer ev with
  | Some (_, r, _) => r =? QHYCCD_SUCCESS
  | None => false
  end.

End Checks.

(** *** Why a run leaves with status 1 *)

Record cause_state : Type := {
  failed : bool;              (* some check so far has failed *)
  opened_yet : bool;          (* OpenQHYCCD was called *)
  id_seen : bool;             (* some GetQHYCCDId returned QHYCCD_SUCCESS *)
  tried : nat;                (* the number of GetQHYCCDId calls *)
  cameras : option Z;         (* what ScanQHYCCD handed back *)
  before : option event
}.

Definition scanned (ev : event) : option Z :=
  match ev with
  | Ev c r =>
      match c in call T return T -> option Z with
      | ScanQHYCCD => fun n => Some n
      | _ => fun _ => None
      end r
  end.

Definition cause_step {hdr : Header} (d : demo) (s : cause_state) (ev : event)
    : option cause_state :=
  Some {| failed := failed s || failed_check d (before s) ev;
          opened_yet := opened_yet s || is_open ev;
          id_seen := id_seen s || id_read ev;
          tried := (if is_id_query ev then 1 else 0) + tried s;
          cameras := match scanned ev with
                     | Some n => Some n
                     | None => cameras s
                     end;
          before := Some ev |}.

Definition cause_start : cause_state :=
  {| failed := false; opened_yet := false; id_seen := false;
     tried := 0; cameras := None; before := None |}.

(** *** The live loop goes on *)

Definition is_teardown (ev : event) : bool :=
  is_stop ev || is_close ev || is_release ev.

(** State: the number of frame fetches so far.  [StopQHYCCDLive],
    [CloseQHYCCD] and [ReleaseQHYCCDResource] are refused. *)
Definition live_step (n : nat) (ev : event) : option nat :=
  if is_teardown ev then None
  else Some (if is_fetch ev then S n else n).

(** *** A failed frame fetch goes round the loop *)

Section Retry.
Context {hdr : Header}.

Definition is_waitKey_10 (ev : event) : bool :=
  match ev with
  | Ev (waitKey n) _ => n =? 10
  | _ => false
  end.

(** State: whether the previous event was a frame fetch that did not
    return [QHYCCD_SUCCESS].  After one, anything but [waitKey(10)] is
    refused. *)
Definition retry_step (failed : bool) (ev : event) : option bool :=
  if failed
  then (if is_waitKey_10 ev then Some false else None)
  else
    match fetched ev with
    | Some (_, ret) => Some (negb (ret =? QHYCCD_SUCCESS))
    | None => Some false
    end.

End Retry.

(** *** Failures that do not end a run *)

Section Soft.
Context {hdr : Header}.

(** The line the single-frame demo asks for a key with. *)
Definition is_prompt (ev : event) : bool :=
  match ev with
  | Ev (cout [VStr s]) _ => String.eqb s " 'q' = quit      any = continue "
  | _ => false
  end.

Definition is_no_camera_line (ev : event) : bool :=
  match ev with
  | Ev (printf fmt []) _ =>
      String.eqb fmt "The camera is not QHYCCD or other error \n"
  | _ => false
  end.

Definition is_bits_line (ev : event) : bool :=
  match ev with
  | Ev (printf fmt []) _ => String.eqb fmt "bit = 8.2\n"
  | _ => false
  end.

Definition asks_id (i : Z) (ev : event) : bool :=
  match id_answer ev with
  | Some (j, _, _) => j =? i
  | None => false
  end.

Definition sets_bits (h : qhyccd_handle) (ev : event) : bool :=
  match ev with
  | Ev (SetQHYCCDBitsMode h' bits) _ => (h' =? h) && (bits =? 8)
  | _ => false
  end.

(** Where a run stands after one of these failures. *)
Inductive soft_phase : Type :=
| Calm
| FetchFailed                     (* a frame fetch has just failed *)
| Waited                          (* ... and [waitKey(10)] followed *)
| IdFailed (i : Z)                (* base_test: [GetQHYCCDId(i)] has just failed *)
| BitSkipped (h : qhyccd_handle)  (* base_test: [CONTROL_TRANSFERBIT] was just
                                     found unavailable on [h] *)
| BitSet.                         (* ... and [SetQHYCCDBitsMode] followed *)

Record soft_state : Type := {
  soft : soft_phase;
  lost_frame : bool               (* some frame fetch has failed *)
}.

Definition soft_start : soft_state := {| soft := Calm; lost_frame := false |}.

(** The call [ev] when it is one of the three: a frame fetch that did not
    return [QHYCCD_SUCCESS]; in base_test a [GetQHYCCDId] that did not; in
    base_test the question about [CONTROL_TRANSFERBIT] answered with
    anything but [QHYCCD_SUCCESS]. *)
Definition soft_failure (d : demo) (ev : event) : option soft_phase :=
  match ev with
  | Ev c r =>
      match c in call T return T -> option soft_phase with
      | GetQHYCCDLiveFrame _ _ =>
          fun r => if fst r =? QHYCCD_SUCCESS then None else Some FetchFailed
      | GetQHYCCDSingleFrame _ _ =>
          fun r => if fst r =? QHYCCD_SUCCESS then None else Some FetchFailed
      | GetQHYCCDId i =>
          fun r => if is_base_test d && negb (fst r =? QHYCCD_SUCCESS)
                   then Some (IdFailed i) else None
      | IsQHYCCDControlAvailable h CONTROL_TRANSFERBIT =>
          fun r => if is_base_test d && negb (r =? QHYCCD_SUCCESS)
                   then Some (BitSkipped h) else None
      | _ => fun _ => None
      end r
  end.

(** What has to come next. *)
Definition expected (p : soft_phase) (ev : event) : bool :=
  match p with
  | Calm => true
  | FetchFailed => is_waitKey_10 ev
  | Waited => is_fetch ev || is_prompt ev
  | IdFailed i => asks_id (i + 1) ev || is_no_camera_line ev
  | BitSkipped h => sets_bits h ev
  | BitSet => is_bits_line ev
  end.

Definition soft_step (d : demo) (s : soft_state) (ev : event)
    : option soft_state :=
  if expected (soft s) ev
  then Some {| soft := match soft_failure d ev with
                       | Some p => p
                       | None =>
                           match soft s with
                           | FetchFailed => Waited
                           | BitSkipped _ => BitSet
                           | _ => Calm
                           end
                       end;
               lost_frame := lost_frame s
                             || match soft_failure d ev with
                                | Some FetchFailed => true
                                | _ => false
                                end |}
  else None.

End Soft.

(** *** No use of the handle after its release *)

(** State: whether [CloseQHYCCD] was called.  After it, a call that takes a
    handle is refused. *)
Definition use_step (closed : bool) (ev : event) : option bool :=
  match handle_of ev with
  | Some _ => if closed then None else Some (is_close ev)
  | None => Some closed
  end.

(** *** Collecting the trace *)

Definition collect_step (s : trace) (ev : event) : option trace :=
  Some (s ++ [ev]).

(** ** Concrete environments *)

(** An SDK on which every call succeeds, with one camera attached; the user
    types [q]. *)
Definition answers {T : Type} (c : call T) : T :=
  match c in call T return T with
  | GetQHYCCDSDKVersion => (24, 12, 26, 0)
  | InitQHYCCDResource => 0
  | ReleaseQHYCCDResource => 0
  | EnableQHYCCDMessage _ => tt
  | ScanQHYCCD => 1
  | GetQHYCCDId _ => (0, "QHY5III178M-c8f1")
  | OpenQHYCCD _ => 4096
  | CloseQHYCCD _ => 0
  | GetQHYCCDFWVersion _ => (0, [x91; x0c])
  | SetQHYCCDReadMode _ _ => 0
  | SetQHYCCDStreamMode _ _ => 0
  | InitQHYCCD _ => 0
  | IsQHYCCDControlAvailable _ _ => 0
  | SetQHYCCDBitsMode _ _ => 0
  | GetQHYCCDChipInfo _ =>
      (0, {| chipw := 7 # 1; chiph := 5 # 1; imagew := 3072; imageh := 2048;
             pixelw := 24 # 10; pixelh := 24 # 10; chip_bpp := 8 |})
  | SetQHYCCDResolution _ _ _ _ _ => 0
  | GetQHYCCDMemLength _ => 6291456
  | SetQHYCCDParam _ _ _ => 0
  | GetQHYCCDParam _ _ => 10 # 1
  | BeginQHYCCDLive _ => 0
  | StopQHYCCDLive _ => 0
  | GetQHYCCDLiveFrame _ _ =>
      (0, {| frame_w := 3072; frame_h := 2048; frame_bpp := 8; frame_channels := 1 |})
  | ExpQHYCCDSingleFrame _ => 0
  | GetQHYCCDSingleFrame _ _ =>
      (0, {| frame_w := 3072; frame_h := 2048; frame_bpp := 8; frame_channels := 1 |})
  | printf _ _ => tt
  | fprintf_stderr _ _ => tt
  | cout _ => tt
  | cin_char => "q"%char
  | getchar => tt
  | malloc _ => 65536
  | memset _ _ _ => tt
  | time_NULL => 1700000000
  | usleep _ => tt
  | sleep_for_milliseconds _ => tt
  | namedWindow _ _ => tt
  | imshow _ _ => tt
  | waitKey _ => tt
  end.

Definition sdk_ok : env := fun _ T c => answers c.

(** As [sdk_ok], but [SetQHYCCDResolution] fails. *)
Definition sdk_resolution_fails : env :=
  fun _ T c =>
    match c in call T return T -> T with
    | SetQHYCCDResolution _ _ _ _ _ => fun _ => 0xFFFFFFFF
    | _ => fun r => r
    end (answers c).

(** As [sdk_ok], but no camera is attached. *)
Definition sdk_no_camera : env :=
  fun _ T c =>
    match c in call T return T -> T with
    | ScanQHYCCD => fun _ => 0
    | _ => fun r => r
    end (answers c).

(** As [sdk_ok], but [InitQHYCCD] fails. *)
Definition sdk_init_fails : env :=
  fun _ T c =>
    match c in call T return T -> T with
    | InitQHYCCD _ => fun _ => 0xFFFFFFFF
    | _ => fun r => r
    end (answers c).

(** As [sdk_ok], but [GetQHYCCDMemLength] returns 0. *)
Definition sdk_no_length : env :=
  fun _ T c =>
    match c in call T return T -> T with
    | GetQHYCCDMemLength _ => fun _ => 0
    | _ => fun r => r
    end (answers c).

Definition is_cin (ev : event) : bool :=
  match ev with Ev cin_char _ => true | _ => false end.

(** As [sdk_ok], but the first frame fetch fails, and the user types [a],
    [a], then [q]. *)
Definition sdk_first_fetch_fails : env :=
  fun past T c =>
    match c in call T return T -> T with
    | GetQHYCCDLiveFrame _ _
    | GetQHYCCDSingleFrame _ _ =>
        fun r => if (count is_fetch past =? 0)%nat then (0xFFFFFFFF, snd r) else r
    | cin_char =>
        fun r => if (count is_cin past <? 2)%nat then "a"%char else r
    | _ => fun r => r
    end (answers c).

(** As [sdk_ok], but the camera does not support live video. *)
Definition sdk_no_live : env :=
  fun _ T c =>
    match c in call T return T -> T with
    | IsQHYCCDControlAvailable _ CAM_LIVEVIDEOMODE => fun _ => 0xFFFFFFFF
    | _ => fun r => r
    end (answers c).

(** The runs used as examples below. *)
Definition run_of (e : env) (d : demo) (budget : nat) : trace * outcome Empty_set :=
  run e (main_of (hdr := qhyccd_h) d budget).

(** ** Further readers and monitors *)

(** The formats of [SDKVersion] that put a [0] before the month, and before
    the day. *)
Definition pads_month (fmt : string) : bool :=
  String.eqb fmt "V20%d0%d0%d_%d\n" || String.eqb fmt "V20%d0%d%d_%d\n".

Definition pads_day (fmt : string) : bool :=
  String.eqb fmt "V20%d0%d0%d_%d\n" || String.eqb fmt "V20%d%d0%d_%d\n".

(** The calls [GetQHYCCDId(i)], [GetQHYCCDId(i+1)], ... that failed, one per
    answer in [answers_]. *)
Fixpoint failed_tries (i : Z) (answers_ : list (Z * string)) : trace :=
  match answers_ with
  | [] => []
  | a :: rest => Ev (GetQHYCCDId i) a :: failed_tries (i + 1) rest
  end.

(** *** Where a value comes from *)

(** Some calls hand back a value ([produces]); some later calls are given
    one ([needs]).  The monitor remembers the latest value produced and
    refuses a call that needs one when none was produced yet, or when the
    call does not fit the latest one ([accepts]). *)
Section Provenance.
Context {V : Type} (produces : event -> option V)
  (needs : event -> bool) (accepts : V -> event -> bool).

Definition prov_step (s : option V) (ev : event) : option (option V) :=
  match produces ev with
  | Some v => Some (Some v)
  | None =>
      if needs ev
      then match s with
           | Some v => if accepts v ev then Some s else None
           | None => None
           end
      else Some s
  end.

End Provenance.

(** *** Calls that must not appear *)

Definition never_step (bad : event -> bool) (s : unit) (ev : event) : option unit :=
  if bad ev then None else Some s.

(** *** The handle given to the SDK *)

Definition takes_handle (ev : event) : bool :=
  match handle_of ev with Some _ => true | None => false end.

(** The call is given the handle [h]; in base_test, [h] was also tested
    against [NULL]. *)
Definition same_handle (d : demo) (h : qhyccd_handle) (ev : event) : bool :=
  match handle_of ev with
  | Some h' => (h' =? h) && (negb (is_base_test d) || negb (h =? NULL))
  | None => true
  end.

(** *** The region set with [SetQHYCCDResolution] *)

(** [GetQHYCCDChipInfo]: the handle asked about, the return code and the
    figures written. *)
Definition chip_answer (ev : event) : option (qhyccd_handle * Z * chip_info) :=
  match ev with
  | Ev c r =>
      match c in call T return T -> option (qhyccd_handle * Z * chip_info) with
      | GetQHYCCDChipInfo h => fun r => Some (h, fst r, snd r)
      | _ => fun _ => None
      end r
  end.

Definition resolution_call (ev : event) : option (qhyccd_handle * Z * Z * Z * Z) :=
  match ev with
  | Ev (SetQHYCCDResolution h x y xsize ysize) _ => Some (h, x, y, xsize, ysize)
  | _ => None
  end.

Definition sets_resolution (ev : event) : bool :=
  match resolution_call ev with Some _ => true | None => false end.

(** The region is the whole chip as [GetQHYCCDChipInfo] described it; in
    base_test that call was also tested for success. *)
Definition full_chip {hdr : Header} (d : demo) (v : qhyccd_handle * Z * chip_info)
    (ev : event) : bool :=
  match resolution_call ev with
  | Some (h, x, y, xsize, ysize) =>
      let '(h0, rc, ci) := v in
      (h =? h0) && (x =? 0) && (y =? 0)
      && (xsize =? imagew ci) && (ysize =? imageh ci)
      && (negb (is_base_test d) || (rc =? QHYCCD_SUCCESS))
  | None => true
  end.

(** *** The frame buffer *)

(** [malloc]: the address handed back and the size asked for. *)
Definition allocated (ev : event) : option (pointer * Z) :=
  match ev with
  | Ev c r =>
      match c in call T return T -> option (pointer * Z) with
      | malloc n => fun p => Some (p, n)
      | _ => fun _ => None
      end r
  end.

(** The memory a call is pointed at. *)
Definition buffer_of (ev : event) : option pointer :=
  match ev with
  | Ev (memset p _ _) _ => Some p
  | Ev (GetQHYCCDLiveFrame _ buf) _ => Some buf
  | Ev (GetQHYCCDSingleFrame _ buf) _ => Some buf
  | Ev (imshow _ img) _ => Some (data img)
  | _ => None
  end.

Definition takes_buffer (ev : event) : bool :=
  match buffer_of ev with Some _ => true | None => false end.

(** [memset]: the byte written and how many of them. *)
Definition cleared (ev : event) : option (Z * Z) :=
  match ev with
  | Ev (memset _ c n) _ => Some (c, n)
  | _ => None
  end.

Definition in_buffer (v : pointer * Z) (ev : event) : bool :=
  match buffer_of ev with
  | Some p =>
      (p =? fst v)
      && match cleared ev with
         | Some (c, n) => (c =? 0) && (n =? snd v)
         | None => true
         end
  | None => true
  end.

(** *** What comes before a frame is acquired *)

Definition stream_mode (ev : event) : option (qhyccd_handle * Z) :=
  match ev with
  | Ev (SetQHYCCDStreamMode h m) _ => Some (h, m)
  | _ => None
  end.

Definition live_call (ev : event) : option qhyccd_handle :=
  match ev with
  | Ev (BeginQHYCCDLive h) _ => Some h
  | Ev (GetQHYCCDLiveFrame h _) _ => Some h
  | _ => None
  end.

Definition single_call (ev : event) : option qhyccd_handle :=
  match ev with
  | Ev (ExpQHYCCDSingleFrame h) _ => Some h
  | Ev (GetQHYCCDSingleFrame h _) _ => Some h
  | _ => None
  end.

Definition acquires (ev : event) : bool :=
  match live_call ev, single_call ev with
  | None, None => false
  | _, _ => true
  end.

(** A live call wants [LIVE_MODE] on its handle, a single-frame call
    [SINGLE_MODE]. *)
Definition in_mode {hdr : Header} (v : qhyccd_handle * Z) (ev : event) : bool :=
  match live_call ev, single_call ev with
  | Some h, _ => (h =? fst v) && (snd v =? LIVE_MODE)
  | None, Some h => (h =? fst v) && (snd v =? SINGLE_MODE)
  | None, None => true
  end.

Definition exposure_set (ev : event) : option (qhyccd_handle * double) :=
  match ev with
  | Ev (SetQHYCCDParam h CONTROL_EXPOSURE v) _ => Some (h, v)
  | _ => None
  end.

Definition begun (ev : event) : option qhyccd_handle :=
  match ev with
  | Ev (BeginQHYCCDLive h) _ => Some h
  | _ => None
  end.

Definition live_fetch (ev : event) : option qhyccd_handle :=
  match ev with
  | Ev (GetQHYCCDLiveFrame h _) _ => Some h
  | _ => None
  end.

Definition is_live_fetch (ev : event) : bool :=
  match live_fetch ev with Some _ => true | None => false end.

Definition on_handle (f : event -> option qhyccd_handle) (h : qhyccd_handle)
    (ev : event) : bool :=
  match f ev with
  | Some h' => h' =? h
  | None => true
  end.

(** The same fraction, written the same way. *)
Definition Qsame (a b : double) : bool :=
  (Qnum a =? Qnum b) && Pos.eqb (Qden a) (Qden b).

(** The exposure time (in microseconds) was set on the handle the fetch is
    on, to the value the two OpenCV demos use. *)
Definition exposed (v : qhyccd_handle * double) (ev : event) : bool :=
  match handle_of ev with
  | Some h => (h =? fst v) && Qsame (snd v) (100000 # 1)
  | None => true
  end.

(** *** The id given to [OpenQHYCCD] *)

(** The line that names the camera about to be opened. *)
Definition names_id (ev : event) : option string :=
  match ev with
  | Ev (printf fmt [VStr id]) _ =>
      if String.eqb fmt "connected to the first camera from the list,id is %s\n"
      then Some id else None
  | _ => None
  end.

Definition open_id (ev : event) : option string :=
  match ev with
  | Ev (OpenQHYCCD id) _ => Some id
  | _ => None
  end.

(** What the last one or two calls were: a [GetQHYCCDId] that answered
    [(r, id)], or that call followed by the line naming [id]. *)
Inductive id_phase : Type :=
| NoId
| Got (r : Z) (id : string)
| Named (r : Z) (id : string).

Record id_state : Type := {
  asked : Z;          (* how many [GetQHYCCDId] calls were made *)
  clean : bool;       (* none of them returned [QHYCCD_SUCCESS] *)
  phase : id_phase
}.

Definition id_start : id_state := {| asked := 0; clean := true; phase := NoId |}.

(** [GetQHYCCDId] is asked for the indexes 0, 1, 2, ... in turn, in
    base_test only while no call succeeded and in the other programs once;
    [OpenQHYCCD] is given the id of the call made just before the line that
    names it, which in base_test has succeeded. *)
Definition id_step {hdr : Header} (d : demo) (s : id_state) (ev : event)
    : option id_state :=
  match id_answer ev with
  | Some (i, r, id) =>
      if (i =? asked s) && (if is_base_test d then clean s else asked s =? 0)
      then Some {| asked := asked s + 1;
                   clean := clean s && negb (r =? QHYCCD_SUCCESS);
                   phase := Got r id |}
      else None
  | None =>
      match open_id ev with
      | Some id =>
          match phase s with
          | Named r id' =>
              if String.eqb id id'
                 && (negb (is_base_test d) || (r =? QHYCCD_SUCCESS))
              then Some {| asked := asked s; clean := clean s; phase := NoId |}
              else None
          | _ => None
          end
      | None =>
          match names_id ev, phase s with
          | Some id, Got r id' =>
              Some {| asked := asked s; clean := clean s;
                      phase := if String.eqb id id' then Named r id' else NoId |}
          | _, _ => Some {| asked := asked s; clean := clean s; phase := NoId |}
          end
      end
  end.

(** *** What a program leaves alone *)

Definition is_some {A : Type} (x : option A) : bool :=
  match x with Some _ => true | None => false end.

Definition is_begin (ev : event) : bool := is_some (begun ev).

(** The calls a program has no business with.  base_test and test_base
    start no live stream, expose and fetch no frame and show no image;
    base_test does call [StopQHYCCDLive] (line 555), test_base does not.
    The live demo makes no single-frame call and reads no key; the
    single-frame demo starts, fetches from and stops no live stream. *)
Definition foreign (d : demo) (ev : event) : bool :=
  match d with
  | base_test =>
      is_some (live_call ev) || is_some (single_call ev) || is_some (reads ev)
  | test_base =>
      is_some (live_call ev) || is_some (single_call ev) || is_some (reads ev)
      || is_stop ev
  | test_live_opencv => is_some (single_call ev) || is_cin ev
  | test_single_opencv => is_some (live_call ev) || is_stop ev
  end.

(** *** The setup calls, their order and their number *)

(** The calls that set a run up and wind it down, numbered in the order the
    programs make them. *)
Definition setup_call (ev : event) : option nat :=
  match ev with
  | Ev GetQHYCCDSDKVersion _ => Some 0%nat
  | Ev InitQHYCCDResource _ => Some 1%nat
  | Ev ScanQHYCCD _ => Some 2%nat
  | Ev (OpenQHYCCD _) _ => Some 3%nat
  | Ev (SetQHYCCDReadMode _ _) _ => Some 4%nat
  | Ev (SetQHYCCDStreamMode _ _) _ => Some 5%nat
  | Ev (InitQHYCCD _) _ => Some 6%nat
  | Ev (GetQHYCCDChipInfo _) _ => Some 7%nat
  | Ev (SetQHYCCDResolution _ _ _ _ _) _ => Some 8%nat
  | Ev (GetQHYCCDMemLength _) _ => Some 9%nat
  | Ev (malloc _) _ => Some 10%nat
  | Ev (SetQHYCCDParam _ CONTROL_EXPOSURE _) _ => Some 11%nat
  | Ev (BeginQHYCCDLive _) _ => Some 12%nat
  | Ev (namedWindow _ _) _ => Some 13%nat
  | Ev (StopQHYCCDLive _) _ => Some 14%nat
  | Ev (CloseQHYCCD _) _ => Some 15%nat
  | Ev ReleaseQHYCCDResource _ => Some 16%nat
  | _ => None
  end.

Definition is_setup (k : nat) (ev : event) : bool :=
  match setup_call ev with
  | Some k' => Nat.eqb k k'
  | None => false
  end.

(** The numbers of the setup calls of a trace, in the order made. *)
Fixpoint setups (tr : trace) : list nat :=
  match tr with
  | [] => []
  | ev :: tr' =>
      match setup_call ev with
      | Some k => k :: setups tr'
      | None => setups tr'
      end
  end.

(** State: the number of the latest setup call.  A setup call whose number
    is not above it is refused. *)
Definition setup_step (last : option nat) (ev : event) : option (option nat) :=
  match setup_call ev with
  | Some k =>
      match last with
      | Some j => if Nat.ltb j k then Some (Some k) else None
      | None => Some (Some k)
      end
  | None => Some last
  end.

(** *** Frames and their display *)

(** A frame fetch: the buffer given, the return code and the geometry
    written. *)
Definition frame_of (ev : event) : option (pointer * Z * frame_info) :=
  match ev with
  | Ev c r =>
      match c in call T return T -> option (pointer * Z * frame_info) with
      | GetQHYCCDLiveFrame _ buf => fun r => Some (buf, fst r, snd r)
      | GetQHYCCDSingleFrame _ buf => fun r => Some (buf, fst r, snd r)
      | _ => fun _ => None
      end r
  end.

Definition shown (ev : event) : option (string * Mat) :=
  match ev with
  | Ev (imshow name img) _ => Some (name, img)
  | _ => None
  end.

Definition is_shown (ev : event) : bool := is_some (shown ev).

(** The image shown lies over the buffer of a fetch that succeeded, with the
    rows and columns that fetch wrote as height and width. *)
Definition shows_frame {hdr : Header} (v : pointer * Z * frame_info) (ev : event)
    : bool :=
  match shown ev with
  | Some (_, img) =>
      let '(buf, ret, fi) := v in
      (ret =? QHYCCD_SUCCESS) && (rows img =? frame_h fi)
      && (cols img =? frame_w fi) && (data img =? buf)
  | None => true
  end.

Definition window_made (ev : event) : option string :=
  match ev with
  | Ev (namedWindow name _) _ => Some name
  | _ => None
  end.

Definition in_window (name : string) (ev : event) : bool :=
  match shown ev with
  | Some (n, _) => String.eqb n name
  | None => true
  end.

(** A fetch that returned [QHYCCD_SUCCESS]. *)
Definition good_frame {hdr : Header} (ev : event) : bool :=
  match frame_of ev with
  | Some (_, ret, _) => ret =? QHYCCD_SUCCESS
  | None => false
  end.

(** State: whether a frame was fetched and not shown yet.  A second good
    fetch before the first is shown is refused, and so is a display with no
    frame waiting. *)
Definition balance_step {hdr : Header} (pending : bool) (ev : event) : option bool :=
  if good_frame ev then (if pending then None else Some true)
  else if is_shown ev then (if pending then Some false else None)
  else Some pending.

(** The number printed by the line [iCnt = %d]. *)
Definition iCnt_of (ev : event) : option Z :=
  match ev with
  | Ev (printf fmt [VInt n]) _ =>
      if String.eqb fmt "iCnt = %d\n" then Some n else None
  | _ => None
  end.

Fixpoint iCnts (tr : trace) : list Z :=
  match tr with
  | [] => []
  | ev :: tr' =>
      match iCnt_of ev with
      | Some n => n :: iCnts tr'
      | None => iCnts tr'
      end
  end.

(** State: the number the next [iCnt] line has to carry. *)
Definition cnt_step (next : Z) (ev : event) : option Z :=
  match iCnt_of ev with
  | Some n => if n =? next then Some (int32 (next + 1)) else None
  | None => Some next
  end.

(** *** Keys, exposures and fetches of the single-frame demo *)

Definition is_quit (c : ascii) : bool := Ascii.eqb c "q" || Ascii.eqb c "Q".

Definition quit_key (ev : event) : bool :=
  match ev with
  | Ev c r =>
      match c in call T return T -> bool with
      | cin_char => fun a => is_quit a
      | _ => fun _ => false
      end r
  end.

Definition other_key (ev : event) : bool := is_cin ev && negb (quit_key ev).

(** State: how many other keys, exposures, fetches and quit keys there
    were. *)
Definition tally_step (s : nat * nat * nat * nat) (ev : event)
    : option (nat * nat * nat * nat) :=
  let '(k, e, f, q) := s in
  Some ((Nat.b2n (other_key ev) + k)%nat, (Nat.b2n (is_exposure ev) + e)%nat,
        (Nat.b2n (is_fetch ev) + f)%nat, (Nat.b2n (quit_key ev) + q)%nat).

(** *** What the log says *)

Inductive verdict : Type := Success | Failure | Either.

(** The lines that speak of the result of a call: the call (numbered as in
    [setup_call]) and what the line says of it. *)
Definition line_about (fmt : string) : option (nat * verdict) :=
  if String.eqb fmt "Init SDK success    ------!\n" then Some (1%nat, Success)
  else if String.eqb fmt "Found %d cameras  \n" then Some (2%nat, Either)
  else if String.eqb fmt "Yes!Found QHYCCD,the num is %d \n" then Some (2%nat, Success)
  else if String.eqb fmt "Not Found QHYCCD,please check the usblink or the power\n"
  then Some (2%nat, Failure)
  else if String.eqb fmt "No camera found\n" then Some (2%nat, Failure)
  else if String.eqb fmt "Open QHYCCD success!\n" then Some (3%nat, Success)
  else if String.eqb fmt "Open QHYCCD failed \n" then Some (3%nat, Failure)
  else if String.eqb fmt "Init QHYCCD success -------------!\n" then Some (6%nat, Success)
  else if String.eqb fmt "Init QHYCCD fail code:%d\n" then Some (6%nat, Failure)
  else if String.eqb fmt "GetQHYCCDChipInfo success!\n" then Some (7%nat, Success)
  else if String.eqb fmt "GetQHYCCDChipInfo fail\n" then Some (7%nat, Failure)
  else if String.eqb fmt "SetQHYCCDResolution success!\n" then Some (8%nat, Success)
  else if String.eqb fmt "SetQHYCCDResolution fail\n" then Some (8%nat, Failure)
  else if String.eqb fmt "Get the min memory space length failure \n"
  then Some (9%nat, Failure)
  else if String.eqb fmt "Close QHYCCD success!\n" then Some (15%nat, Success)
  else if String.eqb fmt "Rlease SDK Resource  success!\n" then Some (16%nat, Success)
  else if String.eqb fmt "SDK resources released.\n" then Some (16%nat, Success)
  else if String.eqb fmt "Cannot release SDK resources, error %d.\n"
  then Some (16%nat, Failure)
  else None.

Definition log_line (ev : event) : option (nat * verdict * list value) :=
  match ev with
  | Ev (printf fmt args) _ =>
      match line_about fmt with
      | Some (k, v) => Some (k, v, args)
      | None => None
      end
  | _ => None
  end.

Definition is_log_line (ev : event) : bool := is_some (log_line ev).

(** What a call hands back for the program to test: a return code, the
    number of cameras, the handle, the length. *)
Definition result_of (ev : event) : option Z :=
  match retcode ev with
  | Some r => Some r
  | None =>
      match ev with
      | Ev c r =>
          match c in call T return T -> option Z with
          | ScanQHYCCD => fun n => Some n
          | OpenQHYCCD _ => fun h => Some h
          | GetQHYCCDMemLength _ => fun n => Some n
          | _ => fun _ => None
          end r
      end
  end.

Definition answered (ev : event) : option (option nat * Z) :=
  match result_of ev with
  | Some r => Some (setup_call ev, r)
  | None => None
  end.

(** Whether the result [r] of call number [k] is a good one: a count or
    length that is positive in the [int] the program keeps it in, a handle
    that is not [NULL], the code [QHYCCD_SUCCESS]. *)
Definition went_well {hdr : Header} (k : nat) (r : Z) : bool :=
  match k with
  | 2%nat | 9%nat => int32 r >? 0
  | 3%nat => negb (r =? NULL)
  | _ => r =? QHYCCD_SUCCESS
  end.

Definition agrees (v : verdict) (b : bool) : bool :=
  match v with
  | Success => b
  | Failure => negb b
  | Either => true
  end.

(** The line speaks of the call that answered last, says what its result
    was, and a number it carries is that result as an [int]. *)
Definition truthful {hdr : Header} (a : option nat * Z) (ev : event) : bool :=
  match log_line ev with
  | Some (k, v, args) =>
      match fst a with
      | Some k' => Nat.eqb k k'
      | None => false
      end
      && agrees v (went_well k (snd a))
      && match args with
         | [VInt n] => n =? int32 (snd a)
         | _ => true
         end
  | None => true
  end.

(** *** The frame rate line *)

(** The number printed by the frame rate line. *)
Definition fps_line (ev : event) : option Z :=
  match ev with
  | Ev (fprintf_stderr fmt [VInt n]) _ =>
      if String.eqb fmt "|QHYCCD|LIVE_DEMO|fps = %d\n" then Some n else None
  | _ => None
  end.

(** How many images were shown since the last frame rate line (as a 32-bit
    [int]), starting from [acc]. *)
Fixpoint shown_since (acc : Z) (tr : trace) : Z :=
  match tr with
  | [] => acc
  | ev :: tr' =>
      match fps_line ev with
      | Some _ => shown_since 0 tr'
      | None =>
          if is_shown ev then shown_since (int32 (acc + 1)) tr'
          else shown_since acc tr'
      end
  end.

(** State: the images shown since the last frame rate line.  A line that
    does not carry a fifth of that number is refused. *)
Definition fps_step (s : Z) (ev : event) : option Z :=
  match fps_line ev with
  | Some n => if n =? Z.quot s 5 then Some 0 else None
  | None => if is_shown ev then Some (int32 (s + 1)) else Some s
  end.

(** *** A further environment *)

(** As [sdk_ok], but two cameras are attached and the id of the first cannot
    be read. *)
Definition sdk_second_camera : env :=
  fun _ T c =>
    match c in call T return T -> T with
    | ScanQHYCCD => fun _ => 2
    | GetQHYCCDId i => fun r => if i =? 0 then (0xFFFFFFFF, "") else r
    | _ => fun r => r
    end (answers c).

Definition is_clock (ev : event) : bool :=
  match ev with Ev time_NULL _ => true | _ => false end.

(** As [sdk_ok], but the clock is five seconds further on each time it is
    read. *)
Definition sdk_slow_frames : env :=
  fun past T c =>
    match c in call T return T -> T with
    | time_NULL => fun r => r + 5 * Z.of_nat (count is_clock past)
    | _ => fun r => r
    end (answers c).

(** As [sdk_ok], but [GetQHYCCDMemLength] hands back [0xFFFFFFFF], which is
    -1 in the [int] the programs keep it in. *)
Definition sdk_huge_length : env :=
  fun _ T c =>
    match c in call T return T -> T with
    | GetQHYCCDMemLength _ => fun _ => 0xFFFFFFFF
    | _ => fun r => r
    end (answers c).

(** As [sdk_ok], but [ScanQHYCCD] hands back [0xFFFFFFFF]. *)
Definition sdk_huge_count : env :=
  fun _ T c =>
    match c in call T return T -> T with
    | ScanQHYCCD => fun _ => 0xFFFFFFFF
    | _ => fun r => r
    end (answers c).

(** * Proofs *)

(** ** Paths and runs *)

Lemma run_from_path {A : Type} (e : env) (p : prog A) :
  forall past, path p (fst (run_from e past p)) (snd (run_from e past p)).
Proof.
  induction p as [a | s | | T c k IH]; intros past; simpl; try constructor.
  destruct (run_from e (past ++ [Ev c (e past T c)]) (k (e past T c)))
    as [tr o] eqn:E.
  simpl. constructor.
  specialize (IH (e past T c) (past ++ [Ev c (e past T c)])).
  rewrite E in IH. exact IH.
Qed.

Lemma run_of_path (e : env) (d : demo) (budget : nat) :
  path (main_of (hdr := qhyccd_h) d budget)
    (fst (run_of e d budget)) (snd (run_of e d budget)).
Proof.
  apply run_from_path.
Qed.

(** The calls a path has made up to any point are a run cut short. *)
Lemma cut_prefix {A : Type} (p : prog A) tr o :
  path p tr o -> forall n, cut p (firstn n tr).
Proof.
  induction 1 as [a | m | | T c k r tr o _ IH]; intros [| n]; simpl;
    try constructor.
  apply IH.
Qed.

(** ** Monitors *)

Section MonitorFacts.
Context {St : Type} (step : St -> event -> option St).

Lemma feed_app s tr1 tr2 :
  feed step s (tr1 ++ tr2) =
  match feed step s tr1 with
  | Some s' => feed step s' tr2
  | None => None
  end.
Proof.
  revert s. induction tr1 as [| ev tr1 IH]; intros s; simpl; [reflexivity |].
  destruct (step s ev); auto.
Qed.

Lemma safe_mono {A : Type} (p : prog A) :
  forall s (Q Q' : St -> outcome A -> Prop),
    (forall s' o, Q s' o -> Q' s' o) -> safe step p s Q -> safe step p s Q'.
Proof.
  induction p as [a | n | | T c k IH]; intros s Q Q' HQ H; simpl in *; auto.
  intros r. specialize (H r). destruct (step s (Ev c r)); [eauto | exact H].
Qed.

Lemma safe_bind {A B : Type} (p : prog A) (f : A -> prog B) :
  forall s Q, safe step p s (after step f Q) -> safe step (bind p f) s Q.
Proof.
  induction p as [a | n | | T c k IH]; intros s Q H; simpl in *; auto.
  intros r. specialize (H r). destruct (step s (Ev c r)); [auto | exact H].
Qed.

Lemma safe_sound {A : Type} (p : prog A) tr o :
  path p tr o ->
  forall s Q, safe step p s Q -> exists s', feed step s tr = Some s' /\ Q s' o.
Proof.
  induction 1 as [a | n | | T c k r tr o _ IH]; intros s Q H; simpl in *; eauto.
  specialize (H r). destruct (step s (Ev c r)) as [s1 |]; [eauto | contradiction].
Qed.

(** A [while(true)] loop keeps an invariant of the monitor state. *)
Lemma safe_while {V : Type} (body : V -> prog (V + unit))
    (Inv : St -> Prop) (Q : St -> outcome unit -> Prop) :
  (forall s, Inv s -> Q s Running) ->
  (forall v s, Inv s ->
     safe step (body v) s
       (fun s' o => match o with
                    | Done (inl _) => Inv s'
                    | Done (inr _) => Q s' (Done tt)
                    | Exited n => Q s' (Exited n)
                    | Running => Q s' Running
                    end)) ->
  forall budget v s, Inv s -> safe step (while_true budget body v) s Q.
Proof.
  intros Hrun Hbody. induction budget as [| n IH]; intros v s HI; simpl.
  - auto.
  - apply safe_bind. eapply safe_mono; [| apply (Hbody v s HI)].
    intros s' [[v' | []] | m |]; simpl; auto.
Qed.

(** A [for] loop keeps an invariant of the monitor state. *)
Lemma safe_for_steps {V : Type} (body : Z -> V -> prog (V * bool))
    (Inv : St -> Prop) (Q : St -> outcome V -> Prop) :
  (forall s v, Inv s -> Q s (Done v)) ->
  (forall i v s, Inv s ->
     safe step (body i v) s
       (fun s' o => match o with
                    | Done _ => Inv s'
                    | Exited n => Q s' (Exited n)
                    | Running => Q s' Running
                    end)) ->
  forall n i v s, Inv s -> safe step (for_steps n i body v) s Q.
Proof.
  intros Hend Hbody. induction n as [| n IH]; intros i v s HI; simpl.
  - auto.
  - apply safe_bind. eapply safe_mono; [| apply (Hbody i v s HI)].
    intros s' [[v' b] | m |]; simpl; auto.
    destruct b; simpl; auto.
Qed.

(** The same two rules with an invariant that ties the loop variables to
    the monitor. *)
Lemma safe_while_rel {V : Type} (body : V -> prog (V + unit))
    (Inv : V -> St -> Prop) (Q : St -> outcome unit -> Prop) :
  (forall v s, Inv v s -> Q s Running) ->
  (forall v s, Inv v s ->
     safe step (body v) s
       (fun s' o => match o with
                    | Done (inl v') => Inv v' s'
                    | Done (inr _) => Q s' (Done tt)
                    | Exited n => Q s' (Exited n)
                    | Running => Q s' Running
                    end)) ->
  forall budget v s, Inv v s -> safe step (while_true budget body v) s Q.
Proof.
  intros Hrun Hbody. induction budget as [| n IH]; intros v s HI; simpl.
  - eauto.
  - apply safe_bind. eapply safe_mono; [| apply (Hbody v s HI)].
    intros s' [[v' | []] | m |]; simpl; auto.
Qed.

(** [Inv m i v s]: [m] rounds are left, the next index is [i]. *)
Lemma safe_for_steps_rel {V : Type} (body : Z -> V -> prog (V * bool))
    (Inv : nat -> Z -> V -> St -> Prop) (Q : St -> outcome V -> Prop) :
  (forall i v s, Inv 0%nat i v s -> Q s (Done v)) ->
  (forall m i v s, Inv (S m) i v s ->
     safe step (body i v) s
       (fun s' o => match o with
                    | Done (v', false) => Inv m (i + 1) v' s'
                    | Done (v', true) => Q s' (Done v')
                    | Exited n => Q s' (Exited n)
                    | Running => Q s' Running
                    end)) ->
  forall n i v s, Inv n i v s -> safe step (for_steps n i body v) s Q.
Proof.
  intros Hend Hbody. induction n as [| n IH]; intros i v s HI; simpl.
  - eauto.
  - apply safe_bind. eapply safe_mono; [| apply (Hbody n i v s HI)].
    intros s' [[v' b] | m |]; simpl; auto.
    destruct b; simpl; auto.
Qed.

(** A run cut short is accepted as far as it got: what a monitor checks
    call by call holds of it too. *)
Lemma safe_cut {A : Type} (p : prog A) tr :
  cut p tr ->
  forall s Q, safe step p s Q -> exists s', feed step s tr = Some s'.
Proof.
  induction 1 as [p | T c k r tr _ IH]; intros s Q H; simpl in *; eauto.
  specialize (H r). destruct (step s (Ev c r)) as [s1 |]; [eauto | contradiction].
Qed.

End MonitorFacts.

(** ** Symbolic execution against a monitor *)

Ltac bool_atom b :=
  lazymatch b with
  | negb ?x => bool_atom x
  | andb ?x _ => bool_atom x
  | orb ?x _ => bool_atom x
  | _ => constr:(b)
  end.

(** Split on a test, unless the path has already decided it. *)
Ltac case_atom b :=
  let a := bool_atom b in
  match goal with
  | H : a = _ |- _ => rewrite H
  | _ => destruct a eqn:?
  end.

Ltac split_pairs :=
  repeat match goal with
         | H : ?a = ?b |- _ => is_var b; subst b
         | H : ?b = ?a |- _ => is_var b; subst b
         | H : (_, _) = (_, _) |- _ => inversion H; clear H
         | H : culprit ?s = _ |- _ => is_var s; destruct s; cbn [culprit] in H
         | H : _ /\ _ |- _ => destruct H
         | H : failed ?s = _ |- _ =>
             is_var s; destruct s; cbn [failed opened_yet id_seen tried cameras] in *
         | H : _ \/ _ |- _ => destruct H
         | x : (_ * _)%type |- _ => destruct x
         end.

(** One step: unfold the program down to its next call, ask the monitor,
    and split on whatever test is in the way. *)
Ltac safe_case :=
  lazymatch goal with
  | |- forall _, _ => intro; split_pairs
  | |- safe _ (when _ _) _ _ => unfold when at 1
  | |- safe _ (bind (when _ _) _) _ _ => unfold when at 1
  | |- safe _ (bind (bind _ _) _) _ _ => apply safe_bind
  | |- safe _ (if ?b then _ else _) _ _ => case_atom b
  | |- safe _ (bind (if ?b then _ else _) _) _ _ => case_atom b
  | |- match ?t with Some _ => _ | None => _ end =>
      first
        [ progress (let t' := eval cbn in t in change t with t')
        | rewrite Z.eqb_refl
        | lazymatch t with
          | context [if ?b then _ else _] => case_atom b
          end
        | progress (let t' := eval hnf in t in change t with t') ]
  end.

Ltac unf_prog :=
  cbn [safe after bind do failure SDKVersion FirmWareVersion show_frame
       test_base_firmware
       live_iteration single_iteration base_test_camera main_of
       negb andb orb].

Ltac safe_go := repeat (unf_prog; safe_case); unf_prog.

(** At the head of a loop: apply the loop rule with invariant [I]. *)
Ltac loop_with I :=
  idtac;
  lazymatch goal with
  | |- safe _ (bind (while_true _ _ _) _) _ _ =>
      apply safe_bind; apply safe_while with (Inv := I)
  | |- safe _ (bind (find_camera _) _) _ _ =>
      apply safe_bind; unfold find_camera, for_;
      apply safe_for_steps with (Inv := I)
  | |- safe _ (bind (cooler_loop _) _) _ _ =>
      apply safe_bind; unfold cooler_loop, for_;
      apply safe_for_steps with (Inv := I)
  end.

(** The monitor is in the same state every time round the loop. *)
Ltac loop_same :=
  idtac;
  lazymatch goal with
  | |- safe _ _ ?s _ => loop_with (eq s)
  end.

Ltac safe_all loop fin := safe_go; first [ loop; safe_all loop fin | fin | idtac ].

Section Uses.
Context {hdr : Header}.

Lemma use_main d budget :
  safe use_step (main_of d budget) false (fun _ _ => True).
Proof.
  destruct d; cbn [main_of].
  - unfold base_test_main. safe_all loop_same ltac:(idtac; first [exact I | reflexivity]).
  - unfold test_base_main. safe_all loop_same ltac:(idtac; first [exact I | reflexivity]).
  - unfold test_live_opencv_main. safe_all loop_same ltac:(idtac; first [exact I | reflexivity]).
  - unfold test_single_opencv_main. safe_all loop_same ltac:(idtac; first [exact I | reflexivity]).
Qed.

End Uses.

(** Once the monitor has seen [CloseQHYCCD], it accepts only calls that take
    no handle. *)
Lemma use_closed tr :
  forall s, feed use_step true tr = Some s ->
            Forall (fun e => handle_of e = None) tr.
Proof.
  induction tr as [| ev tr IH]; intros s H; [constructor |].
  simpl in H. unfold use_step at 1 in H.
  destruct (handle_of ev) eqn:E; [discriminate |].
  constructor; eauto.
Qed.

Lemma use_accepts l1 h (r : Z) l2 :
  forall b s, feed use_step b (l1 ++ Ev (CloseQHYCCD h) r :: l2) = Some s ->
              Forall (fun e => handle_of e = None) l2.
Proof.
  induction l1 as [| ev l1 IH]; intros b s H; simpl in H.
  - destruct b; [discriminate |]. eapply use_closed; eauto.
  - destruct (use_step b ev); [eauto | discriminate].
Qed.

(** C6: in every program and on every path, whatever follows a
    [CloseQHYCCD] call takes no device handle: every SDK call on the handle
    precedes its release. *)
Theorem handle_not_used_after_close {hdr : Header} d budget tr o :
  path (main_of d budget) tr o ->
  forall l1 h (r : Z) l2,
    tr = l1 ++ Ev (CloseQHYCCD h) r :: l2 ->
    Forall (fun e => handle_of e = None) l2.
Proof.
  intros P l1 h r l2 ->.
  destruct (safe_sound use_step _ _ _ P _ _ (use_main d budget)) as (s & F & _).
  eapply use_accepts; eauto.
Qed.

Lemma handle_not_used_after_close_witness :
  let tr := fst (run_of sdk_ok test_base 0) in
  path (main_of (hdr := qhyccd_h) test_base 0) tr (Exited 0) /\
  tr = firstn 25 tr ++ Ev (CloseQHYCCD 4096) 0 :: skipn 26 tr /\
  Forall (fun e => handle_of e = None) (skipn 26 tr).
Proof.
  pose proof (run_of_path sdk_ok test_base 0) as P.
  assert (E : fst (run_of sdk_ok test_base 0) =
              firstn 25 (fst (run_of sdk_ok test_base 0))
              ++ Ev (CloseQHYCCD 4096) 0
              :: skipn 26 (fst (run_of sdk_ok test_base 0)))
    by (vm_compute; reflexivity).
  split; [exact P |]. split; [exact E |].
  exact (handle_not_used_after_close (hdr := qhyccd_h) test_base 0 _ _ P _ _ _ _ E).
Defined.

(** ** Reads of the frame buffer *)

Section Fresh.
Context {hdr : Header}.

Lemma fresh_main d budget :
  safe fresh_step (main_of d budget) None (fun _ _ => True).
Proof.
  destruct d; cbn [main_of].
  - unfold base_test_main.
    safe_all ltac:(loop_with (fun _ : option pointer => True)) ltac:(idtac; exact I).
  - unfold test_base_main.
    safe_all ltac:(loop_with (fun _ : option pointer => True)) ltac:(idtac; exact I).
  - unfold test_live_opencv_main.
    safe_all ltac:(loop_with (fun _ : option pointer => True)) ltac:(idtac; exact I).
  - unfold test_single_opencv_main.
    safe_all ltac:(loop_with (fun _ : option pointer => True)) ltac:(idtac; exact I).
Qed.

Lemma reads_not_fetch ev p : reads ev = Some p -> fetched ev = None.
Proof.
  destruct ev as [T c r]. destruct c; simpl; intros H; try discriminate.
  reflexivity.
Qed.

(** When the monitor ends up holding buffer [p]: either it held [p] all
    along and saw no fetch, or the latest fetch it saw was a successful
    one into [p]. *)
Lemma fresh_holds tr p :
  forall s, feed fresh_step s tr = Some (Some p) ->
    (s = Some p /\ Forall (fun e => fetched e = None) tr) \/
    (exists l0 f l',
        tr = l0 ++ f :: l' /\
        fetched f = Some (p, QHYCCD_SUCCESS) /\
        Forall (fun e => fetched e = None) l').
Proof.
  induction tr as [| ev tr IH]; intros s H; simpl in H.
  - left. injection H as ->. split; [reflexivity | constructor].
  - destruct (fresh_step s ev) as [s1 |] eqn:E; [| discriminate].
    destruct (IH _ H) as [[-> N] | (l0 & f & l' & -> & F & N)].
    + unfold fresh_step in E. destruct (fetched ev) as [[buf ret] |] eqn:Ef.
      * destruct (ret =? QHYCCD_SUCCESS) eqn:Er; [| discriminate].
        apply Z.eqb_eq in Er. subst ret. injection E as ->.
        right. exists [], ev, tr. auto.
      * left. split; [| constructor; assumption].
        destruct (reads ev); [| congruence].
        destruct s as [q |]; [| discriminate].
        destruct (p0 =? q); congruence.
    + right. exists (ev :: l0), f, l'. auto.
Qed.

End Fresh.

(** C5: in every program and on every path, a read of frame memory (the
    [imshow] of the [Mat] laid over the buffer) comes after a fetch into that
    very memory that returned [QHYCCD_SUCCESS], with no other fetch in
    between.  So the buffer is not read before a successful fetch, nor after
    a fetch that failed until a later fetch succeeds. *)
Theorem buffer_read_follows_successful_fetch {hdr : Header} d budget tr o :
  path (main_of d budget) tr o ->
  forall l1 ev l2 p,
    tr = l1 ++ ev :: l2 ->
    reads ev = Some p ->
    exists l0 f l',
      l1 = l0 ++ f :: l' /\
      fetched f = Some (p, QHYCCD_SUCCESS) /\
      Forall (fun e => fetched e = None) l'.
Proof.
  intros P l1 ev l2 p -> R.
  destruct (safe_sound fresh_step _ _ _ P _ _ (fresh_main d budget)) as (s & F & _).
  rewrite feed_app in F.
  destruct (feed fresh_step None l1) as [s1 |] eqn:F1; [| discriminate].
  cbn [feed] in F.
  destruct (fresh_step s1 ev) as [s2 |] eqn:S2; [clear F | discriminate].
  unfold fresh_step in S2.
  rewrite (reads_not_fetch _ _ R), R in S2.
  destruct s1 as [q |]; [| discriminate].
  destruct (p =? q) eqn:E; [| discriminate].
  apply Z.eqb_eq in E. subst q.
  destruct (fresh_holds _ _ _ F1) as [[? _] | H]; [discriminate | exact H].
Qed.

(** ** Releases of the handle *)

Section Closes.
Context {hdr : Header}.

Lemma close_main d budget :
  safe close_step (main_of d budget) (None, 0%nat)
    (fun s o => o = Exited 0 -> snd s = 1%nat).
Proof.
  destruct d; cbn [main_of].
  - unfold base_test_main. safe_all loop_same ltac:(idtac; easy).
  - unfold test_base_main. safe_all loop_same ltac:(idtac; easy).
  - unfold test_live_opencv_main. safe_all loop_same ltac:(idtac; easy).
  - unfold test_single_opencv_main. safe_all loop_same ltac:(idtac; easy).
Qed.

End Closes.

Lemma opened_inv ev h :
  opened ev = Some h -> exists id, ev = Ev (OpenQHYCCD id) h.
Proof.
  destruct ev as [T c r]. destruct c; simpl; intros H; try discriminate.
  injection H as ->. eauto.
Qed.

Lemma is_close_closed_handle ev :
  is_close ev = match closed_handle ev with Some _ => true | None => false end.
Proof.
  destruct ev as [T c r]. destruct c; reflexivity.
Qed.

Lemma count_cons f ev tr :
  count f (ev :: tr) = ((if f ev then 1 else 0) + count f tr)%nat.
Proof.
  unfold count. simpl. destruct (f ev); reflexivity.
Qed.

Lemma count_app f l1 l2 : count f (l1 ++ l2) = (count f l1 + count f l2)%nat.
Proof.
  unfold count. rewrite filter_app, length_app. reflexivity.
Qed.

(** The monitor counts the [CloseQHYCCD] calls and lets the count reach 1 at
    most. *)
Lemma close_counts tr :
  forall s s', feed close_step s tr = Some s' ->
    snd s' = (snd s + count is_close tr)%nat /\
    ((snd s <= 1)%nat -> (snd s' <= 1)%nat).
Proof.
  induction tr as [| ev tr IH]; intros s s' H; simpl in H.
  - injection H as <-. unfold count. simpl. lia.
  - destruct (close_step s ev) as [s1 |] eqn:E; [| discriminate].
    destruct (IH _ _ H) as [C B]. rewrite count_cons, is_close_closed_handle.
    unfold close_step in E. destruct (opened ev) as [h |] eqn:O.
    + destruct (opened_inv _ _ O) as [id ->]. injection E as <-.
      simpl in *. lia.
    + destruct (closed_handle ev) as [h |].
      * destruct s as [[h' |] [| n]]; try discriminate.
        destruct (h =? h'); [| discriminate]. injection E as <-.
        simpl in *. lia.
      * injection E as <-. lia.
  Qed.

(** The handle the monitor holds is the one the latest [OpenQHYCCD] handed
    back. *)
Lemma close_holds tr h :
  forall s s', feed close_step s tr = Some s' -> fst s' = Some h ->
    fst s = Some h \/ exists l0 id l0', tr = l0 ++ Ev (OpenQHYCCD id) h :: l0'.
Proof.
  induction tr as [| ev tr IH]; intros s s' H Hh; simpl in H.
  - injection H as <-. auto.
  - destruct (close_step s ev) as [s1 |] eqn:E; [| discriminate].
    destruct (IH _ _ H Hh) as [F | (l0 & id & l0' & ->)].
    + unfold close_step in E. destruct (opened ev) as [h1 |] eqn:O.
      * destruct (opened_inv _ _ O) as [id ->]. injection E as <-.
        simpl in F. injection F as ->. right. exists [], id, tr. reflexivity.
      * destruct (closed_handle ev) as [h1 |].
        -- destruct s as [[h' |] [| n]]; try discriminate.
           destruct (h1 =? h'); [| discriminate]. injection E as <-. auto.
        -- injection E as <-. auto.
    + right. exists (ev :: l0), id, l0'. reflexivity.
Qed.

(** C1, amended: in every program and on every path the device handle is
    released by [CloseQHYCCD] at most once, never twice; on every path that
    exits with status 0 it is released exactly once; and a released handle
    is the one [OpenQHYCCD] handed back. *)
Theorem handle_released_at_most_once {hdr : Header} d budget tr o :
  path (main_of d budget) tr o ->
  (count is_close tr <= 1)%nat /\
  (o = Exited 0 -> count is_close tr = 1%nat) /\
  (forall l1 h (r : Z) l2,
      tr = l1 ++ Ev (CloseQHYCCD h) r :: l2 ->
      exists l0 id l0', l1 = l0 ++ Ev (OpenQHYCCD id) h :: l0').
Proof.
  intros P.
  destruct (safe_sound close_step _ _ _ P _ _ (close_main d budget)) as (s & F & Q).
  destruct (close_counts _ _ _ F) as [C B]. simpl in C, B.
  split; [| split].
  - rewrite <- C. apply B. lia.
  - intros E. rewrite <- C. auto.
  - intros l1 h r l2 ->. rewrite feed_app in F.
    destruct (feed close_step (None, 0%nat) l1) as [s1 |] eqn:F1; [| discriminate].
    cbn [feed] in F.
    destruct (close_step s1 (Ev (CloseQHYCCD h) r)) as [s2 |] eqn:S2; [| discriminate].
    unfold close_step in S2. simpl in S2.
    destruct s1 as [[h' |] [| n]]; try discriminate.
    destruct (h =? h') eqn:E; [| discriminate].
    apply Z.eqb_eq in E. subst h'.
    destruct (close_holds _ h _ _ F1 eq_refl) as [? | H]; [discriminate | exact H].
Qed.

(** C1 as stated fails: [test_base] leaves through [return 1] when
    [SetQHYCCDResolution] fails, after [OpenQHYCCD] and without
    [CloseQHYCCD]. *)
Lemma handle_not_released_on_error_exit :
  ~ (forall d budget tr n,
        path (main_of (hdr := qhyccd_h) d budget) tr (Exited n) ->
        existsb is_open tr = true ->
        count is_close tr = 1%nat).
Proof.
  intros H.
  specialize (H test_base 0%nat _ 1 (run_of_path sdk_resolution_fails test_base 0) eq_refl).
  vm_compute in H. discriminate H.
Qed.

(** ** The order of the SDK calls *)

Section Order.
Context {hdr : Header}.

(** Round a loop the monitor is at the stage it entered with, or at the
    stage of the loop's own calls. *)
Ltac loop_order :=
  idtac;
  lazymatch goal with
  | |- safe _ (bind (find_camera _) _) ?s _ =>
      loop_with (fun x => x = s \/ x = at_rank 2)
  | |- safe _ (bind (cooler_loop _) _) ?s _ =>
      loop_with (fun x => x = s \/ x = at_rank 4)
  | |- safe _ (bind (while_true _ _ _) _) ?s _ =>
      loop_with (fun x => x = s \/ x = at_rank 5)
  end.

Ltac fin_order := idtac; unfold at_rank; first [easy | now left | now right].

Lemma order_main d budget :
  safe order_step (main_of d budget) order_start
    (fun s o => o = Exited 0 -> closed s = true /\ released s = true).
Proof.
  destruct d; cbn [main_of].
  - unfold base_test_main. safe_all loop_order fin_order.
  - unfold test_base_main. safe_all loop_order fin_order.
  - unfold test_live_opencv_main. safe_all loop_order fin_order.
  - unfold test_single_opencv_main. safe_all loop_order fin_order.
Qed.

End Order.

Lemma is_close_inv ev :
  is_close ev = true -> exists h (r : Z), ev = Ev (CloseQHYCCD h) r.
Proof.
  destruct ev as [T c r]. destruct c; simpl; intros H; try discriminate. eauto.
Qed.

Lemma is_release_inv ev :
  is_release ev = true -> exists r : Z, ev = Ev ReleaseQHYCCDResource r.
Proof.
  destruct ev as [T c r]. destruct c; simpl; intros H; try discriminate. eauto.
Qed.

Lemma staged_is_sdk ev n : stage ev = Some n -> is_sdk ev = true.
Proof.
  destruct ev as [T c r]. destruct c; simpl; intros H; try discriminate; reflexivity.
Qed.

(** What one accepted step of the order monitor does. *)
Lemma order_step_inv s ev s1 :
  order_step s ev = Some s1 ->
  (released s = true -> is_sdk ev = false) /\
  ((stage ev = None /\ s1 = s) \/
   (exists n, stage ev = Some n /\ (rank s <= n)%nat /\ released s = false /\
              s1 = {| rank := n; closed := closed s || is_close ev;
                      released := is_release ev |})).
Proof.
  unfold order_step. intros H.
  destruct (released s) eqn:R, (is_sdk ev) eqn:K; simpl in H; try discriminate.
  - destruct (stage ev) as [n |] eqn:G.
    + rewrite (staged_is_sdk _ _ G) in K. discriminate.
    + injection H as <-. auto.
  - destruct (stage ev) as [n |] eqn:G.
    + destruct (Nat.leb_spec (rank s) n); [| discriminate].
      injection H as <-. split; [discriminate |]. right. eauto.
    + injection H as <-. split; [discriminate | auto].
  - destruct (stage ev) as [n |] eqn:G.
    + destruct (Nat.leb_spec (rank s) n); [| discriminate].
      injection H as <-. split; [discriminate |]. right. eauto.
    + injection H as <-. split; [discriminate | auto].
Qed.

Lemma order_sorted tr :
  forall s s', feed order_step s tr = Some s' ->
    StronglySorted le (stages tr) /\ Forall (le (rank s)) (stages tr).
Proof.
  induction tr as [| ev tr IH]; intros s s' H; simpl in H.
  - split; constructor.
  - destruct (order_step s ev) as [s1 |] eqn:E; [| discriminate].
    destruct (IH _ _ H) as [So Lo].
    destruct (order_step_inv _ _ _ E) as [_ [[G ->] | (n & G & L & _ & ->)]];
      simpl; rewrite G.
    + auto.
    + simpl in Lo. split.
      * constructor; assumption.
      * constructor; [assumption |].
        eapply Forall_impl; [| exact Lo]. intros; lia.
Qed.

Lemma order_after_release tr :
  forall s s', released s = true -> feed order_step s tr = Some s' ->
    Forall (fun e => is_sdk e = false) tr.
Proof.
  induction tr as [| ev tr IH]; intros s s' R H; simpl in H; [constructor |].
  destruct (order_step s ev) as [s1 |] eqn:E; [| discriminate].
  destruct (order_step_inv _ _ _ E) as [K [[G ->] | (n & _ & _ & R' & _)]].
  - constructor; eauto.
  - congruence.
Qed.

Lemma order_finds_close tr :
  forall s s', feed order_step s tr = Some s' ->
    closed s = false -> closed s' = true ->
    exists l1 h (r : Z) l2 s2,
      tr = l1 ++ Ev (CloseQHYCCD h) r :: l2 /\
      feed order_step s2 l2 = Some s' /\ released s2 = false.
Proof.
  induction tr as [| ev tr IH]; intros s s' H C C'; simpl in H.
  - injection H as <-. congruence.
  - destruct (order_step s ev) as [s1 |] eqn:E; [| discriminate].
    destruct (order_step_inv _ _ _ E) as [_ [[G ->] | (n & G & _ & _ & ->)]].
    + destruct (IH _ _ H C C') as (l1 & h & r & l2 & s2 & -> & F & R).
      exists (ev :: l1), h, r, l2, s2. auto.
    + destruct (is_close ev) eqn:K.
      * destruct (is_close_inv _ K) as (h & r & ->).
        exists [], h, r, tr. eexists. split; [reflexivity |].
        split; [exact H | reflexivity].
      * rewrite C in H. simpl in H.
        destruct (IH _ _ H eq_refl C') as (l1 & h & r & l2 & s2 & -> & F & R).
        exists (ev :: l1), h, r, l2, s2. auto.
Qed.

Lemma order_finds_release tr :
  forall s s', feed order_step s tr = Some s' ->
    released s = false -> released s' = true ->
    exists l1 (r : Z) l2, tr = l1 ++ Ev ReleaseQHYCCDResource r :: l2.
Proof.
  induction tr as [| ev tr IH]; intros s s' H R R'; simpl in H.
  - injection H as <-. congruence.
  - destruct (order_step s ev) as [s1 |] eqn:E; [| discriminate].
    destruct (order_step_inv _ _ _ E) as [_ [[G ->] | (n & G & _ & _ & ->)]].
    + destruct (IH _ _ H R R') as (l1 & r & l2 & ->).
      exists (ev :: l1), r, l2. reflexivity.
    + destruct (is_release ev) eqn:K.
      * destruct (is_release_inv _ K) as (r & ->). exists [], r, tr. reflexivity.
      * destruct (IH _ _ H eq_refl R') as (l1 & r & l2 & ->).
        exists (ev :: l1), r, l2. reflexivity.
Qed.

(** C3, amended: in every program and on every path the SDK calls come in
    the order initialise, scan, identify, open, configure, acquire, close,
    release ([GetQHYCCDSDKVersion] and [EnableQHYCCDMessage] stand outside
    that order); no SDK call follows [ReleaseQHYCCDResource]; and every path
    that exits with status 0 went through [CloseQHYCCD] and then
    [ReleaseQHYCCDResource]. *)
Theorem sdk_calls_follow_stage_order {hdr : Header} d budget tr o :
  path (main_of d budget) tr o ->
  StronglySorted le (stages tr) /\
  (forall l1 (r : Z) l2,
      tr = l1 ++ Ev ReleaseQHYCCDResource r :: l2 ->
      Forall (fun e => is_sdk e = false) l2) /\
  (o = Exited 0 ->
   exists l1 h (rc : Z) l2 (rr : Z) l3,
     tr = l1 ++ Ev (CloseQHYCCD h) rc :: l2 ++ Ev ReleaseQHYCCDResource rr :: l3).
Proof.
  intros P.
  destruct (safe_sound order_step _ _ _ P _ _ (order_main d budget)) as (s & F & Q).
  split; [| split].
  - eapply order_sorted; eauto.
  - intros l1 r l2 ->. rewrite feed_app in F.
    destruct (feed order_step order_start l1) as [s1 |]; [| discriminate].
    cbn [feed] in F.
    destruct (order_step s1 (Ev ReleaseQHYCCDResource r)) as [s2 |] eqn:E;
      [| discriminate].
    destruct (order_step_inv _ _ _ E) as [_ [[G _] | (n & _ & _ & _ & ->)]];
      [discriminate |].
    eapply order_after_release; [| exact F]. reflexivity.
  - intros E. destruct (Q E) as [C R].
    destruct (order_finds_close _ _ _ F eq_refl C) as (l1 & h & rc & l2 & s2 & -> & F2 & R2).
    destruct (order_finds_release _ _ _ F2 R2 R) as (l2' & rr & l3 & ->).
    exists l1, h, rc, l2', rr, l3. reflexivity.
Qed.

(** C3 as stated fails: with no camera attached, [test_single_opencv]
    returns 1 right after [ScanQHYCCD]; the run ends without reaching
    [CloseQHYCCD] or [ReleaseQHYCCDResource]. *)
Lemma early_return_skips_teardown :
  ~ (forall d budget tr n,
        path (main_of (hdr := qhyccd_h) d budget) tr (Exited n) ->
        existsb is_close tr = true /\ existsb is_release tr = true).
Proof.
  intros H.
  destruct (H test_single_opencv 3%nat _ 1
              (run_of_path sdk_no_camera test_single_opencv 3)) as [C _].
  vm_compute in C. discriminate C.
Qed.

(** ** Allocation of the frame buffer *)

Section Alloc.
Context {hdr : Header}.

Lemma alloc_main d budget :
  safe (alloc_step (is_base_test d)) (main_of d budget) alloc_start
    (fun s o => (o = Exited 0 -> mallocs s = 1%nat) /\
                (short s = true -> o = Exited 1)).
Proof.
  destruct d; cbn [main_of is_base_test].
  - unfold base_test_main. safe_all loop_same ltac:(idtac; easy).
  - unfold test_base_main. safe_all loop_same ltac:(idtac; easy).
  - unfold test_live_opencv_main. safe_all loop_same ltac:(idtac; easy).
  - unfold test_single_opencv_main. safe_all loop_same ltac:(idtac; easy).
Qed.

End Alloc.

Lemma size_t_int32_small z : 0 <= z < 2 ^ 31 -> size_t (int32 z) = z.
Proof.
  intros H. unfold size_t, int32.
  rewrite (Z.mod_small (z + 2 ^ 31)) by lia.
  rewrite Z.mod_small by lia. lia.
Qed.

Lemma mem_length_inv ev h n :
  mem_length ev = Some (h, n) -> ev = Ev (GetQHYCCDMemLength h) n.
Proof.
  destruct ev as [T c r]. destruct c; simpl; intros H; try discriminate.
  injection H as -> ->. reflexivity.
Qed.

Lemma malloc_size_inv ev n :
  malloc_size ev = Some n -> exists p : pointer, ev = Ev (malloc n) p.
Proof.
  destruct ev as [T c r]. destruct c; simpl; intros H; try discriminate.
  injection H as ->. eauto.
Qed.

Lemma is_malloc_size ev :
  is_malloc ev = match malloc_size ev with Some _ => true | None => false end.
Proof.
  destruct ev as [T c r]. destruct c; reflexivity.
Qed.

(** What one accepted step of the allocation monitor does. *)
Lemma alloc_step_inv g s ev s1 :
  alloc_step g s ev = Some s1 ->
  (exists h,
      opened ev = Some h /\
      s1 = {| cam := Some h; last_len := None;
              mallocs := mallocs s; short := short s |}) \/
  (exists h n,
      mem_length ev = Some (h, n) /\ mallocs s = 0%nat /\
      cam s1 = cam s /\ mallocs s1 = 0%nat /\
      short s1 = (short s || (g && negb (int32 n >? 0)))%bool /\
      (forall m, last_len s1 = Some m -> m = n /\ cam s = Some h)) \/
  (exists n,
      malloc_size ev = Some (size_t (int32 n)) /\ last_len s = Some n /\
      mallocs s = 0%nat /\
      short s = false /\ (g = true -> 0 < int32 n) /\
      s1 = {| cam := cam s; last_len := None; mallocs := 1; short := short s |}) \/
  (opened ev = None /\ mem_length ev = None /\ malloc_size ev = None /\
   s1 = {| cam := cam s; last_len := None;
           mallocs := mallocs s; short := short s |}).
Proof.
  unfold alloc_step. intros H.
  destruct (opened ev) as [h |] eqn:O.
  { injection H as <-. left. eauto. }
  destruct (mem_length ev) as [[h n] |] eqn:M.
  { destruct (mallocs s) eqn:Ms; [| discriminate]. injection H as <-.
    right. left. exists h, n. simpl. repeat split; auto.
    - destruct (cam s) as [h' |]; [| discriminate].
      destruct (h =? h'); congruence.
    - destruct (cam s) as [h' |]; [| discriminate].
      destruct (h =? h') eqn:E; [| discriminate].
      apply Z.eqb_eq in E. congruence. }
  destruct (malloc_size ev) as [n |] eqn:Z.
  { destruct (last_len s) as [n' |] eqn:L; [| discriminate].
    destruct (mallocs s) eqn:Ms; [| discriminate].
    destruct (n =? size_t (int32 n')) eqn:E; [| discriminate].
    apply Z.eqb_eq in E. subst n.
    destruct (short s) eqn:Sh; [discriminate |].
    destruct (negb g || (int32 n' >? 0))%bool eqn:G; [| discriminate].
    injection H as <-. right. right. left. exists n'.
    repeat split; auto.
    intros ->. simpl in G. lia. }
  injection H as <-. right. right. right. auto.
Qed.

Lemma opened_not_malloc ev h : opened ev = Some h -> is_malloc ev = false.
Proof.
  intros O. destruct (opened_inv _ _ O) as [id ->]. reflexivity.
Qed.

Lemma mem_length_not_malloc ev x : mem_length ev = Some x -> is_malloc ev = false.
Proof.
  destruct x as [h n]. intros M. rewrite (mem_length_inv _ _ _ M). reflexivity.
Qed.

Lemma alloc_counts g tr :
  forall s s', feed (alloc_step g) s tr = Some s' ->
    mallocs s' = (mallocs s + count is_malloc tr)%nat /\
    ((mallocs s <= 1)%nat -> (mallocs s' <= 1)%nat).
Proof.
  induction tr as [| ev tr IH]; intros s s' H; simpl in H.
  - injection H as <-. unfold count. simpl. lia.
  - destruct (alloc_step g s ev) as [s1 |] eqn:E; [| discriminate].
    destruct (IH _ _ H) as [C B]. rewrite count_cons.
    destruct (alloc_step_inv _ _ _ _ E)
      as [(h & O & ->) | [(h & n & M & M0 & _ & M1 & _) |
          [(n & Z & _ & M0 & _ & _ & ->) | (_ & _ & Z & ->)]]]; simpl in *.
    + rewrite (opened_not_malloc _ _ O). lia.
    + rewrite (mem_length_not_malloc _ _ M), M1 in *. lia.
    + rewrite is_malloc_size, Z. lia.
    + rewrite is_malloc_size, Z. lia.
Qed.

(** Once a guarded length was not positive, the monitor accepts no
    [malloc]. *)
Lemma alloc_short g tr :
  forall s s', feed (alloc_step g) s tr = Some s' -> short s = true ->
    short s' = true /\ count is_malloc tr = 0%nat.
Proof.
  induction tr as [| ev tr IH]; intros s s' H Sh; simpl in H.
  - injection H as <-. auto.
  - destruct (alloc_step g s ev) as [s1 |] eqn:E; [| discriminate].
    rewrite count_cons.
    destruct (alloc_step_inv _ _ _ _ E)
      as [(h & O & ->) | [(h & n & M & _ & _ & _ & Sh1 & _) |
          [(n & _ & _ & _ & Sh' & _) | (_ & _ & Z & ->)]]]; simpl in *.
    + rewrite (opened_not_malloc _ _ O). apply (IH _ _ H Sh).
    + rewrite (mem_length_not_malloc _ _ M). rewrite Sh in Sh1.
      apply (IH _ _ H Sh1).
    + congruence.
    + rewrite is_malloc_size, Z. apply (IH _ _ H Sh).
Qed.

(** The handle the monitor holds was handed back by [OpenQHYCCD]. *)
Lemma alloc_cam g tr h :
  forall s s', feed (alloc_step g) s tr = Some s' -> cam s' = Some h ->
    cam s = Some h \/ exists id, In (Ev (OpenQHYCCD id) h) tr.
Proof.
  induction tr as [| ev tr IH]; intros s s' H C; simpl in H.
  - injection H as <-. auto.
  - destruct (alloc_step g s ev) as [s1 |] eqn:E; [| discriminate].
    destruct (IH _ _ H C) as [C1 | [id I]]; [| right; exists id; right; exact I].
    destruct (alloc_step_inv _ _ _ _ E)
      as [(h' & O & ->) | [(h' & n & _ & _ & Cs & _) |
          [(n & _ & _ & _ & _ & _ & ->) | (_ & _ & _ & ->)]]]; simpl in *; auto.
    + injection C1 as ->. destruct (opened_inv _ _ O) as [id ->].
      right. exists id. left. reflexivity.
    + left. congruence.
Qed.

(** What the allocation monitor accepts: at most one [malloc], each right
    after [GetQHYCCDMemLength] on an opened handle and for its length; and,
    where the length is tested, none once it was not positive. *)
Lemma alloc_accepted {hdr : Header} d tr s :
  feed (alloc_step (is_base_test d)) alloc_start tr = Some s ->
  (count is_malloc tr <= 1)%nat /\
  (forall l1 n (p : pointer) l2,
      tr = l1 ++ Ev (malloc n) p :: l2 ->
      exists l0 h id returned,
        l1 = l0 ++ [Ev (GetQHYCCDMemLength h) returned] /\
        In (Ev (OpenQHYCCD id) h) l0 /\
        n = size_t (int32 returned) /\
        (0 <= returned < 2 ^ 31 -> n = returned) /\
        (d = base_test -> 0 < int32 returned)) /\
  (d = base_test ->
   forall l1 h returned l2,
     tr = l1 ++ Ev (GetQHYCCDMemLength h) returned :: l2 ->
     int32 returned <= 0 ->
     short s = true /\ count is_malloc tr = 0%nat).
Proof.
  intros F.
  destruct (alloc_counts _ _ _ _ F) as [C B]. simpl in C, B.
  split; [| split].
  - rewrite <- C. apply B. lia.
  - intros l1 n p l2 ->. rewrite feed_app in F.
    destruct (feed (alloc_step (is_base_test d)) alloc_start l1) as [s1 |] eqn:F1;
      [| discriminate].
    cbn [feed] in F.
    destruct (alloc_step (is_base_test d) s1 (Ev (malloc n) p)) as [s2 |] eqn:E;
      [| discriminate].
    destruct (alloc_step_inv _ _ _ _ E)
      as [(h & X & _) | [(h & n' & X & _) |
          [(n' & X & L & _ & _ & G & _) | (_ & _ & X & _)]]];
      try discriminate.
    simpl in X. injection X as ->.
    destruct (exists_last (l := l1)) as (l0 & x & ->).
    { intros ->. simpl in F1. injection F1 as <-. discriminate. }
    rewrite feed_app in F1.
    destruct (feed (alloc_step (is_base_test d)) alloc_start l0) as [s0 |] eqn:F0;
      [| discriminate].
    cbn [feed] in F1.
    destruct (alloc_step (is_base_test d) s0 x) as [s1' |] eqn:E1; [| discriminate].
    injection F1 as ->.
    destruct (alloc_step_inv _ _ _ _ E1)
      as [(h & _ & ->) | [(h & m & M & _ & _ & _ & _ & W) |
          [(m & _ & _ & _ & _ & _ & ->) | (_ & _ & _ & ->)]]];
      try discriminate.
    destruct (W _ L) as [<- Cm]. rewrite (mem_length_inv _ _ _ M).
    destruct (alloc_cam _ _ _ _ _ F0 Cm) as [? | [id I]]; [discriminate |].
    exists l0, h, id, n'. repeat split; auto.
    + intros R. apply size_t_int32_small. exact R.
    + intros ->. apply G. reflexivity.
  - intros -> l1 h n l2 -> N. rewrite feed_app in F.
    destruct (feed (alloc_step (is_base_test base_test)) alloc_start l1) as [s1 |] eqn:F1;
      [| discriminate].
    cbn [feed] in F.
    destruct (alloc_step (is_base_test base_test) s1 (Ev (GetQHYCCDMemLength h) n))
      as [s2 |] eqn:E; [| discriminate].
    destruct (alloc_step_inv _ _ _ _ E)
      as [(h' & X & _) | [(h' & n' & X & M & _ & _ & Sh & _) |
          [(n' & X & _) | (_ & X & _)]]];
      try discriminate.
    simpl in X. injection X as <- <-.
    assert (Sh2 : short s2 = true).
    { rewrite Sh. simpl. destruct (Z.gtb_spec (int32 n) 0); [lia |].
      apply orb_true_r. }
    destruct (alloc_short _ _ _ _ F Sh2) as [Sh' C2].
    destruct (alloc_counts _ _ _ _ F1) as [C1 _]. simpl in C1.
    split; [exact Sh' |].
    rewrite count_app, count_cons, C2. simpl. lia.
Qed.

(** C4, amended: in every program and on every path the frame buffer is
    allocated at most once, and exactly once on a path that exits with
    status 0; a [malloc] directly follows [GetQHYCCDMemLength] on the handle
    [OpenQHYCCD] handed back and asks for the length returned as the program
    holds it, kept in an [int] and passed on as a [size_t] (the very value
    returned when that is below 2^31); in base_test, which tests the length,
    that [int] is positive, and a length that is not positive as an [int]
    ends the run with status 1 and no allocation.  What is said of the
    calls made holds as well of a run cut short, as when [memset] fails on
    a buffer that could not be had. *)
Theorem buffer_allocated_once_with_sdk_length {hdr : Header} d budget tr o :
  path (main_of d budget) tr o ->
  (count is_malloc tr <= 1)%nat /\
  (o = Exited 0 -> count is_malloc tr = 1%nat) /\
  (forall l1 n (p : pointer) l2,
      tr = l1 ++ Ev (malloc n) p :: l2 ->
      exists l0 h id returned,
        l1 = l0 ++ [Ev (GetQHYCCDMemLength h) returned] /\
        In (Ev (OpenQHYCCD id) h) l0 /\
        n = size_t (int32 returned) /\
        (0 <= returned < 2 ^ 31 -> n = returned) /\
        (d = base_test -> 0 < int32 returned)) /\
  (d = base_test ->
   forall l1 h returned l2,
     tr = l1 ++ Ev (GetQHYCCDMemLength h) returned :: l2 ->
     int32 returned <= 0 ->
     o = Exited 1 /\ count is_malloc tr = 0%nat) /\
  (forall tr',
      cut (main_of d budget) tr' ->
      (count is_malloc tr' <= 1)%nat /\
      (forall l1 n (p : pointer) l2,
          tr' = l1 ++ Ev (malloc n) p :: l2 ->
          exists l0 h id returned,
            l1 = l0 ++ [Ev (GetQHYCCDMemLength h) returned] /\
            In (Ev (OpenQHYCCD id) h) l0 /\
            n = size_t (int32 returned) /\
            (0 <= returned < 2 ^ 31 -> n = returned) /\
            (d = base_test -> 0 < int32 returned)) /\
      (d = base_test ->
       forall l1 h returned l2,
         tr' = l1 ++ Ev (GetQHYCCDMemLength h) returned :: l2 ->
         int32 returned <= 0 ->
         count is_malloc tr' = 0%nat)).
Proof.
  intros P.
  destruct (safe_sound (alloc_step (is_base_test d)) _ _ _ P _ _ (alloc_main d budget))
    as (s & F & Q0 & Q1).
  destruct (alloc_accepted d tr s F) as (A1 & A2 & A3).
  destruct (alloc_counts _ _ _ _ F) as [C B]. simpl in C, B.
  split; [exact A1 |]. split; [| split; [exact A2 |]; split].
  - intros E. rewrite <- C. auto.
  - intros D l1 h n l2 E N.
    destruct (A3 D l1 h n l2 E N) as [Sh C0]. auto.
  - intros tr' K.
    destruct (safe_cut _ _ _ K _ _ (alloc_main d budget)) as (s' & F').
    destruct (alloc_accepted d tr' s' F') as (A1' & A2' & A3').
    split; [exact A1' |]. split; [exact A2' |].
    intros D l1 h n l2 E N. apply (A3' D l1 h n l2 E N).
Qed.

(** C4 as stated fails: [test_base] calls [malloc] whatever
    [GetQHYCCDMemLength] returned; when that is 0 it allocates 0 bytes and
    goes on to exit with status 0. *)
Lemma malloc_not_guarded_in_test_base :
  ~ (forall d budget tr o,
        path (main_of (hdr := qhyccd_h) d budget) tr o ->
        forall l1 n (p : pointer) l2,
          tr = l1 ++ Ev (malloc n) p :: l2 -> 0 < n).
Proof.
  intros H.
  pose proof (run_of_path sdk_no_length test_base 0) as P.
  specialize (H test_base 0%nat _ _ P
                (firstn 23 (fst (run_of sdk_no_length test_base 0)))
                0 65536
                (skipn 24 (fst (run_of sdk_no_length test_base 0)))).
  assert (0 < 0) as A by (apply H; vm_compute; reflexivity).
  lia.
Qed.

(** ** Checks that end the run *)

Section Abort.
Context {hdr : Header}.

Ltac loop_going := idtac; loop_with (fun x => culprit x = None).

Lemma abort_main d budget :
  safe (abort_step d) (main_of d budget) abort_start
    (fun s o => culprit s <> None -> told s = true /\ o = Exited 1).
Proof.
  destruct d; cbn [main_of].
  - unfold base_test_main.
    safe_all loop_going ltac:(idtac; cbn; rewrite ?orb_true_r; easy).
  - unfold test_base_main. safe_all loop_going ltac:(idtac; easy).
  - unfold test_live_opencv_main. safe_all loop_going ltac:(idtac; easy).
  - unfold test_single_opencv_main. safe_all loop_going ltac:(idtac; easy).
Qed.

End Abort.

Section Retry.
Context {hdr : Header}.

Lemma retry_main d budget :
  safe retry_step (main_of d budget) false (fun s _ => s = false).
Proof.
  destruct d; cbn [main_of].
  - unfold base_test_main. safe_all loop_same ltac:(idtac; easy).
  - unfold test_base_main. safe_all loop_same ltac:(idtac; easy).
  - unfold test_live_opencv_main. safe_all loop_same ltac:(idtac; easy).
  - unfold test_single_opencv_main. safe_all loop_same ltac:(idtac; easy).
Qed.

End Retry.

Section AbortFacts.
Context {hdr : Header}.

(** The monitor remembers the last event it read. *)
Lemma abort_prev d tr :
  forall s s', feed (abort_step d) s tr = Some s' ->
    prev_event s' = last_from (prev_event s) tr.
Proof.
  induction tr as [| ev tr IH]; intros s s' H; simpl in H.
  - injection H as <-. reflexivity.
  - destruct (abort_step d s ev) as [s1 |] eqn:E; [| discriminate].
    rewrite (IH _ _ H). unfold abort_step in E.
    destruct (culprit s); [destruct (winding_down _ ev); [| discriminate] |];
      injection E as <-; reflexivity.
Qed.

(** A check that fails during the wind-down of another (the release of
    the SDK after the question about live video) leaves less to follow,
    not more. *)
Lemma wind_narrows d prev a ev :
  failed_check d prev ev = true -> winding_down a ev = true ->
  forall e, winding_down ev e = true -> winding_down a e = true.
Proof.
  intros K W e We. unfold winding_down in *.
  destruct ev as [T c r]. destruct c; cbn in K, W; try discriminate.
  cbn in We. rewrite !andb_false_r, !orb_false_r in We. rewrite We. reflexivity.
Qed.

Lemma abort_winds_down d tr :
  forall s s' a, feed (abort_step d) s tr = Some s' -> culprit s = Some a ->
    culprit s' <> None /\ Forall (fun e => winding_down a e = true) tr.
Proof.
  induction tr as [| ev tr IH]; intros s s' a H C; simpl in H.
  - injection H as <-. split; [congruence | constructor].
  - destruct (abort_step d s ev) as [s1 |] eqn:E; [| discriminate].
    unfold abort_step in E. rewrite C in E.
    destruct (winding_down a ev) eqn:W; [| discriminate].
    injection E as <-.
    destruct (failed_check d (prev_event s) ev) eqn:K.
    + destruct (IH _ _ ev H eq_refl) as [N A].
      split; [exact N |]. constructor; [exact W |].
      eapply Forall_impl; [| exact A]. intros e. exact (wind_narrows _ _ _ _ K W e).
    + destruct (IH _ _ a H eq_refl) as [N A].
      split; [exact N |]. constructor; assumption.
Qed.

Lemma abort_told d tr :
  forall s s', feed (abort_step d) s tr = Some s' ->
    told s = false -> told s' = true -> existsb is_printf tr = true.
Proof.
  induction tr as [| ev tr IH]; intros s s' H T T'; simpl in H.
  - injection H as <-. congruence.
  - destruct (abort_step d s ev) as [s1 |] eqn:E; [| discriminate].
    unfold abort_step in E. simpl.
    destruct (is_printf ev) eqn:K; [reflexivity |]. simpl.
    apply (IH _ _ H); [| assumption].
    destruct (culprit s); [destruct (winding_down _ ev); [| discriminate] |];
      injection E as <-; simpl; [| reflexivity].
    rewrite T. destruct (failed_check d (prev_event s) ev); reflexivity.
Qed.

(** Every program, every path: a failed check is followed by a [printf],
    by nothing but the wind-down, and by exit status 1. *)
Lemma failed_check_discipline d budget tr o :
  path (main_of d budget) tr o ->
  forall l1 ev l2,
    tr = l1 ++ ev :: l2 ->
    failed_check d (last_event l1) ev = true ->
    o = Exited 1 /\
    existsb is_printf l2 = true /\
    Forall (fun e => winding_down ev e = true) l2.
Proof.
  intros P l1 ev l2 -> K.
  destruct (safe_sound (abort_step d) _ _ _ P _ _ (abort_main d budget))
    as (s & F & Q).
  rewrite feed_app in F.
  destruct (feed (abort_step d) abort_start l1) as [s1 |] eqn:F1; [| discriminate].
  cbn [feed] in F.
  destruct (abort_step d s1 ev) as [s2 |] eqn:E; [| discriminate].
  pose proof (abort_prev _ _ _ _ F1) as Pv. simpl in Pv.
  fold (last_event l1) in Pv.
  assert (culprit s2 = Some ev /\ told s2 = false) as [C T].
  { unfold abort_step in E. rewrite Pv, K in E.
    destruct (culprit s1); [destruct (winding_down _ ev); [| discriminate] |];
      injection E as <-; auto. }
  destruct (abort_winds_down _ _ _ _ _ F C) as [N A].
  destruct (Q N) as [T' ->].
  split; [reflexivity |]. split; [| exact A].
  eapply abort_told; eauto.
Qed.

Lemma is_waitKey_10_inv ev :
  is_waitKey_10 ev = true -> ev = Ev (waitKey 10) tt.
Proof.
  destruct ev as [T c r]. destruct c; simpl; intros H; try discriminate.
  apply Z.eqb_eq in H. subst delay. destruct r. reflexivity.
Qed.

(** Every program, every path: a frame fetch that did not return
    [QHYCCD_SUCCESS] is directly followed by [waitKey(10)], the last
    statement of the loop body. *)
Lemma failed_fetch_goes_on d budget tr o :
  path (main_of d budget) tr o ->
  forall l1 ev l2 p r,
    tr = l1 ++ ev :: l2 ->
    fetched ev = Some (p, r) ->
    r <> QHYCCD_SUCCESS ->
    exists l3, l2 = Ev (waitKey 10) tt :: l3.
Proof.
  intros P l1 ev l2 p r -> Fe Nr.
  destruct (safe_sound retry_step _ _ _ P _ _ (retry_main d budget))
    as (s & F & Q).
  rewrite feed_app in F.
  destruct (feed retry_step false l1) as [s1 |] eqn:F1; [| discriminate].
  cbn [feed] in F.
  destruct (retry_step s1 ev) as [s2 |] eqn:E; [| discriminate].
  assert (s2 = true) as ->.
  { unfold retry_step in E. destruct s1.
    - destruct ev as [T c a]. destruct c; simpl in Fe; try discriminate;
        simpl in E; discriminate.
    - rewrite Fe in E. injection E as <-.
      destruct (Z.eqb_spec r QHYCCD_SUCCESS); [contradiction | reflexivity]. }
  destruct l2 as [| e l3]; simpl in F.
  - injection F as <-. discriminate.
  - destruct (is_waitKey_10 e) eqn:W; [| discriminate].
    exists l3. rewrite (is_waitKey_10_inv _ W). reflexivity.
Qed.

End AbortFacts.

Section Cause.
Context {hdr : Header}.

Ltac loop_cause :=
  idtac;
  lazymatch goal with
  | |- safe _ (bind (find_camera _) _) ?s _ =>
      apply safe_bind; unfold find_camera, for_;
      lazymatch goal with
      | |- safe _ (for_steps ?n _ _ _) _ _ =>
          apply safe_for_steps_rel with
            (Inv := fun (m : nat) (_ : Z) v x =>
                      snd v = 0 /\ failed x = false /\ opened_yet x = false /\
                      id_seen x = false /\ cameras x = cameras s /\
                      (tried x + m = n)%nat)
      end;
      [ intros ? [? ?] [? ? ? ? ? ?] (? & ? & ? & ? & ? & ?);
        cbn [snd failed opened_yet id_seen tried cameras] in *; subst
      | intros ? ? [? ?] [? ? ? ? ? ?] (? & ? & ? & ? & ? & ?);
        cbn [snd failed opened_yet id_seen tried cameras] in *; subst
      | ]
  | |- safe _ _ _ _ =>
      loop_with (fun x => failed x = false /\ opened_yet x = true)
  end.

Ltac fin_cause :=
  idtac;
  first
    [ discriminate
    | cbn;
      repeat match goal with
             | H : _ = _ |- _ => progress rewrite H
             end;
      cbn; auto; fail
    | cbn;
      repeat match goal with
             | H : (_ =? _) = _ |- _ => progress rewrite H
             | H : (_ >? _) = _ |- _ => progress rewrite H
             end;
      cbn;
      first [ right; repeat split; eexists; split; [reflexivity | lia]
            | repeat split; lia ] ].

Lemma cause_main d budget :
  safe (cause_step d) (main_of d budget) cause_start
    (fun s o => o = Exited 1 ->
                failed s = true \/
                (d = base_test /\ opened_yet s = false /\ id_seen s = false /\
                 exists n, cameras s = Some n /\
                           tried s = Z.to_nat (int32 n - 0))).
Proof.
  destruct d; cbn [main_of].
  - unfold base_test_main. safe_all loop_cause fin_cause.
  - unfold test_base_main. safe_all loop_cause fin_cause.
  - unfold test_live_opencv_main. safe_all loop_cause fin_cause.
  - unfold test_single_opencv_main. safe_all loop_cause fin_cause.
Qed.

Lemma cause_failed d tr :
  forall s s', feed (cause_step d) s tr = Some s' -> failed s' = true ->
    failed s = true \/
    exists l1 ev l2,
      tr = l1 ++ ev :: l2 /\
      failed_check d (last_from (before s) l1) ev = true.
Proof.
  induction tr as [| ev tr IH]; intros s s' H F; simpl in H.
  - injection H as <-. auto.
  - destruct (IH _ _ H F) as [F1 | (l1 & e & l2 & -> & K)].
    + simpl in F1. apply orb_true_iff in F1. destruct F1 as [F1 | F1]; [auto |].
      right. exists [], ev, tr. auto.
    + right. exists (ev :: l1), e, l2. auto.
Qed.

Lemma cause_opened d tr :
  forall s s', feed (cause_step d) s tr = Some s' ->
    opened_yet s' = (opened_yet s || existsb is_open tr)%bool /\
    id_seen s' = (id_seen s || existsb id_read tr)%bool /\
    tried s' = (count is_id_query tr + tried s)%nat.
Proof.
  induction tr as [| ev tr IH]; intros s s' H; simpl in H.
  - injection H as <-. rewrite !orb_false_r. auto.
  - destruct (IH _ _ H) as (-> & -> & ->). simpl.
    rewrite !orb_assoc, count_cons. repeat split. lia.
Qed.

Lemma scanned_inv ev n : scanned ev = Some n -> ev = Ev ScanQHYCCD n.
Proof.
  destruct ev as [T c r]. destruct c; simpl; intros H; try discriminate.
  injection H as ->. reflexivity.
Qed.

Lemma cause_cameras d tr n :
  forall s s', feed (cause_step d) s tr = Some s' -> cameras s' = Some n ->
    cameras s = Some n \/ exists l1 l2, tr = l1 ++ Ev ScanQHYCCD n :: l2.
Proof.
  induction tr as [| ev tr IH]; intros s s' H C; simpl in H.
  - injection H as <-. auto.
  - destruct (IH _ _ H C) as [C1 | (l1 & l2 & ->)].
    + simpl in C1. destruct (scanned ev) as [m |] eqn:E; [| auto].
      injection C1 as ->. apply scanned_inv in E. subst ev.
      right. exists [], tr. reflexivity.
    + right. exists (ev :: l1), l2. reflexivity.
Qed.

(** Every program, every path: status 1 comes from a failed check, or, in
    base_test, from reading no camera id: then every index below the
    count [ScanQHYCCD] gave was asked for, no [GetQHYCCDId] call returned
    [QHYCCD_SUCCESS] and nothing was opened. *)
Lemma exit_1_has_cause d budget tr o :
  path (main_of d budget) tr o ->
  o = Exited 1 ->
  (exists l1 ev l2,
      tr = l1 ++ ev :: l2 /\ failed_check d (last_event l1) ev = true) \/
  (d = base_test /\ existsb is_open tr = false /\ existsb id_read tr = false /\
   exists l1 n l2,
     tr = l1 ++ Ev ScanQHYCCD n :: l2 /\
     count is_id_query tr = Z.to_nat (int32 n)).
Proof.
  intros P E.
  destruct (safe_sound (cause_step d) _ _ _ P _ _ (cause_main d budget))
    as (s & F & Q).
  destruct (Q E) as [Fl | (-> & O & I & n & C & T)].
  - destruct (cause_failed _ _ _ _ F Fl) as [? | H]; [discriminate | auto].
  - right. split; [reflexivity |].
    destruct (cause_opened _ _ _ _ F) as (O' & I' & T').
    rewrite O' in O. rewrite I' in I. split; [exact O |]. split; [exact I |].
    destruct (cause_cameras _ _ _ _ _ F C) as [? | (l1 & l2 & ->)];
      [discriminate |].
    exists l1, n, l2. split; [reflexivity |].
    rewrite T' in T. simpl in T. rewrite Z.sub_0_r in T. lia.
Qed.

End Cause.

(** ** Failures that do not end a run *)

Section Soft.
Context {hdr : Header}.

Ltac open_state :=
  repeat match goal with
         | s : soft_state |- _ => destruct s
         | H : _ /\ _ |- _ => destruct H
         | H : _ \/ _ |- _ => destruct H
         | H : exists _, _ |- _ => destruct H
         end;
  cbn [soft lost_frame snd] in *; subst.

Ltac loop_soft :=
  idtac;
  lazymatch goal with
  | |- safe _ (bind (find_camera _) _) _ _ =>
      apply safe_bind; unfold find_camera, for_;
      apply safe_for_steps_rel with
        (Inv := fun (_ : nat) i v x =>
                  snd v = 0 /\ lost_frame x = false /\
                  (soft x = Calm \/ exists j, soft x = IdFailed j /\ i = j + 1));
      [ intros ? [? ?] ? ?; open_state
      | intros ? ? [? ?] ? ?; open_state
      | ]
  | |- safe _ (bind (while_true _ _ _) _) _ _ =>
      apply safe_bind;
      apply safe_while with (Inv := fun x => soft x = Calm \/ soft x = Waited);
      [ intros ? ?; open_state
      | intros ? ? ?; open_state
      | ]
  | _ => loop_with (fun x => x = soft_start)
  end.

Ltac fin_soft :=
  idtac;
  first [ discriminate
        | exact I
        | reflexivity
        | cbn; split; [first [exact I | reflexivity] | easy]
        | cbn; split; [reflexivity |]; split; [reflexivity |];
          first [ now left | right; eexists; split; reflexivity ]
        | cbn; first [now left | now right] ].

Lemma soft_main d budget :
  safe (soft_step d) (main_of d budget) soft_start
    (fun s o =>
       match soft s with
       | Calm => True
       | Waited => o = Running
       | _ => False
       end /\
       (lost_frame s = true -> o <> Exited 1)).
Proof.
  destruct d; cbn [main_of].
  - unfold base_test_main. safe_all loop_soft fin_soft.
  - unfold test_base_main. safe_all loop_soft fin_soft.
  - unfold test_live_opencv_main. safe_all loop_soft fin_soft.
  - unfold test_single_opencv_main. safe_all loop_soft fin_soft.
Qed.

(** After one of the three failures the monitor stands where that failure
    puts it, wherever it stood before. *)
Lemma soft_after d s ev s1 p :
  soft_step d s ev = Some s1 -> soft_failure d ev = Some p ->
  soft s1 = p /\ (p = FetchFailed -> lost_frame s1 = true).
Proof.
  unfold soft_step. intros E K. rewrite K in E.
  destruct (expected (soft s) ev); [| discriminate]. injection E as <-.
  split; [reflexivity |]. intros ->. apply orb_true_r.
Qed.

Lemma soft_lost d tr :
  forall s s', feed (soft_step d) s tr = Some s' ->
               lost_frame s = true -> lost_frame s' = true.
Proof.
  induction tr as [| ev tr IH]; intros s s' F L; simpl in F.
  - injection F as <-. exact L.
  - destruct (soft_step d s ev) as [s1 |] eqn:E; [| discriminate].
    apply (IH _ _ F). unfold soft_step in E.
    destruct (expected (soft s) ev); [| discriminate]. injection E as <-.
    simpl. rewrite L. reflexivity.
Qed.

Lemma fetched_soft d ev p r :
  fetched ev = Some (p, r) -> r <> QHYCCD_SUCCESS ->
  soft_failure d ev = Some FetchFailed.
Proof.
  destruct ev as [T c a]. destruct c; simpl; intros H N; try discriminate;
    injection H as _ <-; destruct (Z.eqb_spec (fst a) QHYCCD_SUCCESS);
    congruence.
Qed.

Lemma asks_id_inv i ev :
  asks_id i ev = true -> exists a, ev = Ev (GetQHYCCDId i) a.
Proof.
  destruct ev as [T c a]. destruct c; simpl; intros H; try discriminate.
  apply Z.eqb_eq in H. subst. eauto.
Qed.

Lemma is_no_camera_line_inv ev :
  is_no_camera_line ev = true ->
  ev = Ev (printf "The camera is not QHYCCD or other error \n" []) tt.
Proof.
  destruct ev as [T c a]. destruct c; simpl; intros H; try discriminate.
  destruct args; [| discriminate]. apply String.eqb_eq in H. subst.
  destruct a. reflexivity.
Qed.

Lemma is_bits_line_inv ev :
  is_bits_line ev = true -> ev = Ev (printf "bit = 8.2\n" []) tt.
Proof.
  destruct ev as [T c a]. destruct c; simpl; intros H; try discriminate.
  destruct args; [| discriminate]. apply String.eqb_eq in H. subst.
  destruct a. reflexivity.
Qed.

Lemma sets_bits_inv h ev :
  sets_bits h ev = true -> exists r : Z, ev = Ev (SetQHYCCDBitsMode h 8) r.
Proof.
  destruct ev as [T c a]. destruct c; simpl; intros H; try discriminate.
  apply andb_true_iff in H. destruct H as [H1 H2].
  apply Z.eqb_eq in H1, H2. subst. eauto.
Qed.

(** How the monitor stands after the event [ev] of a path, and where the
    path ends from there. *)
Lemma soft_at d budget tr o :
  path (main_of d budget) tr o ->
  forall l1 ev l2 p,
    tr = l1 ++ ev :: l2 ->
    soft_failure d ev = Some p ->
    exists s2 s',
      soft s2 = p /\ (p = FetchFailed -> lost_frame s2 = true) /\
      feed (soft_step d) s2 l2 = Some s' /\
      match soft s' with
      | Calm => True
      | Waited => o = Running
      | _ => False
      end /\
      (lost_frame s' = true -> o <> Exited 1).
Proof.
  intros P l1 ev l2 p -> K.
  destruct (safe_sound (soft_step d) _ _ _ P _ _ (soft_main d budget))
    as (s & F & Q1 & Q2).
  rewrite feed_app in F.
  destruct (feed (soft_step d) soft_start l1) as [s1 |]; [| discriminate].
  cbn [feed] in F.
  destruct (soft_step d s1 ev) as [s2 |] eqn:E; [| discriminate].
  destruct (soft_after _ _ _ _ _ E K) as [A B].
  exists s2, s. auto.
Qed.

(** Every program, every path: a frame fetch that fails does not end the
    run.  [waitKey(10)] follows, then the head of the loop (the next
    fetch, or the prompt for a key) unless the budget of rounds is used
    up, and the run does not exit with status 1. *)
Lemma failed_fetch_loops d budget tr o :
  path (main_of d budget) tr o ->
  forall l1 ev l2 p r,
    tr = l1 ++ ev :: l2 ->
    fetched ev = Some (p, r) ->
    r <> QHYCCD_SUCCESS ->
    o <> Exited 1 /\
    exists l3,
      l2 = Ev (waitKey 10) tt :: l3 /\
      match l3 with
      | [] => o = Running
      | e :: _ => is_fetch e = true \/ is_prompt e = true
      end.
Proof.
  intros P l1 ev l2 p r E Fe N.
  destruct (soft_at d budget tr o P l1 ev l2 _ E (fetched_soft d _ _ _ Fe N))
    as (s2 & s' & A & B & F & Q1 & Q2).
  specialize (B eq_refl). split.
  { apply Q2. eapply soft_lost; eauto. }
  destruct l2 as [| e l3]; cbn [feed] in F.
  { injection F as <-. rewrite A in Q1. contradiction. }
  destruct (soft_step d s2 e) as [s3 |] eqn:E3; [| discriminate].
  unfold soft_step in E3. rewrite A in E3. cbn [expected] in E3.
  destruct (is_waitKey_10 e) eqn:W; [| discriminate].
  apply is_waitKey_10_inv in W. subst e. cbn in E3. injection E3 as <-.
  exists l3. split; [reflexivity |].
  destruct l3 as [| e' l4]; cbn [feed] in F.
  { injection F as <-. exact Q1. }
  destruct (soft_step d _ e') as [s4 |] eqn:E4; [| discriminate].
  unfold soft_step in E4. cbn [soft expected] in E4.
  destruct (is_fetch e' || is_prompt e') eqn:H; [| discriminate].
  apply orb_true_iff in H. exact H.
Qed.

(** base_test, every path: a [GetQHYCCDId] call that fails is followed by
    the call for the next index, or by the line that says no camera could
    be used. *)
Lemma failed_id_tries_next budget tr o :
  path (main_of base_test budget) tr o ->
  forall l1 i r id l2,
    tr = l1 ++ Ev (GetQHYCCDId i) (r, id) :: l2 ->
    r <> QHYCCD_SUCCESS ->
    exists e l3,
      l2 = e :: l3 /\
      ((exists a, e = Ev (GetQHYCCDId (i + 1)) a) \/
       e = Ev (printf "The camera is not QHYCCD or other error \n" []) tt).
Proof.
  intros P l1 i r id l2 E N.
  destruct (soft_at base_test budget tr o P l1 _ l2 (IdFailed i) E)
    as (s2 & s' & A & _ & F & Q1 & _).
  { cbn. destruct (Z.eqb_spec r QHYCCD_SUCCESS); [contradiction | reflexivity]. }
  destruct l2 as [| e l3]; cbn [feed] in F.
  { injection F as <-. rewrite A in Q1. contradiction. }
  destruct (soft_step base_test s2 e) as [s3 |] eqn:E3; [| discriminate].
  unfold soft_step in E3. rewrite A in E3. cbn [expected] in E3.
  destruct (asks_id (i + 1) e || is_no_camera_line e) eqn:H; [| discriminate].
  exists e, l3. split; [reflexivity |].
  apply orb_true_iff in H. destruct H as [H | H].
  - left. apply asks_id_inv. exact H.
  - right. apply is_no_camera_line_inv. exact H.
Qed.

(** base_test, every path: when [CONTROL_TRANSFERBIT] is not available,
    the next call is the [SetQHYCCDBitsMode] that is not guarded, with its
    line: the guarded one is skipped and nothing else. *)
Lemma no_transferbit_skips budget tr o :
  path (main_of base_test budget) tr o ->
  forall l1 h r l2,
    tr = l1 ++ Ev (IsQHYCCDControlAvailable h CONTROL_TRANSFERBIT) r :: l2 ->
    r <> QHYCCD_SUCCESS ->
    exists (r' : Z) l3,
      l2 = Ev (SetQHYCCDBitsMode h 8) r'
           :: Ev (printf "bit = 8.2\n" []) tt :: l3.
Proof.
  intros P l1 h r l2 E N.
  destruct (soft_at base_test budget tr o P l1 _ l2 (BitSkipped h) E)
    as (s2 & s' & A & _ & F & Q1 & _).
  { cbn. destruct (Z.eqb_spec r QHYCCD_SUCCESS); [contradiction | reflexivity]. }
  destruct l2 as [| e l3]; cbn [feed] in F.
  { injection F as <-. rewrite A in Q1. contradiction. }
  destruct (soft_step base_test s2 e) as [s3 |] eqn:E3; [| discriminate].
  unfold soft_step in E3. rewrite A in E3. cbn [expected] in E3.
  destruct (sets_bits h e) eqn:H; [| discriminate].
  destruct (sets_bits_inv _ _ H) as [r' ->]. cbn in E3. injection E3 as <-.
  destruct l3 as [| e' l4]; cbn [feed] in F.
  { injection F as <-. contradiction. }
  destruct (soft_step base_test _ e') as [s4 |] eqn:E4; [| discriminate].
  unfold soft_step in E4. cbn [soft expected] in E4.
  destruct (is_bits_line e') eqn:H'; [| discriminate].
  apply is_bits_line_inv in H'. subst e'. eauto.
Qed.

End Soft.





(** ** The live loop *)

Section Live.
Context {hdr : Header}.

(** With a budget of [budget] iterations the loop makes [budget] fetches
    and is still running. *)
Lemma live_loop_runs h buf :
  forall budget v n,
    safe live_step (while_true budget (live_iteration h buf) v) n
      (fun s o => o = Running /\ s = (n + budget)%nat).
Proof.
  induction budget as [| b IH]; intros v n; cbn [while_true].
  - simpl. split; [reflexivity | lia].
  - apply safe_bind. safe_go.
    all: eapply safe_mono; [| apply IH];
      cbn beta; intros fs fo [-> ->]; split; [reflexivity | lia].
Qed.

Lemma live_main budget :
  safe live_step (test_live_opencv_main budget) 0%nat
    (fun s o => (o = Running /\ s = budget) \/ (o = Exited 1 /\ s = 0%nat)).
Proof.
  unfold test_live_opencv_main. safe_go.
  all: try (right; split; reflexivity).
  apply safe_bind. eapply safe_mono; [| apply live_loop_runs].
  cbn beta. intros fs fo [-> ->]. left. split; reflexivity.
Qed.

Lemma live_counts tr :
  forall n s, feed live_step n tr = Some s ->
    s = (n + count is_fetch tr)%nat /\
    Forall (fun e => is_teardown e = false) tr.
Proof.
  induction tr as [| ev tr IH]; intros n s H; simpl in H.
  - injection H as <-. unfold count. simpl. split; [lia | constructor].
  - unfold live_step at 1 in H.
    destruct (is_teardown ev) eqn:T; [discriminate |].
    destruct (IH _ _ H) as [-> A]. rewrite count_cons.
    split; [| constructor; assumption].
    destruct (is_fetch ev); lia.
Qed.

End Live.

(** C8: in [test_live_opencv], whatever the frame fetches return, the
    acquisition loop does not end: given any number of iterations it makes
    that many fetches and is still running.  So no run of the program
    returns 0, and none calls [StopQHYCCDLive], [CloseQHYCCD] or
    [ReleaseQHYCCDResource]: a run either left with status 1 before the loop
    or is still in the loop. *)
Theorem live_loop_never_ends {hdr : Header} budget :
  (forall h buf v tr o,
      path (while_true budget (live_iteration h buf) v) tr o ->
      o = Running /\ count is_fetch tr = budget) /\
  (forall tr o,
      path (test_live_opencv_main budget) tr o ->
      Forall (fun e => is_teardown e = false) tr /\
      ((o = Running /\ count is_fetch tr = budget) \/
       (o = Exited 1 /\ count is_fetch tr = 0%nat))).
Proof.
  split.
  - intros h buf v tr o P.
    destruct (safe_sound live_step _ _ _ P _ _ (live_loop_runs h buf budget v 0%nat))
      as (s & F & -> & ->).
    destruct (live_counts _ _ _ F) as [E _]. simpl in E.
    split; [reflexivity | lia].
  - intros tr o P.
    destruct (safe_sound live_step _ _ _ P _ _ (live_main budget)) as (s & F & Q).
    destruct (live_counts _ _ _ F) as [E A]. simpl in E. subst s.
    split; [exact A |].
    destruct Q as [[-> <-] | [-> <-]]; auto.
Qed.

(** ** Firmware version *)

Lemma byte_fields (b : byte) :
  let z := Z.of_N (Byte.to_N b) in
  Z.land z (Z.lnot 0xf0) = Z.land z 0x0F /\
  uint8 z = z /\
  uint8 (Z.land z (Z.lnot 0xf0)) = Z.land z 0x0F /\
  uint8 (Z.shiftr z 4 + 0x10) = Z.shiftr z 4 + 0x10 /\
  uint8 (Z.shiftr z 4) = Z.shiftr z 4.
Proof.
  destruct b; vm_compute; repeat split; reflexivity.
Qed.

(** C9: for every firmware byte array, [FirmWareVersion] of base_test and
    the inline code of test_base hand the same three numbers to their
    format: major is [(fwv[0] >> 4) + 16] when [fwv[0] >> 4 <= 9] and
    [fwv[0] >> 4] otherwise, minor is [fwv[0] & 0x0F], patch is [fwv[1]];
    and these are the numbers each prints when [GetQHYCCDFWVersion] hands
    back that array ([FirmWareVersion] prints them on [QHYCCD_SUCCESS]). *)
Theorem firmware_decodings_agree {hdr : Header} (fwv : list byte) :
  let major := if Z.shiftr (at_ fwv 0) 4 <=? 9
               then Z.shiftr (at_ fwv 0) 4 + 16
               else Z.shiftr (at_ fwv 0) 4 in
  let minor := Z.land (at_ fwv 0) 0x0F in
  let patch := at_ fwv 1 in
  FirmWareVersion_numbers fwv = [major; minor; patch] /\
  fwv_version fwv = [major; minor; patch] /\
  (forall h,
      path (FirmWareVersion h)
        [Ev (GetQHYCCDFWVersion h) (QHYCCD_SUCCESS, fwv);
         Ev (fprintf_stderr "%s\n"
               [VFmt "Firmware version:20%d_%d_%d\n"
                  [VInt major; VInt minor; VInt patch]]) tt]
        (Done tt)) /\
  (forall h ret,
      path (test_base_firmware h)
        [Ev (GetQHYCCDFWVersion h) (ret, fwv);
         Ev (printf "firmware version: %d_%d_%d\n"
               [VInt major; VInt minor; VInt patch]) tt]
        (Done tt)).
Proof.
  intros major minor patch.
  assert (E1 : FirmWareVersion_numbers fwv = [major; minor; patch]).
  { unfold FirmWareVersion_numbers, major, minor, patch, at_.
    destruct (byte_fields (nth 0 fwv x00)) as (L & _).
    cbv zeta in L. rewrite L.
    destruct (Z.shiftr _ 4 <=? 9); reflexivity. }
  assert (E2 : fwv_version fwv = [major; minor; patch]).
  { unfold fwv_version, major, minor, patch, at_.
    destruct (byte_fields (nth 0 fwv x00)) as (_ & _ & L & H1 & H2).
    destruct (byte_fields (nth 1 fwv x00)) as (_ & U & _).
    cbv zeta in L, H1, H2, U. rewrite L, U.
    destruct (Z.shiftr _ 4 <=? 9); [rewrite H1 | rewrite H2]; reflexivity. }
  split; [exact E1 |]. split; [exact E2 |]. split.
  - intros h. unfold FirmWareVersion. cbn [bind do].
    apply (path_Vis _ (GetQHYCCDFWVersion h) _ (QHYCCD_SUCCESS, fwv)).
    cbn [bind]. rewrite Z.eqb_refl, E1.
    apply (path_Vis _ (fprintf_stderr _ _) _ tt). constructor.
  - intros h ret. unfold test_base_firmware. cbn [bind do].
    apply (path_Vis _ (GetQHYCCDFWVersion h) _ (ret, fwv)).
    cbn [bind]. rewrite E2.
    apply (path_Vis _ (printf _ _) _ tt). constructor.
Qed.

(** ** One round of the interactive loop *)

Lemma collect_feed tr : forall s, feed collect_step s tr = Some (s ++ tr).
Proof.
  induction tr as [| ev tr IH]; intros s; simpl.
  - rewrite app_nil_r. reflexivity.
  - rewrite IH, <- app_assoc. reflexivity.
Qed.

Lemma safe_collect {A : Type} (p : prog A) (Q : trace -> outcome A -> Prop) :
  safe collect_step p [] Q -> forall tr o, path p tr o -> Q tr o.
Proof.
  intros H tr o P.
  destruct (safe_sound collect_step _ _ _ P _ _ H) as (s & F & K).
  rewrite collect_feed in F. injection F as <-. exact K.
Qed.

(** Solve [x1 :: ... :: xn :: m = ?l ++ m] for [?l]. *)
Ltac peel :=
  lazymatch goal with
  | |- ?m = ?l ++ ?m => unify l (@nil event); reflexivity
  | |- ?x :: _ = ?l ++ _ =>
      let l' := open_constr:(_ : list event) in
      unify l (x :: l'); cbn [app]; apply f_equal; peel
  end.

Ltac units :=
  repeat match goal with
         | u : unit |- _ => destruct u
         end.

(** Whatever a program can still do is accepted by the collecting monitor,
    which ends holding the trace so far followed by what was done. *)
Lemma collect_complete {A : Type} (p : prog A) :
  forall s, safe collect_step p s
              (fun s' o => exists more, s' = s ++ more /\ path p more o).
Proof.
  induction p as [a | n | | T c k IH]; intros s; simpl.
  - exists []. rewrite app_nil_r. split; [reflexivity | constructor].
  - exists []. rewrite app_nil_r. split; [reflexivity | constructor].
  - exists []. rewrite app_nil_r. split; [reflexivity | constructor].
  - intros r. eapply safe_mono; [| apply IH].
    intros s' o (more & -> & P). exists (Ev c r :: more).
    rewrite <- app_assoc. split; [reflexivity | constructor; exact P].
Qed.

(** C10: in [test_single_opencv], a round of the interactive loop prints the
    prompt and reads a character [c].  When [c] is [q] or [Q] the round
    prints the quit message and the loop is left; for any other character
    the round makes one [ExpQHYCCDSingleFrame], then (after the 300 ms
    sleep) one [GetQHYCCDSingleFrame], no further exposure or fetch, and the
    loop goes round again: what follows is a run of the loop itself.  So the
    loop is left in a round exactly when the character read is [q] or
    [Q]. *)
Theorem single_loop_quits_on_q_only {hdr : Header} n h buf v tr o :
  path (while_true (S n) (single_iteration h buf) v) tr o ->
  exists c rest,
    tr = Ev (cout [VStr " 'q' = quit      any = continue "]) tt
         :: Ev cin_char c :: rest /\
    (c = "q"%char \/ c = "Q"%char ->
     rest = [Ev (cout [VStr "quit \n"]) tt] /\ o = Done tt) /\
    (c <> "q"%char -> c <> "Q"%char ->
     exists (r1 : Z) r2 shown v' more,
       rest = Ev (ExpQHYCCDSingleFrame h) r1
              :: Ev (sleep_for_milliseconds 300) tt
              :: Ev (GetQHYCCDSingleFrame h buf) r2 :: shown ++ more /\
       count is_exposure shown = 0%nat /\
       count is_fetch shown = 0%nat /\
       path (while_true n (single_iteration h buf) v') more o).
Proof.
  revert tr o. apply safe_collect.
  cbn [while_true]. apply safe_bind.
  unfold single_iteration. safe_go; units; cbn [app].
  all: repeat match goal with
              | H : Ascii.eqb _ _ = true |- _ => apply Ascii.eqb_eq in H
              | H : Ascii.eqb _ _ = false |- _ => apply Ascii.eqb_neq in H
              end.
  all: try (eexists _, _; split; [reflexivity |]; split;
            [ intros _; split; reflexivity
            | intros N1 N2; congruence ]).
  all: eapply safe_mono; [| apply collect_complete].
  all: cbn beta; intros s' o' (more & -> & P); cbn [app].
  all: eexists _, _; split; [reflexivity |]; split;
    [ intros [N | N]; congruence | intros _ _ ].
  all: eexists _, (_, _), _, _, more; split; [| split; [| split; [| exact P]]].
  all: try (do 3 (apply (f_equal2 cons); [reflexivity |]); peel).
  all: reflexivity.
Qed.

(** ** The theorems at concrete runs *)

(** base_test on an SDK where every call succeeds: the run exits with
    status 0 and releases the handle once. *)
Lemma handle_released_at_most_once_witness :
  path (main_of (hdr := qhyccd_h) base_test 0)
    (fst (run_of sdk_ok base_test 0)) (Exited 0) /\
  count is_close (fst (run_of sdk_ok base_test 0)) = 1%nat.
Proof.
  pose proof (run_of_path sdk_ok base_test 0) as P.
  split; [exact P |].
  destruct (handle_released_at_most_once (hdr := qhyccd_h) base_test 0%nat _ _ P)
    as (_ & E & _).
  apply E. reflexivity.
Defined.


(** base_test on an SDK where every call succeeds: the staged calls are in
    order. *)
Lemma sdk_calls_follow_stage_order_witness :
  StronglySorted le (stages (fst (run_of sdk_ok base_test 0))).
Proof.
  pose proof (run_of_path sdk_ok base_test 0) as P.
  destruct (sdk_calls_follow_stage_order (hdr := qhyccd_h) base_test 0%nat _ _ P)
    as (S & _).
  exact S.
Defined.

(** base_test when [GetQHYCCDMemLength] hands back [0xFFFFFFFF]: kept in
    an [int] the length is -1, nothing is allocated and the run exits with
    status 1. *)
Lemma buffer_allocated_once_with_sdk_length_witness :
  let tr := fst (run_of sdk_huge_length base_test 0) in
  let ev := Ev (GetQHYCCDMemLength 4096) 0xFFFFFFFF in
  tr = firstn 32 tr ++ ev :: skipn 33 tr /\
  int32 0xFFFFFFFF = -1 /\
  snd (run_of sdk_huge_length base_test 0) = Exited 1 /\
  count is_malloc tr = 0%nat.
Proof.
  intros tr ev.
  pose proof (run_of_path sdk_huge_length base_test 0) as P.
  assert (E : tr = firstn 32 tr ++ ev :: skipn 33 tr) by (vm_compute; reflexivity).
  split; [exact E |]. split; [reflexivity |].
  refine (proj1 (proj2 (proj2 (proj2
            (buffer_allocated_once_with_sdk_length (hdr := qhyccd_h)
               base_test 0%nat _ _ P)))) eq_refl _ _ _ _ E _).
  vm_compute. discriminate.
Defined.

(** test_live_opencv, two rounds of the loop: the first [imshow] comes after
    a successful fetch into the buffer it shows. *)
Lemma buffer_read_follows_successful_fetch_witness :
  let tr := fst (run_of sdk_ok test_live_opencv 2) in
  reads (nth 27 tr (Ev getchar tt)) = Some 65536 /\
  exists l0 f l',
    firstn 27 tr = l0 ++ f :: l' /\
    fetched f = Some (65536, 0) /\
    Forall (fun e => fetched e = None) l'.
Proof.
  pose proof (run_of_path sdk_ok test_live_opencv 2) as P.
  split; [reflexivity |].
  apply (buffer_read_follows_successful_fetch (hdr := qhyccd_h)
           test_live_opencv 2%nat _ _ P
           (firstn 27 (fst (run_of sdk_ok test_live_opencv 2)))
           (nth 27 (fst (run_of sdk_ok test_live_opencv 2)) (Ev getchar tt))
           (skipn 28 (fst (run_of sdk_ok test_live_opencv 2)))
           65536).
  - vm_compute. reflexivity.
  - reflexivity.
Defined.


(** test_live_opencv with a budget of three rounds: three fetches, still
    running, no teardown call. *)
Lemma live_loop_never_ends_witness :
  let tr := fst (run_of sdk_ok test_live_opencv 3) in
  Forall (fun e => is_teardown e = false) tr /\
  ((snd (run_of sdk_ok test_live_opencv 3) = Running /\ count is_fetch tr = 3%nat) \/
   (snd (run_of sdk_ok test_live_opencv 3) = Exited 1 /\ count is_fetch tr = 0%nat)).
Proof.
  destruct (live_loop_never_ends (hdr := qhyccd_h) 3) as [_ M].
  exact (M _ _ (run_of_path sdk_ok test_live_opencv 3)).
Defined.

(** The user types [q] in the first round: the loop is left at once. *)
Lemma single_loop_quits_on_q_only_witness :
  let p := while_true 1 (single_iteration (hdr := qhyccd_h) 4096 65536)
             {| frame_count := 0; fps := 0; t_start := 0 |} in
  exists c rest,
    fst (run sdk_ok p)
    = Ev (cout [VStr " 'q' = quit      any = continue "]) tt
      :: Ev cin_char c :: rest /\
    (c = "q"%char \/ c = "Q"%char ->
     rest = [Ev (cout [VStr "quit \n"]) tt] /\ snd (run sdk_ok p) = Done tt) /\
    (c <> "q"%char -> c <> "Q"%char ->
     exists (r1 : Z) r2 shown v' more,
       rest = Ev (ExpQHYCCDSingleFrame 4096) r1
              :: Ev (sleep_for_milliseconds 300) tt
              :: Ev (GetQHYCCDSingleFrame 4096 65536) r2 :: shown ++ more /\
       count is_exposure shown = 0%nat /\
       count is_fetch shown = 0%nat /\
       path (while_true 0 (single_iteration (hdr := qhyccd_h) 4096 65536) v')
         more (snd (run sdk_ok p))).
Proof.
  exact (single_loop_quits_on_q_only (hdr := qhyccd_h) 0 4096 65536 _ _ _
           (run_from_path sdk_ok _ [])).
Defined.

(** * Further properties of the programs *)

(** ** Firmware version numbers *)

Lemma byte_version_bounds (b : byte) :
  let z := Z.of_N (Byte.to_N b) in
  0 <= z <= 255 /\
  0 <= Z.land z 0x0F <= 15 /\
  10 <= (if Z.shiftr z 4 <=? 9 then Z.shiftr z 4 + 16 else Z.shiftr z 4) <= 25 /\
  (if (if Z.shiftr z 4 <=? 9 then Z.shiftr z 4 + 16 else Z.shiftr z 4) <? 16
   then (if Z.shiftr z 4 <=? 9 then Z.shiftr z 4 + 16 else Z.shiftr z 4)
   else (if Z.shiftr z 4 <=? 9 then Z.shiftr z 4 + 16 else Z.shiftr z 4) - 16)
  * 16 + Z.land z 0x0F = z.
Proof.
  destruct b; vm_compute; repeat split; intros; discriminate.
Qed.

(** The three numbers in closed form (shared by the facts below). *)
Lemma firmware_numbers_closed (fwv : list byte) :
  let high := Z.shiftr (at_ fwv 0) 4 in
  let major := if high <=? 9 then high + 16 else high in
  FirmWareVersion_numbers fwv = [major; Z.land (at_ fwv 0) 0x0F; at_ fwv 1] /\
  fwv_version fwv = [major; Z.land (at_ fwv 0) 0x0F; at_ fwv 1].
Proof.
  cbv zeta. unfold FirmWareVersion_numbers, fwv_version, at_.
  destruct (byte_fields (nth 0 fwv x00)) as (L & _ & L8 & H1 & H2).
  destruct (byte_fields (nth 1 fwv x00)) as (_ & U & _).
  cbv zeta in L, L8, H1, H2, U. rewrite L8, L, U.
  destruct (Z.shiftr _ 4 <=? 9); rewrite ?H1, ?H2; split; reflexivity.
Qed.

(** X1: whatever the firmware bytes are, the numbers both programs print
    stay in range: the major number (printed after "20" by
    [FirmWareVersion]) is between 10 and 25, the minor number between 0 and
    15, the patch number between 0 and 255. *)
Theorem firmware_numbers_in_range (fwv : list byte) :
  exists major minor patch,
    FirmWareVersion_numbers fwv = [major; minor; patch] /\
    fwv_version fwv = [major; minor; patch] /\
    10 <= major <= 25 /\ 0 <= minor <= 15 /\ 0 <= patch <= 255.
Proof.
  destruct (firmware_numbers_closed fwv) as [E1 E2]. cbv zeta in E1, E2.
  eexists _, _, _. split; [exact E1 |]. split; [exact E2 |].
  unfold at_.
  destruct (byte_version_bounds (nth 0 fwv x00)) as (_ & Mi & Ma & _).
  destruct (byte_version_bounds (nth 1 fwv x00)) as (Pa & _).
  cbv zeta in Mi, Ma, Pa. auto.
Qed.

(** X2: the decoding loses nothing: two firmware arrays that give the same
    three numbers agree on the two bytes the numbers are computed from. *)
Theorem firmware_numbers_determine_bytes (fwv1 fwv2 : list byte) :
  FirmWareVersion_numbers fwv1 = FirmWareVersion_numbers fwv2 ->
  at_ fwv1 0 = at_ fwv2 0 /\ at_ fwv1 1 = at_ fwv2 1.
Proof.
  intros E.
  destruct (firmware_numbers_closed fwv1) as [E1 _].
  destruct (firmware_numbers_closed fwv2) as [E2 _].
  cbv zeta in E1, E2. rewrite E1, E2 in E. injection E as Ma Mi Pa.
  split; [| exact Pa]. unfold at_ in *.
  destruct (byte_version_bounds (nth 0 fwv1 x00)) as (_ & _ & _ & R1).
  destruct (byte_version_bounds (nth 0 fwv2 x00)) as (_ & _ & _ & R2).
  cbv zeta in R1, R2. rewrite <- R1, <- R2, Ma, Mi. reflexivity.
Qed.

Lemma firmware_numbers_determine_bytes_witness :
  at_ [x91; x0c] 0 = at_ [x91; x0c; x00] 0 /\
  at_ [x91; x0c] 1 = at_ [x91; x0c; x00] 1.
Proof.
  apply (firmware_numbers_determine_bytes [x91; x0c] [x91; x0c; x00]).
  reflexivity.
Defined.

(** ** [SDKVersion] *)

(** X4: [SDKVersion] makes one SDK call and prints one line on stderr.  The
    format it picks puts a [0] before the month exactly when the month is
    below 10 and the day is not 10, and a [0] before the day exactly when
    the day is below 10 and the month is not 10: on the tenth of a month, or
    in October, nothing is padded. *)
Theorem SDKVersion_padding tr o :
  path SDKVersion tr o ->
  exists y m d s fmt,
    tr = [Ev GetQHYCCDSDKVersion (y, m, d, s);
          Ev (fprintf_stderr "QHYCCD SDK Version: %s\n"
                [VFmt fmt [VInt y; VInt m; VInt d; VInt s]]) tt] /\
    o = Done tt /\
    (pads_month fmt = true <-> m < 10 /\ d <> 10) /\
    (pads_day fmt = true <-> d < 10 /\ m <> 10).
Proof.
  revert tr o. apply safe_collect.
  unfold SDKVersion. safe_go; units; cbn [app].
  all: repeat match goal with
              | H : (_ >? _) = _ |- _ => rewrite Z.gtb_ltb in H
              | H : (_ <? _) = true |- _ => apply Z.ltb_lt in H
              | H : (_ <? _) = false |- _ => apply Z.ltb_ge in H
              end.
  all: eexists _, _, _, _, _; split; [reflexivity |]; split; [reflexivity |].
  all: split; split; intros K; try discriminate K;
    try (vm_compute; reflexivity); lia.
Qed.

Lemma SDKVersion_padding_witness :
  exists y m d s fmt,
    fst (run sdk_ok SDKVersion)
    = [Ev GetQHYCCDSDKVersion (y, m, d, s);
       Ev (fprintf_stderr "QHYCCD SDK Version: %s\n"
             [VFmt fmt [VInt y; VInt m; VInt d; VInt s]]) tt] /\
    snd (run sdk_ok SDKVersion) = Done tt /\
    (pads_month fmt = true <-> m < 10 /\ d <> 10) /\
    (pads_day fmt = true <-> d < 10 /\ m <> 10).
Proof.
  exact (SDKVersion_padding _ _ (run_from_path sdk_ok _ [])).
Defined.

(** ** Where a value comes from *)

Section ProvenanceFacts.
Context {V : Type} (produces : event -> option V)
  (needs : event -> bool) (accepts : V -> event -> bool).

Lemma prov_holds l1 ev l2 :
  forall s s',
    feed (prov_step produces needs accepts) s (l1 ++ ev :: l2) = Some s' ->
    produces ev = None -> needs ev = true ->
    (exists l0 p v l',
        l1 = l0 ++ p :: l' /\ produces p = Some v /\
        Forall (fun e => produces e = None) l' /\ accepts v ev = true) \/
    (exists v, s = Some v /\ accepts v ev = true /\
               Forall (fun e => produces e = None) l1).
Proof.
  induction l1 as [| e l1 IH]; intros s s' F P N; simpl in F.
  - unfold prov_step at 1 in F. rewrite P, N in F.
    destruct s as [v |]; [| discriminate].
    destruct (accepts v ev) eqn:A; [| discriminate].
    right. exists v. auto.
  - destruct (prov_step produces needs accepts s e) as [s1 |] eqn:E;
      [| discriminate].
    destruct (IH _ _ F P N) as [(l0 & p & v & l' & -> & Pp & Fl & A)
                               | (v & -> & A & Fl)].
    + left. exists (e :: l0), p, v, l'. auto.
    + unfold prov_step in E. destruct (produces e) as [v' |] eqn:Pe.
      * injection E as ->. left. exists [], e, v, l1. auto.
      * right. exists v.
        destruct (needs e).
        -- destruct s as [v0 |]; [| discriminate].
           destruct (accepts v0 e); [| discriminate].
           injection E as ->. auto.
        -- injection E as ->. auto.
Qed.

(** From the start, a call that needs a value finds the latest one
    produced before it, and fits it. *)
Lemma prov_sound tr s' :
  feed (prov_step produces needs accepts) None tr = Some s' ->
  forall l1 ev l2,
    tr = l1 ++ ev :: l2 -> produces ev = None -> needs ev = true ->
    exists l0 p v l',
      l1 = l0 ++ p :: l' /\ produces p = Some v /\
      Forall (fun e => produces e = None) l' /\ accepts v ev = true.
Proof.
  intros F l1 ev l2 -> P N.
  destruct (prov_holds _ _ _ _ _ F P N) as [H | (v & ? & _)];
    [exact H | discriminate].
Qed.

End ProvenanceFacts.

Lemma never_holds bad tr :
  forall s s', feed (never_step bad) s tr = Some s' ->
               Forall (fun e => bad e = false) tr.
Proof.
  induction tr as [| ev tr IH]; intros s s' F; [constructor |].
  simpl in F. unfold never_step at 1 in F.
  destruct (bad ev) eqn:B; [discriminate |]. constructor; eauto.
Qed.

(** ** The handle given to the SDK *)

Section Handles.
Context {hdr : Header}.

Lemma handle_main d budget :
  safe (prov_step opened takes_handle (same_handle d)) (main_of d budget) None
    (fun _ _ => True).
Proof.
  destruct d; cbn [main_of].
  - unfold base_test_main. safe_all loop_same ltac:(idtac; first [exact I | reflexivity]).
  - unfold test_base_main. safe_all loop_same ltac:(idtac; first [exact I | reflexivity]).
  - unfold test_live_opencv_main. safe_all loop_same ltac:(idtac; first [exact I | reflexivity]).
  - unfold test_single_opencv_main. safe_all loop_same ltac:(idtac; first [exact I | reflexivity]).
Qed.

End Handles.

Lemma opened_no_handle ev h : handle_of ev = Some h -> opened ev = None.
Proof.
  destruct ev as [T c r]. destruct c; simpl; intros H; try discriminate; reflexivity.
Qed.

(** X5: every SDK call that takes a device handle is given the handle that
    the latest [OpenQHYCCD] handed back; in base_test that handle is not
    [NULL]. *)
Theorem handle_comes_from_open {hdr : Header} d budget tr o :
  path (main_of d budget) tr o ->
  forall l1 ev l2 h,
    tr = l1 ++ ev :: l2 ->
    handle_of ev = Some h ->
    exists l0 id l',
      l1 = l0 ++ Ev (OpenQHYCCD id) h :: l' /\
      Forall (fun e => opened e = None) l' /\
      (d = base_test -> h <> NULL).
Proof.
  intros P l1 ev l2 h E H.
  destruct (safe_sound _ _ _ _ P _ _ (handle_main d budget)) as (s & F & _).
  destruct (prov_sound _ _ _ _ _ F l1 ev l2 E (opened_no_handle _ _ H))
    as (l0 & p & v & l' & -> & Pp & Fl & A).
  - unfold takes_handle. rewrite H. reflexivity.
  - destruct (opened_inv _ _ Pp) as [id ->].
    unfold same_handle in A. rewrite H in A.
    apply andb_true_iff in A. destruct A as [A1 A2].
    apply Z.eqb_eq in A1. subst v.
    exists l0, id, l'. split; [reflexivity |]. split; [exact Fl |].
    intros ->. simpl in A2. intros ->. discriminate.
Qed.

(** ** The region set with [SetQHYCCDResolution] *)

Section Region.
Context {hdr : Header}.

Ltac fin_true := idtac; first [exact I | reflexivity].

Lemma region_main d budget :
  safe (prov_step chip_answer sets_resolution (full_chip d)) (main_of d budget)
    None (fun _ _ => True).
Proof.
  destruct d; cbn [main_of].
  - unfold base_test_main. safe_all loop_same fin_true.
  - unfold test_base_main. safe_all loop_same fin_true.
  - unfold test_live_opencv_main. safe_all loop_same fin_true.
  - unfold test_single_opencv_main. safe_all loop_same fin_true.
Qed.

Lemma buffer_main d budget :
  safe (prov_step allocated takes_buffer in_buffer) (main_of d budget)
    None (fun _ _ => True).
Proof.
  destruct d; cbn [main_of].
  - unfold base_test_main. safe_all loop_same fin_true.
  - unfold test_base_main. safe_all loop_same fin_true.
  - unfold test_live_opencv_main. safe_all loop_same fin_true.
  - unfold test_single_opencv_main. safe_all loop_same fin_true.
Qed.

Lemma mode_main d budget :
  safe (prov_step stream_mode acquires in_mode) (main_of d budget)
    None (fun _ _ => True).
Proof.
  destruct d; cbn [main_of].
  - unfold base_test_main. safe_all loop_same fin_true.
  - unfold test_base_main. safe_all loop_same fin_true.
  - unfold test_live_opencv_main. safe_all loop_same fin_true.
  - unfold test_single_opencv_main. safe_all loop_same fin_true.
Qed.

Lemma exposure_main d budget :
  safe (prov_step exposure_set is_fetch exposed) (main_of d budget)
    None (fun _ _ => True).
Proof.
  destruct d; cbn [main_of].
  - unfold base_test_main. safe_all loop_same fin_true.
  - unfold test_base_main. safe_all loop_same fin_true.
  - unfold test_live_opencv_main. safe_all loop_same fin_true.
  - unfold test_single_opencv_main. safe_all loop_same fin_true.
Qed.

Lemma begun_main d budget :
  safe (prov_step begun is_live_fetch (on_handle live_fetch)) (main_of d budget)
    None (fun _ _ => True).
Proof.
  destruct d; cbn [main_of].
  - unfold base_test_main. safe_all loop_same fin_true.
  - unfold test_base_main. safe_all loop_same fin_true.
  - unfold test_live_opencv_main. safe_all loop_same fin_true.
  - unfold test_single_opencv_main. safe_all loop_same fin_true.
Qed.

End Region.

Lemma chip_answer_inv ev h rc ci :
  chip_answer ev = Some (h, rc, ci) -> ev = Ev (GetQHYCCDChipInfo h) (rc, ci).
Proof.
  destruct ev as [T c r]. destruct c; simpl; intros H; try discriminate.
  destruct r. injection H as -> -> ->. reflexivity.
Qed.

(** X6: [SetQHYCCDResolution] is always asked for the whole chip: origin
    (0,0) and the width and height that the latest [GetQHYCCDChipInfo] on
    the same handle wrote; in base_test that call had returned
    [QHYCCD_SUCCESS]. *)
Theorem resolution_is_full_chip {hdr : Header} d budget tr o :
  path (main_of d budget) tr o ->
  forall l1 h x y xsize ysize (r : Z) l2,
    tr = l1 ++ Ev (SetQHYCCDResolution h x y xsize ysize) r :: l2 ->
    x = 0 /\ y = 0 /\
    exists l0 rc ci l',
      l1 = l0 ++ Ev (GetQHYCCDChipInfo h) (rc, ci) :: l' /\
      Forall (fun e => chip_answer e = None) l' /\
      xsize = imagew ci /\ ysize = imageh ci /\
      (d = base_test -> rc = QHYCCD_SUCCESS).
Proof.
  intros P l1 h x y xsize ysize r l2 E.
  destruct (safe_sound _ _ _ _ P _ _ (region_main d budget)) as (s & F & _).
  destruct (prov_sound _ _ _ _ _ F l1 _ l2 E eq_refl eq_refl)
    as (l0 & p & [[h0 rc] ci] & l' & -> & Pp & Fl & A).
  apply chip_answer_inv in Pp. subst p.
  cbn [full_chip resolution_call] in A.
  repeat (apply andb_true_iff in A; destruct A as [A ?]).
  repeat match goal with
         | H : (_ =? _) = true |- _ => apply Z.eqb_eq in H
         end.
  subst. split; [reflexivity |]. split; [reflexivity |].
  exists l0, rc, ci, l'. repeat split; auto.
  intros ->. simpl in *. apply Z.eqb_eq. assumption.
Qed.

Lemma allocated_inv ev p n : allocated ev = Some (p, n) -> ev = Ev (malloc n) p.
Proof.
  destruct ev as [T c r]. destruct c; simpl; intros H; try discriminate.
  injection H as -> ->. reflexivity.
Qed.

Lemma buffer_not_allocated ev p : buffer_of ev = Some p -> allocated ev = None.
Proof.
  destruct ev as [T c r]. destruct c; simpl; intros H; try discriminate; reflexivity.
Qed.

(** X7: the memory a call is pointed at ([memset], a frame fetch, the [Mat]
    given to [imshow]) is what the latest [malloc] handed back, and [memset]
    writes zeros over exactly the size that was asked of [malloc]. *)
Theorem buffer_comes_from_malloc {hdr : Header} d budget tr o :
  path (main_of d budget) tr o ->
  forall l1 ev l2 p,
    tr = l1 ++ ev :: l2 ->
    buffer_of ev = Some p ->
    exists l0 n l',
      l1 = l0 ++ Ev (malloc n) p :: l' /\
      Forall (fun e => allocated e = None) l' /\
      (forall c k, cleared ev = Some (c, k) -> c = 0 /\ k = n).
Proof.
  intros P l1 ev l2 p E B.
  destruct (safe_sound _ _ _ _ P _ _ (buffer_main d budget)) as (s & F & _).
  destruct (prov_sound _ _ _ _ _ F l1 ev l2 E (buffer_not_allocated _ _ B))
    as (l0 & a & [q n] & l' & -> & Pa & Fl & A).
  - unfold takes_buffer. rewrite B. reflexivity.
  - apply allocated_inv in Pa. subst a.
    unfold in_buffer in A. rewrite B in A. cbn [fst snd] in A.
    apply andb_true_iff in A. destruct A as [A1 A2].
    apply Z.eqb_eq in A1. subst q.
    exists l0, n, l'. split; [reflexivity |]. split; [exact Fl |].
    intros c k C. rewrite C in A2.
    apply andb_true_iff in A2. destruct A2 as [A2 A3].
    apply Z.eqb_eq in A2, A3. auto.
Qed.

Lemma stream_mode_inv ev h m :
  stream_mode ev = Some (h, m) -> exists r : Z, ev = Ev (SetQHYCCDStreamMode h m) r.
Proof.
  destruct ev as [T c r]. destruct c; simpl; intros H; try discriminate.
  injection H as -> ->. eauto.
Qed.

Lemma exposure_set_inv ev h v :
  exposure_set ev = Some (h, v) ->
  exists r : Z, ev = Ev (SetQHYCCDParam h CONTROL_EXPOSURE v) r.
Proof.
  destruct ev as [T c r]. destruct c; simpl; intros H; try discriminate.
  match goal with k : CONTROL_ID |- _ => destruct k end; try discriminate.
  injection H as -> ->. eauto.
Qed.

Lemma begun_inv ev h : begun ev = Some h -> exists r : Z, ev = Ev (BeginQHYCCDLive h) r.
Proof.
  destruct ev as [T c r]. destruct c; simpl; intros H; try discriminate.
  injection H as ->. eauto.
Qed.

Lemma Qsame_eq a b : Qsame a b = true -> a = b.
Proof.
  destruct a, b. unfold Qsame. simpl. intros H.
  apply andb_true_iff in H. destruct H as [H1 H2].
  apply Z.eqb_eq in H1. apply Pos.eqb_eq in H2. congruence.
Qed.

Lemma live_call_no_mode ev h : live_call ev = Some h -> stream_mode ev = None.
Proof.
  destruct ev as [T c r]. destruct c; simpl; intros H; try discriminate; reflexivity.
Qed.

Lemma single_call_no_mode ev h : single_call ev = Some h -> stream_mode ev = None.
Proof.
  destruct ev as [T c r]. destruct c; simpl; intros H; try discriminate; reflexivity.
Qed.

Lemma single_not_live ev h : single_call ev = Some h -> live_call ev = None.
Proof.
  destruct ev as [T c r]. destruct c; simpl; intros H; try discriminate; reflexivity.
Qed.

Lemma fetch_no_exposure_set ev : is_fetch ev = true -> exposure_set ev = None.
Proof.
  destruct ev as [T c r]. destruct c; simpl; intros H; try discriminate; reflexivity.
Qed.

Lemma live_fetch_not_begun ev h : live_fetch ev = Some h -> begun ev = None.
Proof.
  destruct ev as [T c r]. destruct c; simpl; intros H; try discriminate; reflexivity.
Qed.

(** X8: a frame is acquired only from a camera that was prepared for it.
    Before a live call ([BeginQHYCCDLive], [GetQHYCCDLiveFrame]) the latest
    [SetQHYCCDStreamMode] on that handle asked for [LIVE_MODE]; before a
    single-frame call ([ExpQHYCCDSingleFrame], [GetQHYCCDSingleFrame]) it
    asked for [SINGLE_MODE]; before any frame fetch the exposure time was
    set on that handle (to 100000); and before a [GetQHYCCDLiveFrame] came
    [BeginQHYCCDLive] on that handle. *)
Theorem acquisition_is_prepared {hdr : Header} d budget tr o :
  path (main_of d budget) tr o ->
  forall l1 ev l2 h,
    tr = l1 ++ ev :: l2 ->
    (live_call ev = Some h ->
     exists l0 (r : Z) l',
       l1 = l0 ++ Ev (SetQHYCCDStreamMode h LIVE_MODE) r :: l' /\
       Forall (fun e => stream_mode e = None) l') /\
    (single_call ev = Some h ->
     exists l0 (r : Z) l',
       l1 = l0 ++ Ev (SetQHYCCDStreamMode h SINGLE_MODE) r :: l' /\
       Forall (fun e => stream_mode e = None) l') /\
    (is_fetch ev = true -> handle_of ev = Some h ->
     exists (r : Z), In (Ev (SetQHYCCDParam h CONTROL_EXPOSURE (100000 # 1)) r) l1) /\
    (live_fetch ev = Some h ->
     exists (r : Z), In (Ev (BeginQHYCCDLive h) r) l1).
Proof.
  intros P l1 ev l2 h E. split; [| split; [| split]].
  - intros L.
    destruct (safe_sound _ _ _ _ P _ _ (mode_main d budget)) as (s & F & _).
    destruct (prov_sound _ _ _ _ _ F l1 ev l2 E (live_call_no_mode _ _ L))
      as (l0 & p & [h0 m] & l' & -> & Pp & Fl & A).
    + unfold acquires. rewrite L. reflexivity.
    + destruct (stream_mode_inv _ _ _ Pp) as [r ->].
      unfold in_mode in A. rewrite L in A. cbn [fst snd] in A.
      apply andb_true_iff in A. destruct A as [A1 A2].
      apply Z.eqb_eq in A1, A2. subst. eauto.
  - intros S.
    destruct (safe_sound _ _ _ _ P _ _ (mode_main d budget)) as (s & F & _).
    destruct (prov_sound _ _ _ _ _ F l1 ev l2 E (single_call_no_mode _ _ S))
      as (l0 & p & [h0 m] & l' & -> & Pp & Fl & A).
    + unfold acquires. rewrite S. destruct (live_call ev); reflexivity.
    + destruct (stream_mode_inv _ _ _ Pp) as [r ->].
      unfold in_mode in A. rewrite S, (single_not_live _ _ S) in A.
      cbn [fst snd] in A.
      apply andb_true_iff in A. destruct A as [A1 A2].
      apply Z.eqb_eq in A1, A2. subst. eauto.
  - intros Fe H.
    destruct (safe_sound _ _ _ _ P _ _ (exposure_main d budget)) as (s & F & _).
    destruct (prov_sound _ _ _ _ _ F l1 ev l2 E (fetch_no_exposure_set _ Fe) Fe)
      as (l0 & p & [h0 v] & l' & -> & Pp & Fl & A).
    destruct (exposure_set_inv _ _ _ Pp) as [r ->].
    unfold exposed in A. rewrite H in A. cbn [fst snd] in A.
    apply andb_true_iff in A. destruct A as [A1 A2].
    apply Z.eqb_eq in A1. apply Qsame_eq in A2. subst.
    exists r. apply in_or_app. right. left. reflexivity.
  - intros L.
    destruct (safe_sound _ _ _ _ P _ _ (begun_main d budget)) as (s & F & _).
    destruct (prov_sound _ _ _ _ _ F l1 ev l2 E (live_fetch_not_begun _ _ L))
      as (l0 & p & h0 & l' & -> & Pp & Fl & A).
    + unfold is_live_fetch. rewrite L. reflexivity.
    + destruct (begun_inv _ _ Pp) as [r ->].
      unfold on_handle in A. rewrite L in A. apply Z.eqb_eq in A. subst.
      exists r. apply in_or_app. right. left. reflexivity.
Qed.

(** ** The camera search of base_test *)

Lemma failed_tries_app l a :
  forall i,
    failed_tries i (l ++ [a]) =
    failed_tries i l ++ [Ev (GetQHYCCDId (i + Z.of_nat (List.length l))) a].
Proof.
  induction l as [| b l IH]; intros i; simpl failed_tries.
  - rewrite Z.add_0_r. reflexivity.
  - rewrite IH. cbn [app List.length]. rewrite Nat2Z.inj_succ.
    replace (i + 1 + Z.of_nat (List.length l))
      with (i + Z.succ (Z.of_nat (List.length l))) by lia.
    reflexivity.
Qed.

(** X9: the camera search of base_test asks for the ids at the indexes 0, 1,
    2, ... in turn and stops at the first call that returns
    [QHYCCD_SUCCESS]: it then prints that id and hands it back with
    [found = 1].  When none of the [num] calls succeeds it hands back
    [found = 0], having printed nothing.  It never leaves the program. *)
Theorem find_camera_takes_first_success {hdr : Header} num tr o :
  path (find_camera num) tr o ->
  exists fails id found,
    o = Done (id, found) /\
    Forall (fun a => fst a <> QHYCCD_SUCCESS) fails /\
    ((found = 0 /\ tr = failed_tries 0 fails /\ List.length fails = Z.to_nat num) \/
     (found = 1 /\ (List.length fails < Z.to_nat num)%nat /\
      tr = failed_tries 0 fails ++
           [Ev (GetQHYCCDId (Z.of_nat (List.length fails))) (QHYCCD_SUCCESS, id);
            Ev (printf "connected to the first camera from the list,id is %s\n"
                  [VStr id]) tt])).
Proof.
  revert tr o. apply safe_collect.
  unfold find_camera, for_. rewrite Z.sub_0_r.
  apply safe_for_steps_rel with
    (Inv := fun m i v s =>
              exists fails,
                s = failed_tries 0 fails /\ i = Z.of_nat (List.length fails) /\
                (List.length fails + m = Z.to_nat num)%nat /\
                Forall (fun a => fst a <> QHYCCD_SUCCESS) fails /\
                snd v = 0).
  - intros i [id found] s (fails & -> & -> & L & Fa & Fo). simpl in Fo. subst found.
    exists fails, id, 0. split; [reflexivity |]. split; [exact Fa |].
    left. repeat split. lia.
  - intros m i [id found] s (fails & -> & -> & L & Fa & Fo). simpl in Fo. subst found.
    safe_go; units.
    + match goal with H : (_ =? _) = true |- _ => apply Z.eqb_eq in H; subst end.
      eexists fails, _, 1. split; [reflexivity |]. split; [exact Fa |].
      right. split; [reflexivity |]. split; [lia |].
      rewrite <- app_assoc. reflexivity.
    + match goal with H : (_ =? _) = false |- _ => apply Z.eqb_neq in H end.
      eexists (fails ++ [(_, _)]). rewrite failed_tries_app, length_app.
      cbn [List.length]. repeat split; try reflexivity; try lia.
      apply Forall_app. split; [exact Fa |]. constructor; [assumption | constructor].
  - exists []. repeat split; auto.
Qed.

Lemma find_camera_takes_first_success_witness :
  exists fails id found,
    snd (run sdk_second_camera (find_camera (hdr := qhyccd_h) 2)) = Done (id, found) /\
    Forall (fun a => fst a <> 0) fails /\
    ((found = 0 /\
      fst (run sdk_second_camera (find_camera (hdr := qhyccd_h) 2)) = failed_tries 0 fails /\
      List.length fails = Z.to_nat 2) \/
     (found = 1 /\ (List.length fails < Z.to_nat 2)%nat /\
      fst (run sdk_second_camera (find_camera (hdr := qhyccd_h) 2)) =
      failed_tries 0 fails ++
        [Ev (GetQHYCCDId (Z.of_nat (List.length fails))) (0, id);
         Ev (printf "connected to the first camera from the list,id is %s\n"
               [VStr id]) tt])).
Proof.
  exact (find_camera_takes_first_success (hdr := qhyccd_h) 2 _ _
           (run_from_path sdk_second_camera _ [])).
Defined.

(** ** The id given to [OpenQHYCCD] *)

Section Ids.
Context {hdr : Header}.

Ltac fin_id :=
  idtac;
  first [ exact I | discriminate | reflexivity
        | rewrite String.eqb_refl in *; discriminate
        | cbn; repeat split; reflexivity ].

Ltac loop_id :=
  idtac;
  lazymatch goal with
  | |- safe _ (bind (find_camera _) _) ?s _ =>
      apply safe_bind; unfold find_camera, for_;
      apply safe_for_steps_rel with
        (Inv := fun (_ : nat) i v t =>
                  snd v = 0 /\ asked t = i /\ clean t = true);
      [ intros ? [? ?] [? ? ?] (? & ? & ?); cbn [snd asked clean] in *; subst
      | intros ? ? [? ?] [? ? ?] (? & ? & ?); cbn [snd asked clean] in *; subst
      | cbn; auto ]
  | _ => loop_same
  end.

Lemma id_main d budget :
  safe (id_step d) (main_of d budget) id_start (fun _ _ => True).
Proof.
  destruct d; cbn [main_of].
  - unfold base_test_main. safe_all loop_id fin_id.
  - unfold test_base_main. safe_all loop_id fin_id.
  - unfold test_live_opencv_main. safe_all loop_id fin_id.
  - unfold test_single_opencv_main. safe_all loop_id fin_id.
Qed.

End Ids.

Lemma id_answer_inv ev i r id :
  id_answer ev = Some (i, r, id) -> ev = Ev (GetQHYCCDId i) (r, id).
Proof.
  destruct ev as [T c a]. destruct c; simpl; intros H; try discriminate.
  destruct a. injection H as -> -> ->. reflexivity.
Qed.

Lemma names_id_inv ev id :
  names_id ev = Some id ->
  ev = Ev (printf "connected to the first camera from the list,id is %s\n"
             [VStr id]) tt.
Proof.
  destruct ev as [T c a]. destruct c; simpl; intros H; try discriminate.
  destruct args as [| [] [|]]; try discriminate.
  destruct (String.eqb_spec fmt
              "connected to the first camera from the list,id is %s\n")
    as [-> |]; [| discriminate].
  injection H as ->. destruct a. reflexivity.
Qed.

Section IdFacts.
Context {hdr : Header} (d : demo).

(** The monitor counts the [GetQHYCCDId] calls, which are numbered from
    where it stands, and notes whether all of them failed. *)
Lemma id_counts tr :
  forall s s',
    feed (id_step d) s tr = Some s' ->
    exists answers_,
      filter is_id_query tr = failed_tries (asked s) answers_ /\
      asked s' = asked s + Z.of_nat (List.length answers_) /\
      clean s' =
      clean s && forallb (fun a => negb (fst a =? QHYCCD_SUCCESS)) answers_.
Proof.
  induction tr as [| ev tr IH]; intros s s' F; simpl in F.
  - injection F as <-. exists []. simpl. rewrite Z.add_0_r, andb_true_r. auto.
  - destruct (id_step d s ev) as [s1 |] eqn:E; [| discriminate].
    destruct (IH _ _ F) as (an & Fi & As & Cl).
    unfold id_step in E. cbn [filter]. unfold is_id_query at 1.
    destruct (id_answer ev) as [[[i r] id] |] eqn:A.
    + apply id_answer_inv in A. subst ev.
      destruct ((i =? asked s) && _) eqn:C; [| discriminate].
      apply andb_true_iff in C. destruct C as [C _]. apply Z.eqb_eq in C. subst i.
      injection E as <-. cbn [asked clean] in *.
      exists ((r, id) :: an). cbn [failed_tries List.length forallb fst].
      rewrite Fi, As, Cl, Nat2Z.inj_succ, andb_assoc.
      repeat split. lia.
    + assert (asked s1 = asked s /\ clean s1 = clean s) as [E1 E2].
      { destruct (open_id ev).
        - destruct (phase s); try discriminate.
          destruct (_ && _); [| discriminate]. injection E as <-. auto.
        - destruct (names_id ev), (phase s); injection E as <-; auto. }
      rewrite E1, E2 in *. exists an. auto.
Qed.

(** When the monitor has just seen a [GetQHYCCDId] answer, that call ends
    the trace, and it asked for the index the monitor had counted. *)
Lemma id_got l r id :
  forall s s',
    feed (id_step d) s l = Some s' -> phase s' = Got r id ->
    (l = [] /\ phase s = Got r id) \/
    exists l0 s0,
      l = l0 ++ [Ev (GetQHYCCDId (asked s0)) (r, id)] /\
      feed (id_step d) s l0 = Some s0 /\
      (if is_base_test d then clean s0 = true else asked s0 = 0).
Proof.
  destruct l as [| e l'] using rev_ind; intros s s' F Ph.
  - injection F as <-. auto.
  - right. rewrite feed_app in F.
    destruct (feed (id_step d) s l') as [s0 |] eqn:F0; [| discriminate].
    cbn [feed] in F.
    destruct (id_step d s0 e) as [s1 |] eqn:E; [| discriminate].
    injection F as <-. unfold id_step in E.
    destruct (id_answer e) as [[[i r'] id'] |] eqn:A.
    + apply id_answer_inv in A. subst e.
      destruct ((i =? asked s0) && _) eqn:C; [| discriminate].
      apply andb_true_iff in C. destruct C as [C1 C2]. apply Z.eqb_eq in C1.
      subst i. injection E as <-. cbn [phase] in Ph. injection Ph as -> ->.
      exists l', s0. split; [reflexivity |]. split; [exact F0 |].
      destruct (is_base_test d); [exact C2 | apply Z.eqb_eq; exact C2].
    + exfalso. destruct (open_id e).
      * destruct (phase s0); try discriminate.
        destruct (_ && _); [| discriminate]. injection E as <-. discriminate.
      * destruct (names_id e), (phase s0); injection E as <-;
          cbn [phase] in Ph; try discriminate.
        destruct (String.eqb _ _); discriminate.
Qed.

(** When the monitor is ready for [OpenQHYCCD], the trace ends with a
    [GetQHYCCDId] call and the line that names the id it wrote. *)
Lemma id_named l r id :
  forall s',
    feed (id_step d) id_start l = Some s' -> phase s' = Named r id ->
    exists l0 s0,
      l = l0 ++ [Ev (GetQHYCCDId (asked s0)) (r, id);
                 Ev (printf "connected to the first camera from the list,id is %s\n"
                       [VStr id]) tt] /\
      feed (id_step d) id_start l0 = Some s0 /\
      (if is_base_test d then clean s0 = true else asked s0 = 0).
Proof.
  destruct l as [| e l'] using rev_ind; intros s' F Ph.
  - injection F as <-. discriminate.
  - rewrite feed_app in F.
    destruct (feed (id_step d) id_start l') as [s1 |] eqn:F1; [| discriminate].
    cbn [feed] in F.
    destruct (id_step d s1 e) as [s2 |] eqn:E; [| discriminate].
    injection F as <-. unfold id_step in E.
    destruct (id_answer e) as [[[i r'] id'] |] eqn:A.
    { destruct (_ && _); [| discriminate]. injection E as <-. discriminate. }
    destruct (open_id e).
    { destruct (phase s1); try discriminate.
      destruct (_ && _); [| discriminate]. injection E as <-. discriminate. }
    destruct (names_id e) as [id1 |] eqn:N.
    2: { injection E as <-. discriminate. }
    destruct (phase s1) as [| r1 id2 | r1 id2] eqn:P1;
      injection E as <-; cbn [phase] in Ph; try discriminate.
    destruct (String.eqb_spec id1 id2) as [-> |]; [| discriminate].
    injection Ph as -> ->. apply names_id_inv in N. subst e.
    destruct (id_got _ _ _ _ _ F1 P1) as [[-> Q] | (l0 & s0 & -> & F0 & C)].
    + discriminate.
    + exists l0, s0. rewrite <- app_assoc. auto.
Qed.

End IdFacts.

(** X10: the id given to [OpenQHYCCD] is the one the [GetQHYCCDId] call just
    before wrote, with only the line that names it in between.  The
    [GetQHYCCDId] calls made until then ask for the indexes 0, 1, 2, ... in
    turn.  In base_test the call that gave the id returned
    [QHYCCD_SUCCESS] and all the calls before it did not: the camera opened
    is the first whose id could be read.  The other programs make one call,
    for index 0. *)
Theorem opened_id_is_first_read {hdr : Header} d budget tr o :
  path (main_of d budget) tr o ->
  forall l1 id h l2,
    tr = l1 ++ Ev (OpenQHYCCD id) h :: l2 ->
    exists l0 fails r,
      l1 = l0 ++ [Ev (GetQHYCCDId (Z.of_nat (List.length fails))) (r, id);
                  Ev (printf "connected to the first camera from the list,id is %s\n"
                        [VStr id]) tt] /\
      filter is_id_query l0 = failed_tries 0 fails /\
      (d = base_test ->
       r = QHYCCD_SUCCESS /\ Forall (fun a => fst a <> QHYCCD_SUCCESS) fails) /\
      (d <> base_test -> fails = []).
Proof.
  intros P l1 id h l2 ->.
  destruct (safe_sound _ _ _ _ P _ _ (id_main d budget)) as (s & F & _).
  rewrite feed_app in F.
  destruct (feed (id_step d) id_start l1) as [s1 |] eqn:F1; [| discriminate].
  cbn [feed] in F.
  destruct (id_step d s1 (Ev (OpenQHYCCD id) h)) as [s2 |] eqn:E; [| discriminate].
  clear F. unfold id_step in E. cbn [id_answer open_id] in E.
  destruct (phase s1) as [| r id' | r id'] eqn:Ph; try discriminate.
  destruct (String.eqb_spec id id') as [<- |]; [| discriminate].
  cbn [andb] in E.
  destruct (id_named d _ _ _ _ F1 Ph) as (l0 & s0 & -> & F0 & C).
  destruct (id_counts d _ _ _ F0) as (fails & Fi & As & Cl).
  cbn [id_start asked clean andb] in Fi, As, Cl. rewrite Z.add_0_l in As.
  exists l0, fails, r. rewrite <- As. split; [reflexivity |].
  split; [exact Fi |]. split.
  - intros ->. cbn [is_base_test negb orb] in *.
    split.
    + destruct (r =? QHYCCD_SUCCESS) eqn:R; [| discriminate].
      apply Z.eqb_eq. exact R.
    + rewrite C in Cl. symmetry in Cl. rewrite forallb_forall in Cl.
      apply Forall_forall. intros a Ha. specialize (Cl a Ha).
      apply negb_true_iff in Cl. apply Z.eqb_neq. exact Cl.
  - intros N. destruct d; [congruence | | |]; cbn [is_base_test] in C;
      rewrite C in As; destruct fails; try reflexivity; discriminate.
Qed.

(** ** How a run ends, and what a program leaves alone *)

Section Ends.
Context {hdr : Header}.

Ltac fin_ends :=
  idtac;
  first [ exact I | reflexivity
        | left; eexists; split;
          [reflexivity | first [left; reflexivity | right; reflexivity]]
        | right; split;
          [reflexivity | first [left; reflexivity | right; reflexivity]] ].

Lemma ends_main d budget :
  safe (never_step (foreign d)) (main_of d budget) tt
    (fun _ o =>
       (exists n, o = Exited n /\ (n = 0 \/ n = 1)) \/
       (o = Running /\ (d = test_live_opencv \/ d = test_single_opencv))).
Proof.
  destruct d; cbn [main_of].
  - unfold base_test_main. safe_all loop_same fin_ends.
  - unfold test_base_main. safe_all loop_same fin_ends.
  - unfold test_live_opencv_main. safe_all loop_same fin_ends.
  - unfold test_single_opencv_main. safe_all loop_same fin_ends.
Qed.

Ltac fin_true := idtac; first [exact I | reflexivity].

Lemma setup_main d budget :
  safe setup_step (main_of d budget) None (fun _ _ => True).
Proof.
  destruct d; cbn [main_of].
  - unfold base_test_main. safe_all loop_same fin_true.
  - unfold test_base_main. safe_all loop_same fin_true.
  - unfold test_live_opencv_main. safe_all loop_same fin_true.
  - unfold test_single_opencv_main. safe_all loop_same fin_true.
Qed.

End Ends.

(** X12: a run of any of the four programs that returns from [main]
    returns 0 or 1, and only the two OpenCV demos can still be in their
    [while(true)] loop when the budget of rounds is used up.  Each program
    leaves alone what is not its business, on a run to the end and on a run
    cut short inside a call alike: base_test and test_base start no live
    stream, expose and fetch no frame and show no image (base_test does call
    [StopQHYCCDLive], test_base does not); the live demo makes no
    single-frame call and reads no key; the single-frame demo makes no
    [BeginQHYCCDLive], [GetQHYCCDLiveFrame] or [StopQHYCCDLive]. *)
Theorem runs_end_with_status_0_or_1 {hdr : Header} d budget tr o :
  path (main_of d budget) tr o ->
  (forall n, o = Exited n -> n = 0 \/ n = 1) /\
  (o = Running -> d = test_live_opencv \/ d = test_single_opencv) /\
  Forall (fun e => foreign d e = false) tr /\
  (forall tr', cut (main_of d budget) tr' ->
               Forall (fun e => foreign d e = false) tr').
Proof.
  intros P.
  destruct (safe_sound _ _ _ _ P _ _ (ends_main d budget)) as (s & F & Q).
  split; [| split; [| split]].
  - intros n ->. destruct Q as [(m & E & M) | [E _]]; [| discriminate].
    injection E as ->. exact M.
  - intros ->. destruct Q as [(m & E & _) | [_ M]]; [discriminate | exact M].
  - eapply never_holds; eauto.
  - intros tr' C.
    destruct (safe_cut _ _ _ C _ _ (ends_main d budget)) as (s' & F').
    eapply never_holds; eauto.
Qed.

(** The setup calls the monitor lets through have rising numbers, all above
    the number it started from. *)
Lemma setup_sorted tr :
  forall last s',
    feed setup_step last tr = Some s' ->
    StronglySorted lt (setups tr) /\
    forall j, last = Some j -> Forall (lt j) (setups tr).
Proof.
  induction tr as [| ev tr IH]; intros last s' F; cbn [feed setups] in *.
  - split; [constructor |]. intros; constructor.
  - destruct (setup_step last ev) as [s1 |] eqn:E; [| discriminate].
    destruct (IH _ _ F) as [S B]. unfold setup_step in E.
    destruct (setup_call ev) as [k |].
    + assert (s1 = Some k /\ forall j, last = Some j -> (j < k)%nat) as [-> L].
      { destruct last as [j |].
        - destruct (Nat.ltb_spec j k); [| discriminate]. injection E as <-.
          split; [reflexivity |]. intros ? [= <-]. assumption.
        - injection E as <-. split; [reflexivity |]. discriminate. }
      split.
      * constructor; [exact S | exact (B k eq_refl)].
      * intros j ->. constructor; [auto |].
        eapply Forall_impl; [| exact (B k eq_refl)]. intros a. specialize (L j eq_refl). lia.
    + injection E as <-. auto.
Qed.

Lemma setups_count k tr :
  count (is_setup k) tr = count_occ Nat.eq_dec (setups tr) k.
Proof.
  induction tr as [| ev tr IH]; [reflexivity |].
  rewrite count_cons. unfold is_setup at 1. cbn [setups].
  destruct (setup_call ev) as [k' |]; [| exact IH].
  cbn [count_occ]. destruct (Nat.eq_dec k' k) as [-> | N].
  - rewrite Nat.eqb_refl, IH. reflexivity.
  - destruct (Nat.eqb_spec k k'); [congruence | exact IH].
Qed.

Lemma sorted_once l :
  StronglySorted lt l -> forall k, (count_occ Nat.eq_dec l k <= 1)%nat.
Proof.
  induction 1 as [| a l S IH B]; intros k; cbn [count_occ]; [lia |].
  destruct (Nat.eq_dec a k) as [-> |]; [| apply IH].
  rewrite (proj1 (count_occ_not_In Nat.eq_dec l k)); [lia |].
  intros I. rewrite Forall_forall in B. specialize (B _ I). lia.
Qed.

(** X13: the calls that set a run up and wind it down are made in one
    order, each at most once: [GetQHYCCDSDKVersion], [InitQHYCCDResource],
    [ScanQHYCCD], [OpenQHYCCD], [SetQHYCCDReadMode], [SetQHYCCDStreamMode],
    [InitQHYCCD], [GetQHYCCDChipInfo], [SetQHYCCDResolution],
    [GetQHYCCDMemLength], [malloc], the setting of the exposure time,
    [BeginQHYCCDLive], [namedWindow], [StopQHYCCDLive], [CloseQHYCCD],
    [ReleaseQHYCCDResource].  A path may skip some of them, but makes none
    out of turn and none twice. *)
Theorem setup_calls_in_order {hdr : Header} d budget tr o :
  path (main_of d budget) tr o ->
  StronglySorted lt (setups tr) /\
  forall k, (count (is_setup k) tr <= 1)%nat.
Proof.
  intros P.
  destruct (safe_sound _ _ _ _ P _ _ (setup_main d budget)) as (s & F & _).
  destruct (setup_sorted _ _ _ F) as [S _].
  split; [exact S |]. intros k. rewrite setups_count. apply sorted_once. exact S.
Qed.

(** ** Frames and their display *)

Section Display.
Context {hdr : Header}.

Ltac fin_true := idtac; first [exact I | reflexivity].

Lemma shows_main d budget :
  safe (prov_step frame_of is_shown shows_frame) (main_of d budget)
    None (fun _ _ => True).
Proof.
  destruct d; cbn [main_of].
  - unfold base_test_main. safe_all loop_same fin_true.
  - unfold test_base_main. safe_all loop_same fin_true.
  - unfold test_live_opencv_main. safe_all ltac:(idtac; loop_with (fun _ : option (pointer * Z * frame_info) => True)) fin_true.
  - unfold test_single_opencv_main. safe_all ltac:(idtac; loop_with (fun _ : option (pointer * Z * frame_info) => True)) fin_true.
Qed.

Lemma window_main d budget :
  safe (prov_step window_made is_shown in_window) (main_of d budget)
    None (fun _ _ => True).
Proof.
  destruct d; cbn [main_of].
  - unfold base_test_main. safe_all loop_same fin_true.
  - unfold test_base_main. safe_all loop_same fin_true.
  - unfold test_live_opencv_main. safe_all loop_same fin_true.
  - unfold test_single_opencv_main. safe_all loop_same fin_true.
Qed.

Lemma balance_main d budget :
  safe balance_step (main_of d budget) false (fun s _ => s = false).
Proof.
  destruct d; cbn [main_of].
  - unfold base_test_main. safe_all loop_same fin_true.
  - unfold test_base_main. safe_all loop_same fin_true.
  - unfold test_live_opencv_main. safe_all loop_same fin_true.
  - unfold test_single_opencv_main. safe_all loop_same fin_true.
Qed.

End Display.

Lemma window_made_inv ev name :
  window_made ev = Some name -> ev = Ev (namedWindow name WINDOW_NORMAL) tt.
Proof.
  destruct ev as [T c r]. destruct c; simpl; intros H; try discriminate.
  injection H as ->. destruct r, flags. reflexivity.
Qed.

(** X14: an image is shown only in a window that [namedWindow] made under
    the same name, and the [Mat] shown is laid over the buffer of the latest
    frame fetch, which returned [QHYCCD_SUCCESS], with the height and width
    that fetch wrote as its rows and columns. *)
Theorem image_shown_is_latest_frame {hdr : Header} d budget tr o :
  path (main_of d budget) tr o ->
  forall l1 name img l2,
    tr = l1 ++ Ev (imshow name img) tt :: l2 ->
    In (Ev (namedWindow name WINDOW_NORMAL) tt) l1 /\
    exists l0 f buf fi l',
      l1 = l0 ++ f :: l' /\
      frame_of f = Some (buf, QHYCCD_SUCCESS, fi) /\
      Forall (fun e => frame_of e = None) l' /\
      img = {| rows := frame_h fi; cols := frame_w fi;
               mat_type := CV_8UC1; data := buf |}.
Proof.
  intros P l1 name img l2 E. split.
  - destruct (safe_sound _ _ _ _ P _ _ (window_main d budget)) as (s & F & _).
    destruct (prov_sound _ _ _ _ _ F l1 _ l2 E eq_refl eq_refl)
      as (l0 & p & n & l' & -> & Pp & Fl & A).
    apply window_made_inv in Pp. subst p.
    cbn [in_window shown] in A. apply String.eqb_eq in A. subst n.
    apply in_or_app. right. left. reflexivity.
  - destruct (safe_sound _ _ _ _ P _ _ (shows_main d budget)) as (s & F & _).
    destruct (prov_sound _ _ _ _ _ F l1 _ l2 E eq_refl eq_refl)
      as (l0 & f & [[buf ret] fi] & l' & -> & Pf & Fl & A).
    cbn [shows_frame shown] in A.
    repeat (apply andb_true_iff in A; destruct A as [A ?]).
    repeat match goal with
           | H : (_ =? _) = true |- _ => apply Z.eqb_eq in H
           end.
    subst ret. exists l0, f, buf, fi, l'.
    split; [reflexivity |]. split; [exact Pf |]. split; [exact Fl |].
    destruct img as [rw cl [] dt]. simpl in *. congruence.
Qed.

Section BalanceFacts.
Context {hdr : Header}.

Lemma balance_counts tr :
  forall b b',
    feed balance_step b tr = Some b' ->
    (count good_frame tr + Nat.b2n b = count is_shown tr + Nat.b2n b')%nat.
Proof.
  induction tr as [| ev tr IH]; intros b b' F; simpl in F.
  - injection F as <-. reflexivity.
  - destruct (balance_step b ev) as [b1 |] eqn:E; [| discriminate].
    specialize (IH _ _ F). rewrite !count_cons. unfold balance_step in E.
    assert (G : good_frame ev = true -> is_shown ev = false).
    { destruct ev as [T c r]. destruct c; simpl; intros; try discriminate;
        reflexivity. }
    destruct (good_frame ev).
    + rewrite (G eq_refl). destruct b; [discriminate |]. injection E as <-.
      simpl in *. lia.
    + destruct (is_shown ev).
      * destruct b; [| discriminate]. injection E as <-. simpl in *. lia.
      * injection E as <-. lia.
Qed.

End BalanceFacts.


(** ** The frame counter *)

Section Counter.
Context {hdr : Header}.

Ltac fin_true := idtac; first [exact I | reflexivity].

Ltac loop_cnt :=
  idtac;
  lazymatch goal with
  | |- safe _ (bind (while_true _ _ _) _) _ _ =>
      apply safe_bind;
      apply safe_while_rel with (Inv := fun v t => frame_count v = t)
  | _ => loop_same
  end.

Lemma cnt_main d budget :
  safe cnt_step (main_of d budget) 0 (fun _ _ => True).
Proof.
  destruct d; cbn [main_of].
  - unfold base_test_main. safe_all loop_same fin_true.
  - unfold test_base_main. safe_all loop_same fin_true.
  - unfold test_live_opencv_main. safe_all loop_cnt fin_true.
  - unfold test_single_opencv_main. safe_all loop_cnt fin_true.
Qed.

End Counter.

Lemma int32_succ z : int32 (int32 z + 1) = int32 (z + 1).
Proof.
  unfold int32.
  replace ((z + 2 ^ 31) mod 2 ^ 32 - 2 ^ 31 + 1 + 2 ^ 31)
    with ((z + 2 ^ 31) mod 2 ^ 32 + 1) by lia.
  rewrite Z.add_mod_idemp_l by lia.
  replace (z + 2 ^ 31 + 1) with (z + 1 + 2 ^ 31) by lia. reflexivity.
Qed.

Lemma int32_small z : - 2 ^ 31 <= z < 2 ^ 31 -> int32 z = z.
Proof.
  intros H. unfold int32. rewrite Z.mod_small by lia. lia.
Qed.

(** The monitor steps through the numbers [int32 z], [int32 (z + 1)],
    ... *)
Lemma cnt_counts tr :
  forall z s',
    feed cnt_step (int32 z) tr = Some s' ->
    forall k n, nth_error (iCnts tr) k = Some n -> n = int32 (z + Z.of_nat k).
Proof.
  induction tr as [| ev tr IH]; intros z s' F k n N; cbn [feed iCnts] in F, N.
  - destruct k; discriminate.
  - destruct (cnt_step (int32 z) ev) as [s1 |] eqn:E; [| discriminate].
    unfold cnt_step in E. destruct (iCnt_of ev) as [m |].
    + destruct (m =? int32 z) eqn:M; [| discriminate].
      apply Z.eqb_eq in M. subst m.
      injection E as <-. rewrite int32_succ in F.
      destruct k as [| k]; cbn [nth_error] in N.
      * injection N as <-. rewrite Z.add_0_r. reflexivity.
      * rewrite (IH _ _ F k n N). f_equal. lia.
    + injection E as <-. eauto.
Qed.

(** X16: the lines [iCnt = %d] number the frames shown from 0 upwards, in
    steps of one: the line printed for the frame with [k] frames before it
    carries [k] (as long as the 32-bit counter has not wrapped; in general,
    [k] as a 32-bit [int]). *)
Theorem frames_numbered_from_zero {hdr : Header} d budget tr o :
  path (main_of d budget) tr o ->
  forall k n,
    nth_error (iCnts tr) k = Some n ->
    n = int32 (Z.of_nat k) /\ (Z.of_nat k < 2 ^ 31 -> n = Z.of_nat k).
Proof.
  intros P k n N.
  destruct (safe_sound _ _ _ _ P _ _ (cnt_main d budget)) as (s & F & _).
  change 0 with (int32 0) in F.
  pose proof (cnt_counts _ _ _ F k n N) as E. rewrite Z.add_0_l in E.
  split; [exact E |]. intros B. rewrite E. apply int32_small. lia.
Qed.

(** ** Keys, exposures and fetches of the single-frame demo *)

Lemma tally_counts tr :
  forall k e f q s',
    feed tally_step (k, e, f, q) tr = Some s' ->
    s' = ((count other_key tr + k)%nat, (count is_exposure tr + e)%nat,
          (count is_fetch tr + f)%nat, (count quit_key tr + q)%nat).
Proof.
  induction tr as [| ev tr IH]; intros k e f q s' F; cbn [feed] in F.
  - injection F as <-. reflexivity.
  - cbn [tally_step] in F. rewrite (IH _ _ _ _ _ F), !count_cons.
    destruct (other_key ev), (is_exposure ev), (is_fetch ev), (quit_key ev);
      cbn [Nat.b2n];
      (apply f_equal2; [apply f_equal2; [apply f_equal2 |] |]); lia.
Qed.

Section Tally.
Context {hdr : Header}.

(** The loop from a state where nothing is pending: [k] keys other than
    the quit key were answered by [k] exposures and [k] fetches. *)
Lemma single_loop_tally h buf :
  forall budget v k,
    safe tally_step (while_true budget (single_iteration h buf) v)
      (k, k, k, 0%nat)
      (fun s o =>
         let '(a, e, f, q) := s in
         e = a /\ f = a /\
         match o with
         | Done _ => q = 1%nat
         | Running => q = 0%nat /\ a = (budget + k)%nat
         | Exited _ => False
         end).
Proof.
  induction budget as [| n IH]; intros v k; cbn [while_true].
  - cbn. auto.
  - apply safe_bind. unfold single_iteration. safe_go.
    all: unfold is_quit;
      repeat match goal with H : Ascii.eqb _ _ = _ |- _ => rewrite H end;
      cbn [orb negb Nat.b2n Nat.add].
    all: try (cbn; auto; fail).
    all: eapply safe_mono; [| apply (IH _ (S k))].
    all: intros [[[ka ke] kf] kq] [[] | km |]; cbn; intuition lia.
Qed.

Lemma tally_main budget :
  safe tally_step (test_single_opencv_main budget) (0, 0, 0, 0)%nat
    (fun s o =>
       let '(a, e, f, q) := s in
       e = a /\ f = a /\ (q <= 1)%nat /\
       (o = Exited 0 <-> q = 1%nat) /\
       (o = Running -> a = budget /\ q = 0%nat)).
Proof.
  unfold test_single_opencv_main. safe_go.
  all: try (cbn; intuition (try discriminate; try lia); fail).
  all: apply safe_bind; eapply safe_mono; [| apply single_loop_tally].
  all: intros [[[ka ke] kf] kq] [[] | km |]; cbn [after].
  all: try (intros (? & ? & ?); subst; safe_go).
  all: cbn; intuition (try discriminate; try lia).
Qed.

End Tally.

(** X17: in the single-frame demo every key other than [q] and [Q] is
    answered by one exposure and one frame fetch; at most one [q] or [Q] is
    read; the program returns 0 exactly when one was read; and a run that is
    still in the loop after [budget] rounds has read [budget] other keys and
    no [q]. *)
Theorem single_demo_one_frame_per_key {hdr : Header} budget tr o :
  path (test_single_opencv_main budget) tr o ->
  count is_exposure tr = count other_key tr /\
  count is_fetch tr = count other_key tr /\
  (count quit_key tr <= 1)%nat /\
  (o = Exited 0 <-> count quit_key tr = 1%nat) /\
  (o = Running -> count other_key tr = budget /\ count quit_key tr = 0%nat).
Proof.
  intros P.
  destruct (safe_sound _ _ _ _ P _ _ (tally_main budget)) as (s & F & Q).
  rewrite (tally_counts _ _ _ _ _ _ F) in Q. cbn beta iota in Q.
  rewrite !Nat.add_0_r in Q. destruct Q as (E1 & E2 & Q1 & Q2 & Q3).
  repeat split; auto; try apply Q2; auto; apply Q3; auto.
Qed.

Lemma single_demo_one_frame_per_key_witness :
  let tr := fst (run_of sdk_first_fetch_fails test_single_opencv 3) in
  let o := snd (run_of sdk_first_fetch_fails test_single_opencv 3) in
  count is_exposure tr = count other_key tr /\
  count is_fetch tr = count other_key tr /\
  (count quit_key tr <= 1)%nat /\
  (o = Exited 0 <-> count quit_key tr = 1%nat) /\
  (o = Running -> count other_key tr = 3%nat /\ count quit_key tr = 0%nat).
Proof.
  exact (single_demo_one_frame_per_key (hdr := qhyccd_h) 3 _ _
           (run_of_path sdk_first_fetch_fails test_single_opencv 3)).
Defined.

(** ** What the log says *)

Section Log.
Context {hdr : Header}.

Ltac to_arith :=
  repeat match goal with
         | H : (_ =? _) = true |- _ => apply Z.eqb_eq in H
         | H : (_ =? _) = false |- _ => apply Z.eqb_neq in H
         | H : (_ >? _) = true |- _ => rewrite Z.gtb_ltb in H
         | H : (_ >? _) = false |- _ => rewrite Z.gtb_ltb in H
         | H : (_ <? _) = true |- _ => apply Z.ltb_lt in H
         | H : (_ <? _) = false |- _ => apply Z.ltb_ge in H
         end.

Ltac fin_log :=
  idtac;
  first [ exact I | reflexivity | discriminate
        | exfalso; to_arith; first [congruence | lia] ].

Ltac loop_log := idtac; loop_with (fun _ : option (option nat * Z) => True).

Lemma log_main d budget :
  safe (prov_step answered is_log_line truthful) (main_of d budget)
    None (fun _ _ => True).
Proof.
  destruct d; cbn [main_of].
  - unfold base_test_main. safe_all loop_log fin_log.
  - unfold test_base_main. safe_all loop_log fin_log.
  - unfold test_live_opencv_main. safe_all loop_log fin_log.
  - unfold test_single_opencv_main. safe_all loop_log fin_log.
Qed.

End Log.

Lemma answered_inv ev k r :
  answered ev = Some (k, r) -> setup_call ev = k /\ result_of ev = Some r.
Proof.
  unfold answered. destruct (result_of ev); intros H; [| discriminate].
  injection H as <- <-. auto.
Qed.

Lemma answered_none ev : answered ev = None -> result_of ev = None.
Proof.
  unfold answered. destruct (result_of ev); [discriminate | reflexivity].
Qed.

(** X18: the lines that report on a call tell the truth.  A line that says
    a call succeeded or failed (or how many cameras were found) is printed
    after that very call, with no other call that hands back a result in
    between; the call went as the line says (succeeded: the code is
    [QHYCCD_SUCCESS], the handle is not [NULL], the count or length is
    positive in the [int] the program keeps it in; failed: not so); and a
    number the line carries is what the call handed back, as that [int]. *)
Theorem log_lines_tell_the_truth {hdr : Header} d budget tr o :
  path (main_of d budget) tr o ->
  forall l1 fmt args l2 k v,
    tr = l1 ++ Ev (printf fmt args) tt :: l2 ->
    line_about fmt = Some (k, v) ->
    exists l0 c r l',
      l1 = l0 ++ c :: l' /\
      setup_call c = Some k /\ result_of c = Some r /\
      Forall (fun e => result_of e = None) l' /\
      (v = Success -> went_well k r = true) /\
      (v = Failure -> went_well k r = false) /\
      (forall n, args = [VInt n] -> n = int32 r).
Proof.
  intros P l1 fmt args l2 k v E L.
  destruct (safe_sound _ _ _ _ P _ _ (log_main d budget)) as (s & F & _).
  destruct (prov_sound _ _ _ _ _ F l1 _ l2 E eq_refl)
    as (l0 & c & [k0 r] & l' & -> & Pc & Fl & A).
  - unfold is_log_line, log_line. rewrite L. reflexivity.
  - apply answered_inv in Pc. destruct Pc as [K R].
    unfold truthful, log_line in A. rewrite L in A. cbn [fst snd] in A.
    destruct k0 as [k0 |]; [| discriminate].
    apply andb_true_iff in A. destruct A as [A A3].
    apply andb_true_iff in A. destruct A as [A1 A2].
    apply Nat.eqb_eq in A1. subst k0.
    exists l0, c, r, l'. split; [reflexivity |]. split; [exact K |].
    split; [exact R |]. split.
    { eapply Forall_impl; [| exact Fl]. intros e. apply answered_none. }
    split; [| split].
    + intros ->. exact A2.
    + intros ->. apply negb_true_iff. exact A2.
    + intros n ->. apply Z.eqb_eq. exact A3.
Qed.

(** ** The frame rate line *)

Section Rate.
Context {hdr : Header}.

Ltac fin_true := idtac; first [exact I | reflexivity].

Ltac loop_rate :=
  idtac;
  lazymatch goal with
  | |- safe _ (bind (while_true _ _ _) _) _ _ =>
      apply safe_bind;
      apply safe_while_rel with (Inv := fun v t => fps v = t)
  | _ => loop_same
  end.

Lemma rate_main d budget :
  safe fps_step (main_of d budget) 0 (fun _ _ => True).
Proof.
  destruct d; cbn [main_of].
  - unfold base_test_main. safe_all loop_same fin_true.
  - unfold test_base_main. safe_all loop_same fin_true.
  - unfold test_live_opencv_main. safe_all loop_rate fin_true.
  - unfold test_single_opencv_main. safe_all loop_rate fin_true.
Qed.

End Rate.

Lemma rate_counts tr :
  forall s s', feed fps_step s tr = Some s' -> s' = shown_since s tr.
Proof.
  induction tr as [| ev tr IH]; intros s s' F; cbn [feed shown_since] in *.
  - injection F as <-. reflexivity.
  - destruct (fps_step s ev) as [s1 |] eqn:E; [| discriminate].
    unfold fps_step in E. destruct (fps_line ev) as [n |].
    + destruct (n =? Z.quot s 5); [| discriminate]. injection E as <-. auto.
    + destruct (is_shown ev); injection E as <-; auto.
Qed.

(** X19: the frame rate line carries a fifth (rounded towards zero) of the
    number of images shown since the line before it, or since the start
    when it is the first. *)
Theorem fps_line_counts_frames_shown {hdr : Header} d budget tr o :
  path (main_of d budget) tr o ->
  forall l1 ev l2 n,
    tr = l1 ++ ev :: l2 ->
    fps_line ev = Some n ->
    n = Z.quot (shown_since 0 l1) 5.
Proof.
  intros P l1 ev l2 n -> L.
  destruct (safe_sound _ _ _ _ P _ _ (rate_main d budget)) as (s & F & _).
  rewrite feed_app in F.
  destruct (feed fps_step 0 l1) as [s1 |] eqn:F1; [| discriminate].
  cbn [feed] in F. unfold fps_step at 1 in F. rewrite L in F.
  destruct (Z.eqb_spec n (Z.quot s1 5)) as [-> |]; [| discriminate].
  rewrite (rate_counts _ _ _ F1). reflexivity.
Qed.

(** ** The theorems at concrete runs *)

(** base_test with two cameras, the first of which does not give its id:
    the run exits with status 0, and its [CloseQHYCCD] (call 67) is given
    the handle that [OpenQHYCCD] handed back. *)
Lemma handle_comes_from_open_witness :
  let tr := fst (run_of sdk_second_camera base_test 0) in
  tr = firstn 67 tr ++ Ev (CloseQHYCCD 4096) 0 :: skipn 68 tr /\
  exists l0 id l',
    firstn 67 tr = l0 ++ Ev (OpenQHYCCD id) 4096 :: l' /\
    Forall (fun e => opened e = None) l' /\
    (base_test = base_test -> 4096 <> NULL).
Proof.
  intros tr.
  assert (E : tr = firstn 67 tr ++ Ev (CloseQHYCCD 4096) 0 :: skipn 68 tr)
    by (vm_compute; reflexivity).
  split; [exact E |].
  exact (handle_comes_from_open (hdr := qhyccd_h) base_test 0 _ _
           (run_of_path sdk_second_camera base_test 0) _ _ _ 4096 E eq_refl).
Defined.

(** The same run: [SetQHYCCDResolution] is call 31. *)
Lemma resolution_is_full_chip_witness :
  let tr := fst (run_of sdk_second_camera base_test 0) in
  tr = firstn 31 tr ++ Ev (SetQHYCCDResolution 4096 0 0 3072 2048) 0 :: skipn 32 tr /\
  exists l0 rc ci l',
    firstn 31 tr = l0 ++ Ev (GetQHYCCDChipInfo 4096) (rc, ci) :: l' /\
    Forall (fun e => chip_answer e = None) l' /\
    3072 = imagew ci /\ 2048 = imageh ci /\
    (base_test = base_test -> rc = 0).
Proof.
  intros tr.
  assert (E : tr = firstn 31 tr
                   ++ Ev (SetQHYCCDResolution 4096 0 0 3072 2048) 0 :: skipn 32 tr)
    by (vm_compute; reflexivity).
  split; [exact E |].
  exact (proj2 (proj2
           (resolution_is_full_chip (hdr := qhyccd_h) base_test 0 _ _
              (run_of_path sdk_second_camera base_test 0) _ _ _ _ _ _ _ _ E))).
Defined.

(** The same run: the [memset] of the frame buffer is call 35. *)
Lemma buffer_comes_from_malloc_witness :
  let tr := fst (run_of sdk_second_camera base_test 0) in
  tr = firstn 35 tr ++ Ev (memset 65536 0 6291456) tt :: skipn 36 tr /\
  exists l0 n l',
    firstn 35 tr = l0 ++ Ev (malloc n) 65536 :: l' /\
    Forall (fun e => allocated e = None) l' /\
    (forall c k,
        cleared (Ev (memset 65536 0 6291456) tt) = Some (c, k) -> c = 0 /\ k = n).
Proof.
  intros tr.
  assert (E : tr = firstn 35 tr ++ Ev (memset 65536 0 6291456) tt :: skipn 36 tr)
    by (vm_compute; reflexivity).
  split; [exact E |].
  exact (buffer_comes_from_malloc (hdr := qhyccd_h) base_test 0 _ _
           (run_of_path sdk_second_camera base_test 0) _ _ _ 65536 E eq_refl).
Defined.

(** The single-frame demo when the first fetch fails and the user types
    [a], [a], [q]: the second fetch is call 34. *)
Lemma acquisition_is_prepared_witness :
  let tr := fst (run_of sdk_first_fetch_fails test_single_opencv 5) in
  let ev := nth 34 tr (Ev getchar tt) in
  tr = firstn 34 tr ++ ev :: skipn 35 tr /\
  single_call ev = Some 4096 /\
  (exists l0 (r : Z) l',
      firstn 34 tr = l0 ++ Ev (SetQHYCCDStreamMode 4096 0) r :: l' /\
      Forall (fun e => stream_mode e = None) l') /\
  (exists r : Z,
      In (Ev (SetQHYCCDParam 4096 CONTROL_EXPOSURE (100000 # 1)) r) (firstn 34 tr)).
Proof.
  intros tr ev.
  assert (E : tr = firstn 34 tr ++ ev :: skipn 35 tr) by (vm_compute; reflexivity).
  pose proof (acquisition_is_prepared (hdr := qhyccd_h) test_single_opencv 5 _ _
                (run_of_path sdk_first_fetch_fails test_single_opencv 5)
                _ _ _ 4096 E) as (_ & S & X & _).
  split; [exact E |]. split; [reflexivity |].
  split; [exact (S eq_refl) | exact (X eq_refl eq_refl)].
Defined.

(** base_test with two cameras, the first of which does not give its id:
    [OpenQHYCCD] is call 10, after one failed and one successful
    [GetQHYCCDId]. *)
Lemma opened_id_is_first_read_witness :
  let tr := fst (run_of sdk_second_camera base_test 0) in
  tr = firstn 10 tr ++ Ev (OpenQHYCCD "QHY5III178M-c8f1") 4096 :: skipn 11 tr /\
  exists l0 fails r,
    firstn 10 tr =
    l0 ++ [Ev (GetQHYCCDId (Z.of_nat (List.length fails))) (r, "QHY5III178M-c8f1");
           Ev (printf "connected to the first camera from the list,id is %s\n"
                 [VStr "QHY5III178M-c8f1"]) tt] /\
    filter is_id_query l0 = failed_tries 0 fails /\
    (base_test = base_test -> r = 0 /\ Forall (fun a => fst a <> 0) fails) /\
    (base_test <> base_test -> fails = []).
Proof.
  intros tr.
  assert (E : tr = firstn 10 tr
                   ++ Ev (OpenQHYCCD "QHY5III178M-c8f1") 4096 :: skipn 11 tr)
    by (vm_compute; reflexivity).
  split; [exact E |].
  exact (opened_id_is_first_read (hdr := qhyccd_h) base_test 0 _ _
           (run_of_path sdk_second_camera base_test 0) _ _ _ _ E).
Defined.

(** base_test on a camera without live video returns 1; a run of test_base
    that dies in [memset] (when [GetQHYCCDMemLength] handed back
    [0xFFFFFFFF] and [malloc] gave nothing) is cut short after 24 calls. *)
Lemma runs_end_with_status_0_or_1_witness :
  let tr := fst (run_of sdk_no_live base_test 0) in
  let o := snd (run_of sdk_no_live base_test 0) in
  let dead := firstn 24 (fst (run_of sdk_huge_length test_base 0)) in
  o = Exited 1 /\
  (forall n, o = Exited n -> n = 0 \/ n = 1) /\
  Forall (fun e => foreign base_test e = false) tr /\
  nth 23 dead (Ev getchar tt) = Ev (malloc 18446744073709551615) 65536 /\
  cut (main_of (hdr := qhyccd_h) test_base 0) dead /\
  Forall (fun e => foreign test_base e = false) dead.
Proof.
  intros tr o dead.
  pose proof (runs_end_with_status_0_or_1 (hdr := qhyccd_h) base_test 0 _ _
                (run_of_path sdk_no_live base_test 0)) as (A & _ & B & _).
  pose proof (cut_prefix _ _ _ (run_of_path sdk_huge_length test_base 0) 24) as C.
  split; [vm_compute; reflexivity |]. split; [exact A |]. split; [exact B |].
  split; [vm_compute; reflexivity |]. split; [exact C |].
  exact (proj2 (proj2 (proj2
           (runs_end_with_status_0_or_1 (hdr := qhyccd_h) test_base 0 _ _
              (run_of_path sdk_huge_length test_base 0)))) _ C).
Defined.

(** The single-frame demo over three rounds. *)
Lemma setup_calls_in_order_witness :
  let tr := fst (run_of sdk_first_fetch_fails test_single_opencv 5) in
  setups tr = [1; 2; 3; 4; 5; 6; 7; 8; 9; 10; 11; 13; 15; 16]%nat /\
  StronglySorted lt (setups tr) /\
  forall k, (count (is_setup k) tr <= 1)%nat.
Proof.
  intros tr. split; [vm_compute; reflexivity |].
  exact (setup_calls_in_order (hdr := qhyccd_h) test_single_opencv 5 _ _
           (run_of_path sdk_first_fetch_fails test_single_opencv 5)).
Defined.

(** The single-frame demo when the first fetch fails and the user types
    [a], [a], [q]: the one [imshow] is call 36, after the second fetch. *)
Lemma image_shown_is_latest_frame_witness :
  let tr := fst (run_of sdk_first_fetch_fails test_single_opencv 5) in
  let img := {| rows := 2048; cols := 3072; mat_type := CV_8UC1; data := 65536 |} in
  tr = firstn 36 tr ++ Ev (imshow "show" img) tt :: skipn 37 tr /\
  In (Ev (namedWindow "show" WINDOW_NORMAL) tt) (firstn 36 tr) /\
  exists l0 f buf fi l',
    firstn 36 tr = l0 ++ f :: l' /\
    frame_of f = Some (buf, 0, fi) /\
    Forall (fun e => frame_of e = None) l' /\
    img = {| rows := frame_h fi; cols := frame_w fi;
             mat_type := CV_8UC1; data := buf |}.
Proof.
  intros tr img.
  assert (E : tr = firstn 36 tr ++ Ev (imshow "show" img) tt :: skipn 37 tr)
    by (vm_compute; reflexivity).
  split; [exact E |].
  exact (image_shown_is_latest_frame (hdr := qhyccd_h) test_single_opencv 5 _ _
           (run_of_path sdk_first_fetch_fails test_single_opencv 5) _ _ _ _ E).
Defined.


(** Two rounds of the live demo: the second frame shown carries number 1. *)
Lemma frames_numbered_from_zero_witness :
  let tr := fst (run_of sdk_ok test_live_opencv 2) in
  nth_error (iCnts tr) 1 = Some 1 /\
  1 = int32 (Z.of_nat 1) /\ (Z.of_nat 1 < 2 ^ 31 -> 1 = Z.of_nat 1).
Proof.
  intros tr.
  assert (N : nth_error (iCnts tr) 1 = Some 1) by (vm_compute; reflexivity).
  split; [exact N |].
  exact (frames_numbered_from_zero (hdr := qhyccd_h) test_live_opencv 2 _ _
           (run_of_path sdk_ok test_live_opencv 2) 1%nat 1 N).
Defined.

(** base_test with two cameras: the line [Open QHYCCD success!] is call 11,
    right after [OpenQHYCCD] handed back a handle that is not [NULL]. *)
Lemma log_lines_tell_the_truth_witness :
  let tr := fst (run_of sdk_second_camera base_test 0) in
  tr = firstn 11 tr ++ Ev (printf "Open QHYCCD success!\n" []) tt :: skipn 12 tr /\
  exists l0 c r l',
    firstn 11 tr = l0 ++ c :: l' /\
    setup_call c = Some 3%nat /\ result_of c = Some r /\
    Forall (fun e => result_of e = None) l' /\
    (Success = Success -> went_well (hdr := qhyccd_h) 3 r = true) /\
    (Success = Failure -> went_well (hdr := qhyccd_h) 3 r = false) /\
    (forall n, @nil value = [VInt n] -> n = int32 r).
Proof.
  intros tr.
  assert (E : tr = firstn 11 tr
                   ++ Ev (printf "Open QHYCCD success!\n" []) tt :: skipn 12 tr)
    by (vm_compute; reflexivity).
  split; [exact E |].
  exact (log_lines_tell_the_truth (hdr := qhyccd_h) base_test 0 _ _
           (run_of_path sdk_second_camera base_test 0) _ _ _ _ _ _ E eq_refl).
Defined.

(** Two rounds of the live demo on a clock that is five seconds further on
    at each reading: the first frame rate line is call 30, after one image
    was shown. *)
Lemma fps_line_counts_frames_shown_witness :
  let tr := fst (run_of sdk_slow_frames test_live_opencv 2) in
  let ev := Ev (fprintf_stderr "|QHYCCD|LIVE_DEMO|fps = %d\n" [VInt 0]) tt in
  tr = firstn 30 tr ++ ev :: skipn 31 tr /\
  shown_since 0 (firstn 30 tr) = 1 /\
  0 = Z.quot (shown_since 0 (firstn 30 tr)) 5.
Proof.
  intros tr ev.
  assert (E : tr = firstn 30 tr ++ ev :: skipn 31 tr) by (vm_compute; reflexivity).
  split; [exact E |]. split; [vm_compute; reflexivity |].
  exact (fps_line_counts_frames_shown (hdr := qhyccd_h) test_live_opencv 2 _ _
           (run_of_path sdk_slow_frames test_live_opencv 2) _ _ _ 0 E eq_refl).
Defined.
